(** * Velora: validator scoring protocol and miner sync cursor

    A shallow embedding of [src/validator/validator.py], of
    [Miner.sync_token_pairs] in [src/miner/miner.py] and of
    [DBManager.add_token_pairs] in [db/db_manager.py].  The store manager
    the miner syncs into, [MinerDBManager] of [db/miner_db.py], is not
    among the sources and is modelled from the spec.

    Conventions of the embedding:
    - a Python [float] is an exact rational of [Q]; equalities between
      scores are therefore stated with [==];
    - a Python [dict] keyed by peer id is an association list kept in
      insertion order, because the validator zips [dict.keys()] and
      [dict.values()] with positional lists;
    - a Python exception is a value [Raise e] of the [result] type;
    - [random], the clock, the network and the chain-indexing service
      ([uniswap_fetcher_rs]) are parameters of the sections that use them. *)

From Stdlib Require Import String ZArith QArith Qround Qabs Lqa Lia Bool List.
From Stdlib Require Import Sorting.Permutation Sorting.Sorted.
Import ListNotations.

Set Implicit Arguments.

(** ** The fragment of the Python runtime the validator relies on *)
Module Py.

Inductive exn : Type :=
| IndexError
| KeyError (k : Z)
| NameError (name : string)
| TypeError
| ValueError
| ZeroDivisionError
| AttributeError
| AssertionError.

Inductive result (A : Type) : Type :=
| Ok (a : A)
| Raise (e : exn).
Arguments Ok {A} a.
Arguments Raise {A} e.

Definition bind {A B : Type} (m : result A) (k : A -> result B) : result B :=
  match m with
  | Ok a => k a
  | Raise e => Raise e
  end.

Definition raises {A : Type} (m : result A) : Prop :=
  exists e, m = Raise e.

(** [dict[int, V]]: insertion-ordered, one entry per key. *)
Definition dict (V : Type) : Type := list (Z * V).

Fixpoint dict_get {V : Type} (d : dict V) (k : Z) : option V :=
  match d with
  | [] => None
  | (k', v) :: d' => if Z.eqb k k' then Some v else dict_get d' k
  end.

(** [d[k]]: raises [KeyError] on a missing key. *)
Definition dict_item {V : Type} (d : dict V) (k : Z) : result V :=
  match dict_get d k with
  | Some v => Ok v
  | None => Raise (KeyError k)
  end.

(** [d[k] = v]: overwrites in place, or appends a new entry. *)
Fixpoint dict_set {V : Type} (d : dict V) (k : Z) (v : V) : dict V :=
  match d with
  | [] => [(k, v)]
  | (k', v') :: d' =>
      if Z.eqb k k' then (k, v) :: d' else (k', v') :: dict_set d' k v
  end.

Definition keys {V : Type} (d : dict V) : list Z := map fst d.
Definition values {V : Type} (d : dict V) : list V := map snd d.

(** [dict(items)]: later items overwrite earlier ones. *)
Definition dict_of_items {V : Type} (items : list (Z * V)) : dict V :=
  fold_left (fun d kv => dict_set d (fst kv) (snd kv)) items [].

(** [zip(xs, ys)] is [List.combine]: it stops at the shorter argument. *)
Definition zip {A B : Type} (xs : list A) (ys : list B) : list (A * B) :=
  combine xs ys.

(** [sum], [max] and [min] over a list of floats; the last two raise
    [ValueError] on an empty argument. *)
Definition sum (xs : list Q) : Q := fold_left Qplus xs 0.

(** [max(x, y)] and [min(x, y)]: on a tie both return their first
    argument, as do the folds [max(xs)] and [min(xs)]. *)
Definition Qmax (x y : Q) : Q := if Qle_bool y x then x else y.
Definition Qmin (x y : Q) : Q := if Qle_bool x y then x else y.

Definition max_list (xs : list Q) : result Q :=
  match xs with
  | [] => Raise ValueError
  | x :: xs' => Ok (fold_left Qmax xs' x)
  end.

Definition min_list (xs : list Q) : result Q :=
  match xs with
  | [] => Raise ValueError
  | x :: xs' => Ok (fold_left Qmin xs' x)
  end.

Definition Zmax_list (xs : list Z) : result Z :=
  match xs with
  | [] => Raise ValueError
  | x :: xs' => Ok (fold_left Z.max xs' x)
  end.

(** A comprehension whose element expression may raise. *)
Fixpoint mapM {A B : Type} (f : A -> result B) (l : list A)
  : result (list B) :=
  match l with
  | [] => Ok []
  | x :: l' =>
      match f x with
      | Raise e => Raise e
      | Ok y =>
          match mapM f l' with
          | Raise e => Raise e
          | Ok ys => Ok (y :: ys)
          end
      end
  end.

(** [x / y] on floats. *)
Definition truediv (x y : Q) : result Q :=
  if Qeq_bool y 0 then Raise ZeroDivisionError else Ok (x / y).

(** [int(x)]: truncation towards zero. *)
Definition int_of_float (x : Q) : Z := Z.quot (Qnum x) (Z.pos (Qden x)).

End Py.
Import Py.

Notation "x <- m ;; k" := (bind m (fun x => k))
  (at level 61, m at next level, right associativity).

(** Module constants of [validator.py]. *)
Definition EPS : Q := 1 # 10000000000.
Definition DAY_SECONDS : Z := 86400.

(** ** Answer verifier: the accuracy transform (line 434) *)

Definition accuracy_transform (accuracy_score : Q) : Q :=
  ((accuracy_score - (3 # 4)) * 4) ^ 3.

(** ** Effects of a validation step

    A step draws random numbers and writes log lines.  Both are kept in a
    [world]: the number of draws consumed so far from the random source,
    and the peer lists written by the line
    [log(f"Selected the following miners: ...")] of [get_miner_answer]. *)
Record world : Type := mkWorld {
  draws : nat;
  selected : list (list Z)
}.

Definition M (A : Type) : Type := world -> result A * world.

Definition ret {A : Type} (a : A) : M A := fun w => (Ok a, w).
Definition throw {A : Type} (e : exn) : M A := fun w => (Raise e, w).
Definition lift {A : Type} (r : result A) : M A := fun w => (r, w).

Definition bindM {A B : Type} (m : M A) (k : A -> M B) : M B :=
  fun w =>
    match m w with
    | (Ok a, w') => k a w'
    | (Raise e, w') => (Raise e, w')
    end.

Notation "x <~ m ;; k" := (bindM m (fun x => k))
  (at level 61, m at next level, right associativity).

Definition log_selected (uids : list Z) : M unit :=
  fun w => (Ok tt, mkWorld (draws w) (selected w ++ [uids])).

(** ** Protocol messages

    [utils/protocols.py] is not part of the sources; the records below
    carry the fields the validator reads. *)
(** [HealthCheckSynapse()] has no field. *)
Inductive HealthCheckSynapse : Type := mkHealthCheckSynapse.

Record HealthCheckResponse : Type := {
  time_completed : Z;
  pool_addresses : list string
}.

Record PoolEventSynapse : Type := {
  pool_address : string;
  start_datetime : Z;
  end_datetime : Z
}.

(** One pool event as a JSON object read with [.get]: each of the two keys
    may be missing.  Claimed records and the records of the chain-indexing
    service have this shape. *)
Record EventRecord : Type := {
  block_number : option Z;
  transaction_hash : option string
}.

Record PoolEventResponse : Type := {
  data : option (list EventRecord);
  overall_data_hash : string
}.

Record Signals : Type := {
  price : Q;
  liquidity : Q;
  volume : Q
}.

Record SignalEventSynapse : Type := {
  signal_pool_address : string;
  timestamp : Z
}.

Record SignalEventResponse : Type := {
  signal_data : option Signals
}.

(** [modules_info[uid] = ([ip, port], key)]. *)
Record MinerInfo : Type := {
  module_ip : string;
  module_port : string;
  miner_key : string
}.

(** [miner_answer = {'data': ..., 'process_time': ...}]; the process time
    is kept in seconds ([timedelta.total_seconds()]). *)
Record MinerAnswer (R : Type) : Type := {
  answer_data : R;
  process_time : Q
}.

(** ** Concurrent poller *)

(** What one [client.call] followed by decoding can do.  Every constructor
    but the last is an exception raised inside the [try] block of
    [_get_miner_prediction]. *)
Inductive CallOutcome (R : Type) : Type :=
| TimedOut
| ConnectionFailed
| TransportError
| InvalidJson
| UnknownClassName
| InvalidFields
| Replied (response : R) (elapsed : Q).
Arguments TimedOut {R}.
Arguments ConnectionFailed {R}.
Arguments TransportError {R}.
Arguments InvalidJson {R}.
Arguments UnknownClassName {R}.
Arguments InvalidFields {R}.

Definition failed {R : Type} (o : CallOutcome R) : bool :=
  match o with
  | Replied _ _ => false
  | _ => true
  end.

(** The [synapses] argument: a single request, or a Python [list]. *)
Inductive Synapses (S : Type) : Type :=
| Shared (synapse : S)
| PerPeer (synapses : list S).

Section Poller.
Variables S R : Type.
Variable call : S -> MinerInfo -> CallOutcome R.

Definition _get_miner_prediction (synapse : S) (miner_info : MinerInfo)
  : option (MinerAnswer R) :=
  match call synapse miner_info with
  | Replied response elapsed =>
      Some {| answer_data := response; process_time := elapsed |}
  | _ => None
  end.

(** [synapses = [synapses] * len(modules_info)] unless it is a list. *)
Definition requests (modules_info : dict MinerInfo) (synapses : Synapses S)
  : list S :=
  match synapses with
  | PerPeer l => l
  | Shared s => repeat s (length modules_info)
  end.

(** [answers = [*executor.map(...)]]: [executor.map] yields the results
    in the order of its input. *)
Definition answers (modules_info : dict MinerInfo) (synapses : list S)
  : list (option (MinerAnswer R)) :=
  map (fun x => _get_miner_prediction (fst x) (snd x))
      (zip synapses (values modules_info)).

Definition get_miner_answer
    (modules_info : dict MinerInfo) (synapses : Synapses S)
  : M (option (list (option (MinerAnswer R)))) :=
  let synapses := requests modules_info synapses in
  _ <~ log_selected (keys modules_info) ;;
  match answers modules_info synapses with
  | [] => ret None
  | _ :: _ => ret (Some (answers modules_info synapses))
  end.

(** One shared request, or one request per peer (section 4.4). *)
Definition one_request_per_peer
    (modules_info : dict MinerInfo) (synapses : Synapses S) : Prop :=
  length (requests modules_info synapses) = length modules_info.

End Poller.

(** ** Weight submitter *)

(** [sorted(items, key=lambda x: x[1], reverse=True)].  Python's sort is
    stable, also under [reverse=True]: entries with equal scores keep their
    original order.  A stable insertion sort computes the same list. *)
Fixpoint insert_by_score (x : Z * Q) (l : list (Z * Q)) : list (Z * Q) :=
  match l with
  | [] => [x]
  | y :: l' =>
      if Qle_bool (snd y) (snd x) then x :: y :: l'
      else y :: insert_by_score x l'
  end.

Definition sorted_by_score (items : list (Z * Q)) : list (Z * Q) :=
  fold_right insert_by_score [] items.

(** [l[:m]]; a negative [m] counts from the end. *)
Definition slice_to {A : Type} (l : list A) (m : Z) : list A :=
  if (0 <=? m)%Z then firstn (Z.to_nat m) l
  else firstn (length l - Z.to_nat (- m)) l.

Definition cut_to_max_allowed_weights
    (score_dict : dict Q) (max_allowed_weights : Z) : dict Q :=
  let sorted_scores := sorted_by_score score_dict in
  let cut_scores := slice_to sorted_scores max_allowed_weights in
  dict_of_items cut_scores.

(** The loop of lines 98-103. *)
Fixpoint weigh (items : list (Z * Q)) (scores : Q) (weighted_scores : dict Z)
  : result (dict Z) :=
  match items with
  | [] => Ok weighted_scores
  | (uid, score) :: items' =>
      weight <- truediv (score * 1000) scores ;;
      weigh items' scores (dict_set weighted_scores uid (int_of_float weight))
  end.

(** [set_weights] up to its last line: the result is the pair
    [(uids, weights)] handed to [client.vote].  [settings] is represented
    by its only field read here, [max_allowed_weights]. *)
Definition set_weights (max_allowed_weights : Z) (score_dict : dict Q)
  : result (list Z * list Z) :=
  let score_dict := cut_to_max_allowed_weights score_dict max_allowed_weights in
  let scores := sum (values score_dict) in
  weighted_scores <- weigh score_dict scores [] ;;
  let weighted_scores :=
    filter (fun kv => negb (Z.eqb (snd kv) 0)) weighted_scores in
  Ok (keys weighted_scores, values weighted_scores).

(** ** Score aggregator: latency and health *)

(** Lines 488 and 533.  The divisor is at least [EPS], so the division
    cannot raise. *)
Definition latency_score (min_time max_time process_time : Q) : Q :=
  1 - (1 # 2) * (process_time - min_time) / (max_time - min_time + EPS).

(** Lines 486-488 and 531-533. *)
Definition normalize_process_time (process_time_score : dict Q)
  : result (dict Q) :=
  max_time <- max_list (values process_time_score) ;;
  min_time <- min_list (values process_time_score) ;;
  Ok (dict_of_items
        (map (fun kv => (fst kv, latency_score min_time max_time (snd kv)))
             process_time_score)).

(** [[(key, miner_answer) for key, miner_answer in miner_results
      if miner_answer is not None]]. *)
Definition valid_results {R : Type}
    (miner_results : list (Z * option (MinerAnswer R)))
  : list (Z * MinerAnswer R) :=
  flat_map (fun kv => match snd kv with
                      | Some a => [(fst kv, a)]
                      | None => []
                      end) miner_results.

(** The element expressions of the comprehensions on lines 502 and 503. *)
Definition amount (mx_timestamp : Z) (r : HealthCheckResponse) : result Q :=
  truediv (inject_Z (time_completed r)) (inject_Z mx_timestamp).

Definition recency (today_timestamp : Q) (r : HealthCheckResponse) : Q :=
  Qmax 0 ((inject_Z (10 * DAY_SECONDS + time_completed r) - today_timestamp)
          / inject_Z DAY_SECONDS / 10).

(** [today_timestamp] is [datetime.today().timestamp()]. *)
Definition score_health_check (today_timestamp : Q)
    (miner_results : list (Z * option (MinerAnswer HealthCheckResponse)))
  : result (dict Q) :=
  let valid_miner_results := valid_results miner_results in
  if Nat.eqb (length valid_miner_results) 0 then Ok []
  else
    let timestamps :=
      map (fun kv => time_completed (answer_data (snd kv)))
          valid_miner_results in
    mx_timestamp <- Zmax_list timestamps ;;
    amount_items <-
      mapM (fun kv => a <- amount mx_timestamp (answer_data (snd kv)) ;;
                      Ok (fst kv, a)) valid_miner_results ;;
    let amount_score := dict_of_items amount_items in
    let recency_score :=
      dict_of_items
        (map (fun kv => (fst kv, recency today_timestamp (answer_data (snd kv))))
             valid_miner_results) in
    items <-
      mapM (fun key => a <- dict_item amount_score key ;;
                       r <- dict_item recency_score key ;;
                       Ok (key, a * (6 # 10) + r * (4 # 10)))
           (keys amount_score) ;;
    Ok (dict_of_items items).

(** ** The validator proper *)

(** What [check_miner_answer_pool_event] returns: the Python value
    [False], or a float. *)
Inductive accuracy : Type :=
| PyFalse
| PyFloat (q : Q).

(** [False] counts as 0 in arithmetic. *)
Definition as_float (a : accuracy) : Q :=
  match a with
  | PyFalse => 0
  | PyFloat q => q
  end.

Definition option_string_eqb (x y : option string) : bool :=
  match x, y with
  | Some a, Some b => String.eqb a b
  | None, None => true
  | _, _ => false
  end.

Definition ANSWER_CHECK_COUNT : nat := 10.

Section Validator.
(** The random source: [rnd n] is the n-th raw draw. *)
Variable rnd : nat -> nat.
(** [int(datetime(2021, 5, 4).timestamp())], in the validator's local
    time zone. *)
Variable START_TIMESTAMP : Z.
(** [datetime.today().timestamp()]. *)
Variable today_timestamp : Q.
(** The chain-indexing service. *)
Variable get_block_number_range : Z -> Z -> Z * Z.
Variable get_pool_events_by_pool_addresses :
  list string -> Z -> Z -> list EventRecord.
Variable get_signals_by_pool_address : string -> Z -> string -> Signals.
(** The peers, one oracle per kind of request. *)
Variable call_health :
  HealthCheckSynapse -> MinerInfo -> CallOutcome HealthCheckResponse.
Variable call_pool :
  PoolEventSynapse -> MinerInfo -> CallOutcome PoolEventResponse.
Variable call_signal :
  SignalEventSynapse -> MinerInfo -> CallOutcome SignalEventResponse.

Definition tick (w : world) : world := mkWorld (S (draws w)) (selected w).

(** [random.choice(seq)]: [IndexError] on an empty sequence. *)
Definition random_choice {A : Type} (seq : list A) : M A :=
  fun w =>
    match seq with
    | [] => (Raise IndexError, w)
    | x :: _ => (Ok (nth (rnd (draws w) mod length seq) seq x), tick w)
    end.

(** [random.randint(a, b)]: [ValueError] on an empty range. *)
Definition random_randint (a b : Z) : M Z :=
  fun w =>
    if (b <? a)%Z then (Raise ValueError, w)
    else (Ok (a + Z.of_nat (rnd (draws w)) mod (b - a + 1))%Z, tick w).

Fixpoint get_pool_event_synapses
    (healthy_data : list (option (MinerAnswer HealthCheckResponse)))
  : M (list PoolEventSynapse) :=
  match healthy_data with
  | [] => ret []
  | None :: rest => get_pool_event_synapses rest
  | Some miner_data :: rest =>
      let miner_data := answer_data miner_data in
      let days :=
        ((time_completed miner_data - START_TIMESTAMP) / DAY_SECONDS)%Z in
      random_pick <~ random_randint 0 days ;;
      let start_date := (random_pick * DAY_SECONDS + START_TIMESTAMP)%Z in
      let end_date := (start_date + DAY_SECONDS)%Z in
      pool_addr <~ random_choice (pool_addresses miner_data) ;;
      synapses <~ get_pool_event_synapses rest ;;
      ret ({| pool_address := pool_addr;
              start_datetime := start_date;
              end_datetime := end_date |} :: synapses)
  end.

(** Lines 385-390: does an authoritative event at that block carry the
    claimed transaction hash? *)
Definition okay (pool_address : string) (block_number : Z)
    (block_data : EventRecord) : bool :=
  existsb (fun block_data_of_pool =>
             option_string_eqb (transaction_hash block_data_of_pool)
                               (transaction_hash block_data))
          (get_pool_events_by_pool_addresses
             [pool_address] block_number block_number).

(** The loop of lines 376-390, with the number of trials left. *)
Fixpoint spot_check (trials : nat) (pool_address : string)
    (block_number_start block_number_end : Z)
    (miner_data : list EventRecord) (correct_count : Z) : M accuracy :=
  match trials with
  | O => ret (PyFloat (inject_Z correct_count
                       / inject_Z (Z.of_nat ANSWER_CHECK_COUNT)))
  | S trials' =>
      block_data <~ random_choice miner_data ;;
      match block_number block_data with
      | None => ret PyFalse
      | Some bn =>
          if (bn <? block_number_start)%Z || (bn >? block_number_end)%Z
          then ret PyFalse
          else
            spot_check trials' pool_address
              block_number_start block_number_end miner_data
              (correct_count
               + (if okay pool_address bn block_data then 1 else 0))%Z
      end
  end.

Definition check_miner_answer_pool_event
    (miner_prompt : PoolEventSynapse) (miner_answer : PoolEventResponse)
  : M accuracy :=
  let (block_number_start, block_number_end) :=
    get_block_number_range (start_datetime miner_prompt)
                           (end_datetime miner_prompt) in
  match data miner_answer with
  | None => ret PyFalse
  | Some miner_data =>
      spot_check ANSWER_CHECK_COUNT (pool_address miner_prompt)
        block_number_start block_number_end miner_data 0
  end.

(** [miner_answer] is [None] or a response object; an object is truthy. *)
Definition check_pool_event_accuracy
    (synapse : PoolEventSynapse) (miner_answer : option PoolEventResponse)
  : M Q :=
  match miner_answer with
  | None => ret 0
  | Some miner_answer =>
      accuracy_score <~ check_miner_answer_pool_event synapse miner_answer ;;
      ret (accuracy_transform (as_float accuracy_score))
  end.

(** The loop of lines 470-480; [time.sleep] has no counterpart here. *)
Fixpoint score_pool_events_loop
    (pairs : list (PoolEventSynapse
                   * (Z * option (MinerAnswer PoolEventResponse))))
    (process_time_score accuracy_score : dict Q) : M (dict Q * dict Q) :=
  match pairs with
  | [] => ret (process_time_score, accuracy_score)
  | (synapse, (key, None)) :: rest =>
      score_pool_events_loop rest process_time_score accuracy_score
  | (synapse, (key, Some miner_answer)) :: rest =>
      let process_time_score :=
        dict_set process_time_score key (process_time miner_answer) in
      score <~ check_pool_event_accuracy synapse
                 (Some (answer_data miner_answer)) ;;
      if Qle_bool score 1
      then score_pool_events_loop rest process_time_score
             (dict_set accuracy_score key score)
      else throw AssertionError
  end.

Definition score_pool_events (synapses : list PoolEventSynapse)
    (miner_results : list (Z * option (MinerAnswer PoolEventResponse)))
  : M (dict Q) :=
  scores <~ score_pool_events_loop (zip synapses miner_results) [] [] ;;
  let (process_time_score, accuracy_score) := scores in
  if Nat.eqb (length process_time_score) 0 then ret []
  else
    process_time_score <~ lift (normalize_process_time process_time_score) ;;
    overall_score <~
      lift (mapM (fun key =>
                    a <- dict_item accuracy_score key ;;
                    p <- dict_item process_time_score key ;;
                    Ok (key, (a + p) / 2))
                 (keys accuracy_score)) ;;
    ret (dict_of_items overall_score).

Fixpoint get_signal_event_synapse
    (healthy_data : list (option (MinerAnswer HealthCheckResponse)))
  : M (list SignalEventSynapse) :=
  match healthy_data with
  | [] => ret []
  | None :: rest => get_signal_event_synapse rest
  | Some miner_data :: rest =>
      let miner_data := answer_data miner_data in
      (* [days] is a float: [randint] takes it when it is integral and
         raises otherwise (from Python 3.12 on it raises in both cases) *)
      let seconds := (time_completed miner_data - START_TIMESTAMP)%Z in
      if negb (seconds mod (5 * 60) =? 0)%Z then throw ValueError
      else
        random_pick <~ random_randint 0 (seconds / (5 * 60)) ;;
        let timestamp := (random_pick * 300 + START_TIMESTAMP)%Z in
        pool_addr <~ random_choice (pool_addresses miner_data) ;;
        synapses <~ get_signal_event_synapse rest ;;
        ret ({| signal_pool_address := pool_addr;
                timestamp := timestamp |} :: synapses)
  end.

(** [None] stands for the [False] returned on a response without data. *)
Definition get_deviations (miner_prompt : SignalEventSynapse)
    (miner_answer : SignalEventResponse) : option Signals :=
  match signal_data miner_answer with
  | None => None
  | Some miner_data =>
      let ground_truth :=
        get_signals_by_pool_address (signal_pool_address miner_prompt)
          (timestamp miner_prompt) "5m" in
      Some {| price := Qabs (price ground_truth - price miner_data);
              liquidity :=
                Qabs (liquidity ground_truth - liquidity miner_data);
              volume := Qabs (volume ground_truth - volume miner_data) |}
  end.

(** The loop of lines 519-525. *)
Fixpoint score_signal_events_loop
    (pairs : list (SignalEventSynapse
                   * (Z * option (MinerAnswer SignalEventResponse))))
    (process_time_score : dict Q) (deviations : dict (option Signals))
  : dict Q * dict (option Signals) :=
  match pairs with
  | [] => (process_time_score, deviations)
  | (synapse, (key, None)) :: rest =>
      score_signal_events_loop rest process_time_score deviations
  | (synapse, (key, Some miner_answer)) :: rest =>
      score_signal_events_loop rest
        (dict_set process_time_score key (process_time miner_answer))
        (dict_set deviations key
           (get_deviations synapse (answer_data miner_answer)))
  end.

(** Lines 535-546.  [deviations] is a dict, so [for key, deviation in
    deviations] iterates over its integer keys and fails to unpack the
    first of them; on an empty dict [min([])] raises instead. *)
Definition get_min_max_deviations (deviations : dict (option Signals))
  : result (Signals * Signals) :=
  match keys deviations with
  | [] => Raise ValueError
  | _ :: _ => Raise TypeError
  end.

(** Lines 548-554, read as the dict comprehension [{key: {...} for ...}];
    as written, with square brackets, the display is not accepted by the
    Python parser.  It iterates over the keys like the function above. *)
Definition get_deviation_scores (deviations : dict (option Signals))
    (min_deviations max_deviations : Signals) : result (dict Signals) :=
  match keys deviations with
  | [] => Ok []
  | _ :: _ => Raise TypeError
  end.

(** Lines 556-557: a list of one-entry dicts, again iterating over keys. *)
Definition get_deviation_score (scores : dict Signals)
  : result (list (dict Q)) :=
  match keys scores with
  | [] => Ok []
  | _ :: _ => Raise TypeError
  end.

Definition score_signal_events (synapses : list SignalEventSynapse)
    (miner_results : list (Z * option (MinerAnswer SignalEventResponse)))
  : result (dict Q) :=
  let (process_time_score, deviations) :=
    score_signal_events_loop (zip synapses miner_results) [] [] in
  if Nat.eqb (length process_time_score) 0 then Ok []
  else
    process_time_score <- normalize_process_time process_time_score ;;
    min_max <- get_min_max_deviations deviations ;;
    deviation_scores <-
      get_deviation_scores deviations (fst min_max) (snd min_max) ;;
    deviation_score <- get_deviation_score deviation_scores ;;
    (* line 563 iterates over [accuracy_score.keys()], a name that is
       not bound in this function *)
    Raise (NameError "accuracy_score").

(** Line 616. *)
Definition overall_scores (uids : list Z)
    (health_score pool_events_score signal_events_score : dict Q)
  : result (dict Q) :=
  items <- mapM (fun key =>
                   h <- dict_item health_score key ;;
                   p <- dict_item pool_events_score key ;;
                   s <- dict_item signal_events_score key ;;
                   Ok (key, h * (3 # 10) + p * (3 # 10) + s * (4 # 10)))
                uids ;;
  Ok (dict_of_items items).

(** [zip(keys, answers)] raises [TypeError] when [get_miner_answer]
    returned [None]. *)
Definition zip_answers {R : Type} (uids : list Z)
    (answers : option (list (option (MinerAnswer R))))
  : result (list (Z * option (MinerAnswer R))) :=
  match answers with
  | None => Raise TypeError
  | Some l => Ok (zip uids l)
  end.

(** [validate_step], from the peer directory returned by
    [retrieve_miner_information] on.  The result is the vote handed to
    the ledger client, or [None] when the step returns without voting. *)
Definition validate_step (max_allowed_weights : Z)
    (modules_info : dict MinerInfo) : M (option (list Z * list Z)) :=
  health_data <~
    get_miner_answer call_health modules_info (Shared mkHealthCheckSynapse) ;;
  miner_results_health_data <~
    lift (zip_answers (keys modules_info) health_data) ;;
  health_score <~
    lift (score_health_check today_timestamp miner_results_health_data) ;;
  valid_miner_infos <~
    lift (items <- mapM (fun key => info <- dict_item modules_info key ;;
                                    Ok (key, info))
                        (keys health_score) ;;
          Ok (dict_of_items items)) ;;
  if Nat.eqb (length valid_miner_infos) 0 then ret None
  else
    let health_data := match health_data with Some l => l | None => [] end in
    pool_event_check_synapses <~ get_pool_event_synapses health_data ;;
    pool_events <~
      get_miner_answer call_pool valid_miner_infos
        (PerPeer pool_event_check_synapses) ;;
    miner_results_pool_events <~
      lift (zip_answers (keys valid_miner_infos) pool_events) ;;
    pool_events_score <~
      score_pool_events pool_event_check_synapses miner_results_pool_events ;;
    signal_event_synapses <~ get_signal_event_synapse health_data ;;
    signal_events <~
      get_miner_answer call_signal valid_miner_infos
        (PerPeer signal_event_synapses) ;;
    miner_results_signal_events <~
      lift (zip_answers (keys valid_miner_infos) signal_events) ;;
    signal_events_score <~
      lift (score_signal_events signal_event_synapses
              miner_results_signal_events) ;;
    score_dict <~
      lift (overall_scores (keys modules_info) health_score
              pool_events_score signal_events_score) ;;
    match score_dict with
    | [] => ret None
    | _ :: _ =>
        vote <~ lift (set_weights max_allowed_weights score_dict) ;;
        ret (Some vote)
    end.

End Validator.

(** Vocabulary of the statements about the spot check: the records the
    next [trials] calls of [random.choice(miner_data)] pick in world [w],
    whether a record carries a block number inside the queried range, and
    whether a trial on it is counted as correct. *)
Definition picks (rnd : nat -> nat) (w : world) (miner_data : list EventRecord)
    (trials : nat) : list EventRecord :=
  match miner_data with
  | [] => []
  | x :: _ =>
      map (fun i => nth (rnd (draws w + i)%nat mod length miner_data)
                        miner_data x)
          (seq 0 trials)
  end.

Definition in_block_range (block_number_start block_number_end : Z)
    (r : EventRecord) : bool :=
  match block_number r with
  | Some bn => negb ((bn <? block_number_start)%Z || (bn >? block_number_end)%Z)
  | None => false
  end.

Definition confirmed_by_chain
    (events : list string -> Z -> Z -> list EventRecord)
    (pool_address : string) (r : EventRecord) : bool :=
  match block_number r with
  | Some bn => okay events pool_address bn r
  | None => false
  end.

(** ** Example round: three peers, the first one never answers *)

Definition demo_now : Z := 1730000100.

Definition demo_peer (port : string) : MinerInfo :=
  {| module_ip := "10.0.0.7"; module_port := port; miner_key := "5Fpeer" |}.

Definition demo_modules_info : dict MinerInfo :=
  [(0%Z, demo_peer "8000"); (1%Z, demo_peer "8001"); (2%Z, demo_peer "8002")].

Definition demo_pools : list string := ["0xpool"%string].

(** Peer 0 times out, peer 1 is one day behind, peer 2 ten days behind. *)
Definition demo_health_call (_ : HealthCheckSynapse) (info : MinerInfo)
  : CallOutcome HealthCheckResponse :=
  if String.eqb (module_port info) "8001" then
    Replied {| time_completed := demo_now - 1 * 86400;
               pool_addresses := demo_pools |} (3 # 10)
  else if String.eqb (module_port info) "8002" then
    Replied {| time_completed := demo_now - 10 * 86400;
               pool_addresses := demo_pools |} (7 # 10)
  else TimedOut.

Definition world0 : world := mkWorld 0 [].

(** Vocabulary of the statements about weights. *)
Definition score_ge (a b : Z * Q) : Prop := snd b <= snd a.

Definition Zsum (l : list Z) : Z := fold_right Z.add 0%Z l.

(** The integer weight line 100 gives to an entry of the kept scores. *)
Definition rescale (scores : Q) (entry : Z * Q) : Z * Z :=
  (fst entry, int_of_float (snd entry * 1000 / scores)).

Definition nonzero_weight (kv : Z * Z) : bool := negb (Z.eqb (snd kv) 0).

(** The score map named in section 8: [{A: 10, B: 5, C: 0}], with the
    peers numbered 0, 1, 2. *)
Definition demo_scores : dict Q := [(0%Z, 10); (1%Z, 5); (2%Z, 0)].

Definition answered {R : Type} (a : option (MinerAnswer R)) : bool :=
  match a with
  | Some _ => true
  | None => false
  end.

(** The health score in the words of section 4.6: 0.6 times the timestamp
    normalised against the round maximum, plus 0.4 times the recency bonus. *)
Definition health_blend (mx_timestamp : Z) (today_timestamp : Q)
    (r : HealthCheckResponse) : Q :=
  inject_Z (time_completed r) / inject_Z mx_timestamp * (6 # 10)
  + recency today_timestamp r * (4 # 10).

(** The rest of the example: a random source, a chain with one event in
    block 150 of the queried range [100, 200], peer 1 claiming that event
    and peer 2 claiming an event of block 999. *)
Definition demo_rnd (n : nat) : nat := 7 * n + 3.

Definition demo_START_TIMESTAMP : Z := 1620086400.

Definition demo_block_range (start_datetime end_datetime : Z) : Z * Z :=
  (100%Z, 200%Z).

Definition demo_chain_events (pools : list string) (first last : Z)
  : list EventRecord :=
  if (first <=? 150)%Z && (150 <=? last)%Z
  then [{| block_number := Some 150%Z; transaction_hash := Some "0xaa"%string |}]
  else [].

Definition demo_signals (pool : string) (ts : Z) (granularity : string)
  : Signals :=
  {| price := 2000; liquidity := 500; volume := 40 |}.

Definition demo_pool_call (_ : PoolEventSynapse) (info : MinerInfo)
  : CallOutcome PoolEventResponse :=
  if String.eqb (module_port info) "8001" then
    Replied {| data := Some [{| block_number := Some 150%Z;
                                transaction_hash := Some "0xaa"%string |}];
               overall_data_hash := "0xhash" |} (2 # 10)
  else
    Replied {| data := Some [{| block_number := Some 999%Z;
                                transaction_hash := Some "0xbb"%string |}];
               overall_data_hash := "0xhash" |} (4 # 10).

Definition demo_signal_call (_ : SignalEventSynapse) (info : MinerInfo)
  : CallOutcome SignalEventResponse :=
  Replied {| signal_data :=
               Some {| price := 1990; liquidity := 510; volume := 40 |} |}
          (1 # 10).

Definition demo_silent_signal_call (_ : SignalEventSynapse) (info : MinerInfo)
  : CallOutcome SignalEventResponse := TimedOut.

Definition demo_validate_step
    (call_signal : SignalEventSynapse -> MinerInfo
                   -> CallOutcome SignalEventResponse)
  : result (option (list Z * list Z)) * world :=
  validate_step demo_rnd demo_START_TIMESTAMP (inject_Z demo_now)
    demo_block_range demo_chain_events demo_signals
    demo_health_call demo_pool_call call_signal
    420 demo_modules_info world0.

Definition demo_pool_synapse : PoolEventSynapse :=
  {| pool_address := "0xpool"; start_datetime := 1700000000;
     end_datetime := 1700086400 |}.

(** An answer whose only record lies in block 999, outside [100, 200]. *)
Definition demo_stale_answer : PoolEventResponse :=
  {| data := Some [{| block_number := Some 999%Z;
                      transaction_hash := Some "0xbb"%string |}];
     overall_data_hash := "0xhash" |}.

(** An answer whose only record is the event of block 150. *)
Definition demo_good_answer : PoolEventResponse :=
  {| data := Some [{| block_number := Some 150%Z;
                      transaction_hash := Some "0xaa"%string |}];
     overall_data_hash := "0xhash" |}.

(** A signal round with one responding peer. *)
Definition demo_signal_synapse : SignalEventSynapse :=
  {| signal_pool_address := "0xpool"; timestamp := 1700000100 |}.

Definition demo_signal_results
  : list (Z * option (MinerAnswer SignalEventResponse)) :=
  [(1%Z, Some {| answer_data :=
                   {| signal_data :=
                        Some {| price := 1990; liquidity := 510;
                                volume := 40 |} |};
                 process_time := 1 # 10 |})].

(** The three score maps of a step in which peer 0 failed the health check
    and peers 1 and 2 were scored in every round. *)
Definition demo_health_score : dict Q := [(1%Z, 96 # 100); (2%Z, 6 # 10)].
Definition demo_pool_events_score : dict Q := [(1%Z, 1); (2%Z, -13)].
Definition demo_signal_events_score : dict Q := [(1%Z, 9 # 10); (2%Z, 7 # 10)].

(** [logs_only P m]: whatever [m] appends to the log of selected peers
    satisfies [P]. *)
Definition logs_only {A : Type} (P : list Z -> Prop) (m : M A) : Prop :=
  forall w, exists later,
    selected (snd (m w)) = selected w ++ later /\ Forall P later.

(** The two health answers of the example. *)
Definition demo_fresh_answer : MinerAnswer HealthCheckResponse :=
  {| answer_data := {| time_completed := demo_now - 1 * 86400;
                       pool_addresses := demo_pools |};
     process_time := 3 # 10 |}.

Definition demo_stale_health_answer : MinerAnswer HealthCheckResponse :=
  {| answer_data := {| time_completed := demo_now - 10 * 86400;
                       pool_addresses := demo_pools |};
     process_time := 7 # 10 |}.

(** Peer 0 times out; peers 1 and 2 report timestamps before the epoch,
    one and two seconds before it. *)
Definition demo_backdated_health_call (_ : HealthCheckSynapse)
    (info : MinerInfo) : CallOutcome HealthCheckResponse :=
  if String.eqb (module_port info) "8001" then
    Replied {| time_completed := -1; pool_addresses := demo_pools |} (3 # 10)
  else if String.eqb (module_port info) "8002" then
    Replied {| time_completed := -2; pool_addresses := demo_pools |} (7 # 10)
  else TimedOut.

(** ** Miner: token-pair table and sync cursor *)
Module MinerSync.

(** A pool-creation event as returned by
    [get_pool_created_events_between_two_timestamps]. *)
Record PoolCreated : Type := {
  token0 : string;
  token1 : string;
  fee : Z;
  pool : string;
  block_number : string
}.

(** A row of the table [token_pairs]; [id] is the autoincremented
    primary key, the only uniqueness constraint of the table. *)
Record Tokenpairstable : Type := {
  id : Z;
  row_token0 : string;
  row_token1 : string;
  row_fee : Z;
  row_pool : string;
  row_block_number : string;
  completed : bool
}.

Definition natural_key (row : Tokenpairstable) : string * string * Z :=
  (row_token0 row, row_token1 row, row_fee row).

Definition event_key (e : PoolCreated) : string * string * Z :=
  (token0 e, token1 e, fee e).

(** Rows are never deleted, so the next id is the row count plus one. *)
Definition insert_row (table : list Tokenpairstable) (token_pair : PoolCreated)
  : list Tokenpairstable :=
  table ++ [{| id := Z.of_nat (length table) + 1;
               row_token0 := token0 token_pair;
               row_token1 := token1 token_pair;
               row_fee := fee token_pair;
               row_pool := pool token_pair;
               row_block_number := block_number token_pair;
               completed := false |}].

(** [DBManager.add_token_pairs]: [session.add_all(insert_values)] followed
    by [commit]. *)
Definition add_token_pairs (token_pairs : list PoolCreated)
    (table : list Tokenpairstable) : list Tokenpairstable :=
  fold_left insert_row token_pairs table.

(** *** The miner's own store manager *)

Module MinerDBManager.

(** Modelled from the spec: the store behind [MinerDBManager], the class of
    [db/miner_db.py], which is not part of the sources.  Section 6 lists
    its tables; the two the sync touches are the trading pairs and the
    sync windows, of which the miner reads the end of the last completed
    one. *)
Record store : Type := {
  pairs : list Tokenpairstable;
  completed_until : option Z
}.


(** Modelled from the spec: what the absent insertion does with a pair
    whose natural key is already stored.  Section 4.2 allows two
    behaviours, "rejected or upserted by natural key, never duplicated". *)
Inductive on_duplicate : Type :=
| Reject
| Upsert.

Definition same_key (k1 k2 : string * string * Z) : bool :=
  String.eqb (fst (fst k1)) (fst (fst k2))
  && String.eqb (snd (fst k1)) (snd (fst k2))
  && Z.eqb (snd k1) (snd k2).

(** Modelled from the spec: an upsert keeps the surrogate id, the natural
    key and the synced flag of the stored row and takes the pool address
    and the first-seen block of the event. *)
Definition upsert_row (token_pair : PoolCreated) (row : Tokenpairstable)
  : Tokenpairstable :=
  if same_key (natural_key row) (event_key token_pair)
  then {| id := id row;
          row_token0 := row_token0 row;
          row_token1 := row_token1 row;
          row_fee := row_fee row;
          row_pool := pool token_pair;
          row_block_number := block_number token_pair;
          completed := completed row |}
  else row.

(** Modelled from the spec: the insertion of one reported pair, "as
    pending" when its natural key is new (section 4.2). *)
Definition store_pair (policy : on_duplicate) (table : list Tokenpairstable)
    (token_pair : PoolCreated) : list Tokenpairstable :=
  if existsb (fun row => same_key (natural_key row) (event_key token_pair))
             table
  then match policy with
       | Reject => table
       | Upsert => map (upsert_row token_pair) table
       end
  else insert_row table token_pair.

(** Modelled from the spec: [MinerDBManager.add_token_pairs(token_pairs,
    now)], absent from the sources.  It "inserts them as pending pairs" and
    "marks the window completed", the window ending at [now]. *)
Definition add_token_pairs (policy : on_duplicate)
    (token_pairs : list PoolCreated) (now : Z) (db : store) : store :=
  {| pairs := fold_left (store_pair policy) token_pairs (pairs db);
     completed_until := Some now |}.

End MinerDBManager.



(** Example: a pool-creation event, a service that reports it for every
    window, a service that reports nothing, and a miner that has not
    synced yet. *)
Definition demo_event : PoolCreated :=
  {| token0 := "0xA0b8"; token1 := "0xC02a"; fee := 3000;
     pool := "0x88e6"; block_number := "18500000" |}.




End MinerSync.


(** * Vocabulary of the further properties *)

(** A responding peer whose answer carries an empty record list. *)
Definition empty_answer (a : MinerAnswer PoolEventResponse) : Prop :=
  data (answer_data a) = Some [].

(** A health answer reporting the timestamp [t]. *)
Definition health_answer (t : Z) : MinerAnswer HealthCheckResponse :=
  {| answer_data := {| time_completed := t; pool_addresses := demo_pools |};
     process_time := 1 # 10 |}.

(** The responses of the peers that answered, in order. *)
Definition responses {R : Type} (l : list (option (MinerAnswer R))) : list R :=
  flat_map (fun o => match o with
                     | Some a => [answer_data a]
                     | None => []
                     end) l.

(** A pool-event request fits a health response: a whole number of days
    after [START_TIMESTAMP], starting no later than the reported
    [time_completed], one day long, on one of the reported pools. *)
Definition pool_window (START_TIMESTAMP : Z) (r : HealthCheckResponse)
    (s : PoolEventSynapse) : Prop :=
  (START_TIMESTAMP <= start_datetime s)%Z
  /\ (start_datetime s <= time_completed r)%Z
  /\ ((start_datetime s - START_TIMESTAMP) mod DAY_SECONDS = 0)%Z
  /\ end_datetime s = (start_datetime s + DAY_SECONDS)%Z
  /\ In (pool_address s) (pool_addresses r).

(** A signal request fits a health response: a whole number of five-minute
    steps after [START_TIMESTAMP], not later than [time_completed], on one
    of the reported pools. *)
Definition signal_instant (START_TIMESTAMP : Z) (r : HealthCheckResponse)
    (s : SignalEventSynapse) : Prop :=
  (START_TIMESTAMP <= timestamp s)%Z
  /\ (timestamp s <= time_completed r)%Z
  /\ ((timestamp s - START_TIMESTAMP) mod 300 = 0)%Z
  /\ In (signal_pool_address s) (pool_addresses r).

(** A health response from which no pool-event request can be drawn. *)
Definition no_pool_window (START_TIMESTAMP : Z) (r : HealthCheckResponse)
  : Prop :=
  (time_completed r < START_TIMESTAMP)%Z \/ pool_addresses r = [].

(** A health response from which no signal request can be drawn. *)
Definition no_signal_instant (START_TIMESTAMP : Z) (r : HealthCheckResponse)
  : Prop :=
  ((time_completed r - START_TIMESTAMP) mod 300 <> 0)%Z
  \/ (time_completed r < START_TIMESTAMP)%Z
  \/ pool_addresses r = [].

(** A health round in which nobody answers. *)
Definition silent_health_call (_ : HealthCheckSynapse) (_ : MinerInfo)
  : CallOutcome HealthCheckResponse := TimedOut.

(** The example step once more: its health scores, the peers it selects
    and the pool-event requests it draws. *)
Definition demo_health_data : list (option (MinerAnswer HealthCheckResponse)) :=
  answers demo_health_call demo_modules_info
    (requests demo_modules_info (Shared mkHealthCheckSynapse)).

Definition demo_step_health_score : dict Q :=
  match score_health_check (inject_Z demo_now)
          (zip (keys demo_modules_info) demo_health_data) with
  | Ok scores => scores
  | Raise _ => []
  end.

Definition demo_valid_miner_infos : dict MinerInfo :=
  [(1%Z, demo_peer "8001"); (2%Z, demo_peer "8002")].

Definition demo_pool_synapses : list PoolEventSynapse :=
  match fst (get_pool_event_synapses demo_rnd demo_START_TIMESTAMP
               demo_health_data world0) with
  | Ok synapses => synapses
  | Raise _ => []
  end.

(** * The peer directory *)

(** [get_subnet_netuid]; [subnets] is the map returned by
    [query_map_subnet_names]. *)
Fixpoint get_subnet_netuid (subnets : dict string) (subnet_name : string)
  : result Z :=
  match subnets with
  | [] => Raise ValueError
  | (netuid, name) :: subnets' =>
      if String.eqb name subnet_name then Ok netuid
      else get_subnet_netuid subnets' subnet_name
  end.

(** ** Addresses: [IP_REGEX], [extract_address], [get_ip_port] *)

From Stdlib Require Import Ascii.

(** A Python string is taken as its list of characters.  On characters
    below 256, [\d] is [0-9]. *)
Definition is_digit (c : ascii) : bool :=
  (48 <=? nat_of_ascii c)%nat && (nat_of_ascii c <=? 57)%nat.

(** The two kinds of elements [IP_REGEX] is made of: [\d{1,n}] or [\d+]
    (no upper bound), and an escaped literal character. *)
Inductive item : Type :=
| Digits (most : option nat)
| Lit (c : ascii).

(** [r"\d{1,3}\.\d{1,3}\.\d{1,3}\.\d{1,3}:\d+"]. *)
Definition IP_REGEX : list item :=
  [Digits (Some 3%nat); Lit "."; Digits (Some 3%nat); Lit ".";
   Digits (Some 3%nat); Lit "."; Digits (Some 3%nat); Lit ":"; Digits None].

(** The digits at the head of [s], at most [most] of them. *)
Fixpoint leading_digits (most : nat) (s : list ascii) : list ascii :=
  match most, s with
  | S most', c :: s' =>
      if is_digit c then c :: leading_digits most' s' else []
  | _, _ => []
  end.

Fixpoint first_match {A B : Type} (f : A -> option B) (l : list A)
  : option B :=
  match l with
  | [] => None
  | x :: l' =>
      match f x with
      | Some y => Some y
      | None => first_match f l'
      end
  end.

(** Matching [p] at the head of [s], as the backtracking matcher of [re]
    does: a repetition is greedy, it first takes as many digits as it may
    and gives them back one by one, down to one digit, until the rest of
    the pattern matches.  The result is the matched text. *)
Fixpoint match_here (p : list item) (s : list ascii) : option (list ascii) :=
  match p with
  | [] => Some []
  | Lit c :: p' =>
      match s with
      | c' :: s' =>
          if Ascii.eqb c' c then option_map (cons c') (match_here p' s')
          else None
      | [] => None
      end
  | Digits most :: p' =>
      let bound := match most with Some n => n | None => length s end in
      let available := length (leading_digits bound s) in
      first_match
        (fun k => option_map (app (firstn k s)) (match_here p' (skipn k s)))
        (rev (seq 1 available))
  end.

(** [re.search(p, s)]: the match at the leftmost position that has one. *)
Fixpoint search (p : list item) (s : list ascii) : option (list ascii) :=
  match match_here p s with
  | Some m => Some m
  | None =>
      match s with
      | [] => None
      | _ :: s' => search p s'
      end
  end.

(** [extract_address]: [None], or a match object given by its
    [group(0)]. *)
Definition extract_address (s : string) : option (list ascii) :=
  search IP_REGEX (list_ascii_of_string s).

(** [s.split(sep)] for a one-character separator. *)
Fixpoint split (sep : ascii) (s : list ascii) : list (list ascii) :=
  match s with
  | [] => [[]]
  | c :: s' =>
      if Ascii.eqb c sep then [] :: split sep s'
      else
        match split sep s' with
        | h :: t => (c :: h) :: t
        | [] => [[c]]
        end
  end.

Definition get_ip_port (modules_adresses : dict string) : dict (list string) :=
  let filtered_addr :=
    dict_of_items
      (map (fun kv => (fst kv, extract_address (snd kv))) modules_adresses) in
  dict_of_items
    (flat_map (fun kv => match snd kv with
                         | Some x =>
                             [(fst kv,
                               map string_of_list_ascii (split ":" x))]
                         | None => []
                         end) filtered_addr).

(** What [retrieve_miner_information] ends in: the [RuntimeError] of line
    263, or the directory. *)
Inductive directory : Type :=
| NotRegistered
| Directory (modules_info : dict (list string * string)).

(** [retrieve_miner_information]; the two ledger queries are its first two
    arguments, [val_ss58] is the validator's own address. *)
Definition retrieve_miner_information
    (modules_adresses : dict string) (modules_keys : dict string)
    (val_ss58 : string) : directory :=
  if negb (existsb (String.eqb val_ss58) (values modules_keys))
  then NotRegistered
  else
    let modules_filtered_address := get_ip_port modules_adresses in
    Directory
      (fold_left
         (fun modules_info kv =>
            match dict_get modules_filtered_address (fst kv) with
            | None | Some [] => modules_info
            | Some module_addr =>
                dict_set modules_info (fst kv) (module_addr, snd kv)
            end)
         modules_keys []).

(** The texts [IP_REGEX]-like patterns describe: [fits p m] says that [m]
    is a concatenation of pieces, one per element of [p], a repetition
    standing for at least one digit and no more than its bound. *)
Definition within (most : option nat) (n : nat) : Prop :=
  match most with
  | Some b => (n <= b)%nat
  | None => True
  end.

Fixpoint fits (p : list item) (m : list ascii) : Prop :=
  match p with
  | [] => m = []
  | Lit c :: p' => exists m', m = c :: m' /\ fits p' m'
  | Digits most :: p' =>
      exists d m',
        m = d ++ m' /\ d <> [] /\ forallb is_digit d = true
        /\ within most (length d) /\ fits p' m'
  end.

Definition digit_or_dot (c : ascii) : bool := is_digit c || Ascii.eqb c ".".

(** One to three digits, and four of them joined by dots. *)
Definition octet (d : list ascii) : Prop :=
  d <> [] /\ forallb is_digit d = true /\ (length d <= 3)%nat.

Definition dotted_quad (ip : list ascii) : Prop :=
  exists d1 d2 d3 d4,
    ip = d1 ++ "."%char :: d2 ++ "."%char :: d3 ++ "."%char :: d4
    /\ octet d1 /\ octet d2 /\ octet d3 /\ octet d4.

(** [s] does not go on with a digit. *)
Definition no_digit_ahead (s : list ascii) : Prop :=
  match s with
  | [] => True
  | c :: _ => is_digit c = false
  end.

(** The entry [get_ip_port] makes of one [(id, addr)] item. *)
Definition ip_port_entry (kv : Z * string) : list (Z * list string) :=
  match extract_address (snd kv) with
  | Some x => [(fst kv, map string_of_list_ascii (split ":" x))]
  | None => []
  end.

(** A ledger for the examples: peer 2 has published no address, and the
    validator (id 4) has none either. *)
Definition demo_modules_adresses : dict string :=
  [(1%Z, "http://10.0.0.1:8000/x"%string); (2%Z, "offline"%string);
   (3%Z, "1.1.1.1:9"%string)].

Definition demo_modules_keys : dict string :=
  [(3%Z, "key3"%string); (1%Z, "key1"%string); (2%Z, "key2"%string);
   (4%Z, "validator"%string)].

(** ** The token-pair table of [DBManager] *)

Module TokenPairs.
Import MinerSync.

(** The dictionaries [fetch_token_pairs] and
    [fetch_incompleted_token_pairs] build of a row. *)
Record token_pair_dict : Type := {
  d_token0 : string;
  d_token1 : string;
  d_fee : Z;
  d_completed : bool;
  d_pool_address : string
}.

Record incompleted_dict : Type := {
  i_token0 : string;
  i_token1 : string;
  i_fee : Z;
  i_completed : bool
}.

(** [filter_by(token0=token_pair[0], token1=token_pair[1],
    fee=token_pair[2])]. *)
Definition filter_by (token_pair : string * string * Z)
    (row : Tokenpairstable) : bool :=
  String.eqb (row_token0 row) (fst (fst token_pair))
  && String.eqb (row_token1 row) (snd (fst token_pair))
  && Z.eqb (row_fee row) (snd token_pair).

(** [update({Tokenpairstable.completed: b})] on one row. *)
Definition update_completed (b : bool) (row : Tokenpairstable)
  : Tokenpairstable :=
  {| id := id row;
     row_token0 := row_token0 row;
     row_token1 := row_token1 row;
     row_fee := row_fee row;
     row_pool := row_pool row;
     row_block_number := row_block_number row;
     completed := b |}.

(** [fetch_token_pairs] and [fetch_incompleted_token_pairs].  A query
    without [order_by] promises no order; rows are listed as stored. *)
Definition fetch_token_pairs (table : list Tokenpairstable)
  : list token_pair_dict :=
  map (fun row => {| d_token0 := row_token0 row;
                     d_token1 := row_token1 row;
                     d_fee := row_fee row;
                     d_completed := completed row;
                     d_pool_address := row_pool row |}) table.

Definition fetch_incompleted_token_pairs (table : list Tokenpairstable)
  : list incompleted_dict :=
  map (fun row => {| i_token0 := row_token0 row;
                     i_token1 := row_token1 row;
                     i_fee := row_fee row;
                     i_completed := completed row |})
      (filter (fun row => negb (completed row)) table).

(** The loop of [mark_token_pairs_as_complete] on the rows as the open
    session sees them: [None] when a pair has no row ([return False]). *)
Fixpoint mark_loop (token_pairs : list (string * string * Z))
    (session : list Tokenpairstable) : option (list Tokenpairstable) :=
  match token_pairs with
  | [] => Some session
  | token_pair :: token_pairs' =>
      match find (filter_by token_pair) session with
      | Some record =>
          mark_loop token_pairs'
            (map (fun row => if filter_by token_pair row
                             then update_completed true row else row)
                 session)
      | None => None
      end
  end.

(** [mark_token_pairs_as_complete]: the result and the table afterwards.
    The updates are committed after the loop only; on [return False] the
    session is closed without a commit, which rolls them back. *)
Definition mark_token_pairs_as_complete
    (token_pairs : list (string * string * Z))
    (table : list Tokenpairstable) : bool * list Tokenpairstable :=
  match mark_loop token_pairs table with
  | Some session => (true, session)
  | None => (false, table)
  end.

(** [reset_token_pairs]. *)
Definition reset_token_pairs (table : list Tokenpairstable)
  : list Tokenpairstable :=
  map (update_completed false) table.

(** Some row of the table carries one of the keys. *)
Definition listed (token_pairs : list (string * string * Z))
    (row : Tokenpairstable) : bool :=
  existsb (fun token_pair => filter_by token_pair row) token_pairs.

Definition demo_table : list Tokenpairstable :=
  add_token_pairs
    [demo_event;
     {| token0 := "0xdAC1"; token1 := "0xC02a"; fee := 500;
        pool := "0x11b8"; block_number := "18500007" |};
     demo_event] [].

End TokenPairs.

(** ** The timetable of [DBManager] *)

Module TimetableDB.

(** A row of the table [timetable]; a [Date] is taken as its day number.
    [start] is the primary key: no two rows share it. *)
Record Timetable : Type := {
  start : Z;
  end_ : Z;
  completed : bool
}.

Definition primary_key (table : list Timetable) : Prop :=
  NoDup (map start table).

(** What [add_timetable_entry] ends in: the commit, or the
    [IntegrityError] of a second row with the same primary key. *)
Inductive added : Type :=
| Committed (table : list Timetable)
| IntegrityError.

Definition add_timetable_entry (start0 end0 : Z) (table : list Timetable)
  : added :=
  if existsb (fun row => Z.eqb (start row) start0) table
  then IntegrityError
  else Committed (table ++ [{| start := start0; end_ := end0;
                               completed := false |}]).

(** The three fetches return the dictionary [{"start", "end",
    "completed"}] of a row, which is the row itself. *)
Definition fetch_incompleted_time_range (table : list Timetable)
  : list Timetable :=
  filter (fun row => negb (completed row)) table.

(** [order_by(desc(Timetable.start)).first()]: the row with the greatest
    [start], [None] when there is no row. *)
Definition first_by_start_desc (rows : list Timetable) : option Timetable :=
  fold_left (fun best row =>
               match best with
               | None => Some row
               | Some b => if (start b <? start row)%Z then Some row
                           else Some b
               end) rows None.

(** [fetch_completed_time] reads [row.start] without looking whether
    [first()] returned a row. *)
Definition fetch_completed_time (table : list Timetable) : result Timetable :=
  match first_by_start_desc (filter completed table) with
  | Some row => Ok row
  | None => Raise AttributeError
  end.

Definition fetch_last_time_range (table : list Timetable)
  : option Timetable :=
  first_by_start_desc table.

(** [mark_time_range_as_complete]: the result and the table afterwards.
    [record.completed = True] is written back to the row with the
    record's primary key. *)
Definition mark_time_range_as_complete (start0 end0 : Z)
    (table : list Timetable) : bool * list Timetable :=
  match find (fun row => Z.eqb (start row) start0 && Z.eqb (end_ row) end0)
             table with
  | Some record =>
      (true,
       map (fun row => if Z.eqb (start row) (start record)
                       then {| start := start row; end_ := end_ row;
                               completed := true |}
                       else row) table)
  | None => (false, table)
  end.

Definition demo_timetable : list Timetable :=
  [{| start := 100%Z; end_ := 101%Z; completed := true |};
   {| start := 102%Z; end_ := 103%Z; completed := false |};
   {| start := 101%Z; end_ := 102%Z; completed := true |}].

End TimetableDB.

(** ** The miner's price history ([forwardPredictionSynapse],
    [forwardPredictionAPISynapse]) *)

Module Prediction.

Definition DAY : Z := 60 * 60 * 24.

(** [[price_in_usd[i] * float(data[i]["price_ratio"])
      for i in range(len(data)) if keep(i)]]; a sample of [data] is given
    by the number [float] reads in its field [price_ratio]. *)
Definition scale (keep : nat -> bool) (price_in_usd data : list Q)
  : result (list Q) :=
  mapM (fun i => match nth_error price_in_usd i, nth_error data i with
                 | Some p, Some r => Ok (p * r)
                 | _, _ => Raise IndexError
                 end)
       (filter keep (seq 0 (length data))).

Section PriceHistory.

(** The pool lookup of the miner's database and the price service. *)
Variable pool : Type.
Variable search_pool_address : string -> string -> pool.
Variable get_pool_price_ratios : pool -> Z -> Z -> Z -> list Q.

(** The loop over the token pairs of the path, shared by the two
    endpoints up to the window and the filter of the comprehension. *)
Fixpoint price_loop (keep : nat -> bool) (start_timestamp end_timestamp : Z)
    (token_pairs : list (string * string)) (price_in_usd : list Q)
  : result (list Q) :=
  match token_pairs with
  | [] => Ok price_in_usd
  | token_pair :: token_pairs' =>
      let pool_address :=
        search_pool_address (fst token_pair) (snd token_pair) in
      let data :=
        get_pool_price_ratios pool_address start_timestamp end_timestamp 300 in
      price_in_usd' <- scale keep price_in_usd data ;;
      price_loop keep start_timestamp end_timestamp token_pairs' price_in_usd'
  end.

(** Lines 91-95 of [forwardPredictionSynapse]. *)
Definition prediction_price_in_usd (token_pairs : list (string * string))
    (timestamp : Z) : result (list Q) :=
  price_loop (fun _ => true) (timestamp - DAY) (timestamp - 30 * 60)
    token_pairs (repeat 1 (12 * 24 - 6)).

(** Lines 282-286 of [forwardPredictionAPISynapse]. *)
Definition prediction_api_price_in_usd (token_pairs : list (string * string))
    (timestamp : Z) : result (list Q) :=
  price_loop (fun i => (i <? 12 * 24)%nat) (timestamp - DAY) timestamp
    token_pairs (repeat 1 (12 * 24)).

(** The series fetched for the pairs of a path, in the order of the path. *)
Definition series (start_timestamp end_timestamp : Z)
    (token_pairs : list (string * string)) : list (list Q) :=
  map (fun token_pair =>
         get_pool_price_ratios
           (search_pool_address (fst token_pair) (snd token_pair))
           start_timestamp end_timestamp 300) token_pairs.

End PriceHistory.

(** No length of the list exceeds the one before it, [n] being the one
    before the first. *)
Fixpoint non_increasing (n : nat) (lengths : list nat) : bool :=
  match lengths with
  | [] => true
  | m :: lengths' => (m <=? n)%nat && non_increasing m lengths'
  end.

(** The price after the whole path: the product of the sample [i] of
    every series. *)
Definition path_price (i : nat) (all : list (list Q)) : Q :=
  fold_left Qmult (map (fun data => nth i data 0) all) 1.

(** A price service for the examples: the pool of a pair is the name of
    its first token, which fixes the number of samples. *)
Definition demo_ratios (pool : string) (_ _ _ : Z) : list Q :=
  if String.eqb pool "short" then repeat (2 # 1) 100
  else if String.eqb pool "long" then repeat (3 # 1) 200
  else repeat (5 # 1) 300.

Definition demo_pool_of (token0 _ : string) : string := token0.

End Prediction.

(** ** The event tables of [DBManager] *)

Module PoolEventsDB.

Section Tables.

(** The rows of [swap_event], [mint_event], [burn_event] and
    [collect_event], with their column [block_number]; the fetches read no
    other column. *)
Variables SwapEventTable MintEventTable BurnEventTable CollectEventTable
  : Type.
Variable swap_block_number : SwapEventTable -> Z.
Variable mint_block_number : MintEventTable -> Z.
Variable burn_block_number : BurnEventTable -> Z.
Variable collect_block_number : CollectEventTable -> Z.

Record database : Type := {
  swap_event : list SwapEventTable;
  mint_event : list MintEventTable;
  burn_event : list BurnEventTable;
  collect_event : list CollectEventTable
}.

(** An element of the list [fetch_pool_events] returns. *)
Inductive pool_event : Type :=
| Swap (row : SwapEventTable)
| Mint (row : MintEventTable)
| Burn (row : BurnEventTable)
| Collect (row : CollectEventTable).

Definition block_number_of (event : pool_event) : Z :=
  match event with
  | Swap row => swap_block_number row
  | Mint row => mint_block_number row
  | Burn row => burn_block_number row
  | Collect row => collect_block_number row
  end.

(** [block_number >= start_block, block_number <= end_block]. *)
Definition between (start_block end_block block_number : Z) : bool :=
  (start_block <=? block_number)%Z && (block_number <=? end_block)%Z.

Definition fetch_swap_events (start_block end_block : Z) (db : database)
  : list SwapEventTable :=
  filter (fun row => between start_block end_block (swap_block_number row))
         (swap_event db).

Definition fetch_mint_events (start_block end_block : Z) (db : database)
  : list MintEventTable :=
  filter (fun row => between start_block end_block (mint_block_number row))
         (mint_event db).

Definition fetch_burn_events (start_block end_block : Z) (db : database)
  : list BurnEventTable :=
  filter (fun row => between start_block end_block (burn_block_number row))
         (burn_event db).

Definition fetch_collect_events (start_block end_block : Z) (db : database)
  : list CollectEventTable :=
  filter (fun row => between start_block end_block
                       (collect_block_number row))
         (collect_event db).

Definition fetch_pool_events (start_block end_block : Z) (db : database)
  : list pool_event :=
  let swap_events := fetch_swap_events start_block end_block db in
  let mint_events := fetch_mint_events start_block end_block db in
  let burn_events := fetch_burn_events start_block end_block db in
  let collect_events := fetch_collect_events start_block end_block db in
  map Swap swap_events ++ map Mint mint_events ++ map Burn burn_events
  ++ map Collect collect_events.

(** Every stored event. *)
Definition stored (db : database) : list pool_event :=
  map Swap (swap_event db) ++ map Mint (mint_event db)
  ++ map Burn (burn_event db) ++ map Collect (collect_event db).

End Tables.

(** Tables for the examples: a row is given by its block number. *)
Definition demo_database : database Z Z Z Z :=
  {| swap_event := [10%Z; 25%Z; 30%Z];
     mint_event := [12%Z; 40%Z];
     burn_event := [25%Z];
     collect_event := [] |}.

End PoolEventsDB.
(** * Properties *)

Unset Implicit Arguments.

(** ** The accuracy transform *)

Lemma accuracy_transform_cube (a : Q) :
  accuracy_transform a ==
  ((a - (3 # 4)) * 4) * ((a - (3 # 4)) * 4) * ((a - (3 # 4)) * 4).
Proof.
  unfold accuracy_transform. simpl. ring.
Qed.

Lemma Qsquare_nonneg (a : Q) : 0 <= a * a.
Proof.
  destruct (Qlt_le_dec a 0) as [H | H].
  - setoid_replace (a * a) with ((- a) * (- a)) by ring.
    apply Qmult_le_0_compat; lra.
  - apply Qmult_le_0_compat; assumption.
Qed.

Lemma Qsquare_pos (a : Q) : ~ a == 0 -> 0 < a * a.
Proof.
  intros Ha. destruct (Qlt_le_dec a 0) as [H | H].
  - setoid_replace (a * a) with ((- a) * (- a)) by ring.
    apply Qmult_lt_0_compat; lra.
  - apply Qmult_lt_0_compat;
      destruct (Qle_lt_or_eq _ _ H); try assumption;
      exfalso; apply Ha; symmetry; assumption.
Qed.

Lemma cube_strictly_increasing (x y : Q) :
  x < y -> x * x * x < y * y * y.
Proof.
  intros Hxy.
  assert (Hpos : 0 < (2 * x + y) * (2 * x + y) + 3 * (y * y)).
  { pose proof (Qsquare_nonneg (2 * x + y)) as H1.
    pose proof (Qsquare_nonneg y) as H2.
    destruct (Qeq_dec y 0) as [Hy | Hy].
    - assert (Hx : ~ 2 * x + y == 0) by lra.
      pose proof (Qsquare_pos _ Hx). lra.
    - pose proof (Qsquare_pos _ Hy). lra. }
  assert (H : 0 < (y - x) * ((2 * x + y) * (2 * x + y) + 3 * (y * y))).
  { apply Qmult_lt_0_compat; [lra | exact Hpos]. }
  setoid_replace ((y - x) * ((2 * x + y) * (2 * x + y) + 3 * (y * y)))
    with (4 * (y * y * y - x * x * x)) in H by ring.
  lra.
Qed.

Lemma accuracy_transform_increasing (a b : Q) :
  a < b -> accuracy_transform a < accuracy_transform b.
Proof.
  intros Hab. rewrite !accuracy_transform_cube.
  apply cube_strictly_increasing. lra.
Qed.

(** C2. On accuracy fractions in [0,1] the transform [((a - 0.75) * 4) ** 3]
    is strictly increasing, is 0 at 0.75, is negative below 0.75 and is 1
    at 1.0. *)
Theorem accuracy_transform_shape (a b : Q) :
  0 <= a -> a < b -> b <= 1 ->
  accuracy_transform a < accuracy_transform b
  /\ accuracy_transform (3 # 4) == 0
  /\ (a < 3 # 4 -> accuracy_transform a < 0)
  /\ accuracy_transform 1 == 1.
Proof.
  intros _ Hab _. split; [| split; [| split]].
  - apply accuracy_transform_increasing; exact Hab.
  - reflexivity.
  - intros Ha.
    assert (H0 : accuracy_transform (3 # 4) == 0) by reflexivity.
    rewrite <- H0. apply accuracy_transform_increasing; exact Ha.
  - reflexivity.
Qed.

Lemma accuracy_transform_shape_witness :
  accuracy_transform (1 # 2) < accuracy_transform (9 # 10)
  /\ accuracy_transform (3 # 4) == 0
  /\ ((1 # 2) < 3 # 4 -> accuracy_transform (1 # 2) < 0)
  /\ accuracy_transform 1 == 1.
Proof.
  apply (accuracy_transform_shape (1 # 2) (9 # 10));
    unfold Qle, Qlt; simpl; lia.
Defined.

(** ** Concurrent poller *)

Lemma nth_error_zip (A B : Type) (xs : list A) (ys : list B) (i : nat) :
  nth_error (zip xs ys) i =
  match nth_error xs i, nth_error ys i with
  | Some x, Some y => Some (x, y)
  | _, _ => None
  end.
Proof.
  revert ys i. induction xs as [| x xs IH]; intros ys i.
  - destruct i; reflexivity.
  - destruct ys as [| y ys].
    + destruct i; simpl; [reflexivity |]. destruct (nth_error xs i); reflexivity.
    + destruct i; simpl; [reflexivity | apply IH].
Qed.

Lemma zip_length_same (A B : Type) (xs : list A) (ys : list B) :
  length xs = length ys -> length (zip xs ys) = length ys.
Proof.
  intros H. unfold zip. rewrite length_combine, H. apply Nat.min_id.
Qed.

Lemma keys_of_zip (A B : Type) (xs : list A) (ys : list B) :
  length xs = length ys -> map fst (zip xs ys) = xs.
Proof.
  revert ys. induction xs as [| x xs IH]; intros [| y ys] H; simpl in *;
    try reflexivity; try discriminate.
  f_equal. apply IH. congruence.
Qed.

Section PollerFacts.
Variables S R : Type.
Variable call : S -> MinerInfo -> CallOutcome R.

Abbreviation answers_of mi syn := (answers call mi (requests mi syn)).

Lemma get_miner_answer_run modules_info synapses w :
  get_miner_answer call modules_info synapses w =
  (Ok match answers_of modules_info synapses with
      | [] => None
      | _ :: _ => Some (answers_of modules_info synapses)
      end,
   mkWorld (draws w) (selected w ++ [keys modules_info])).
Proof.
  unfold get_miner_answer, bindM, log_selected. simpl.
  destruct (answers _ _ _); reflexivity.
Qed.

Lemma answers_of_length modules_info synapses :
  one_request_per_peer modules_info synapses ->
  length (answers_of modules_info synapses) = length modules_info.
Proof.
  unfold one_request_per_peer, answers, values. intros H.
  rewrite length_map, zip_length_same; rewrite length_map; auto.
Qed.

Lemma answers_of_nth modules_info synapses i uid info s :
  nth_error modules_info i = Some (uid, info) ->
  nth_error (requests modules_info synapses) i = Some s ->
  nth_error (answers_of modules_info synapses) i =
  Some (_get_miner_prediction call s info).
Proof.
  intros Hinfo Hs. unfold answers, values.
  rewrite nth_error_map, nth_error_zip, Hs, nth_error_map, Hinfo.
  reflexivity.
Qed.

Lemma get_miner_answer_nonempty modules_info synapses w :
  modules_info <> [] ->
  one_request_per_peer modules_info synapses ->
  fst (get_miner_answer call modules_info synapses w) =
  Ok (Some (answers_of modules_info synapses)).
Proof.
  intros Hne Hreq. rewrite get_miner_answer_run. simpl.
  pose proof (answers_of_length _ _ Hreq) as Hlen.
  destruct (answers_of modules_info synapses); [| reflexivity].
  destruct modules_info; [congruence | discriminate].
Qed.

Lemma requests_nth (modules_info : dict MinerInfo) (synapses : Synapses S)
    i entry :
  one_request_per_peer modules_info synapses ->
  nth_error modules_info i = Some entry ->
  exists s, nth_error (requests modules_info synapses) i = Some s.
Proof.
  intros Hreq Hentry.
  destruct (nth_error (requests modules_info synapses) i) eqn:E; eauto.
  apply nth_error_None in E. red in Hreq. rewrite Hreq in E.
  assert (Hlt : (i < length modules_info)%nat).
  { apply nth_error_Some. rewrite Hentry. discriminate. }
  lia.
Qed.

End PollerFacts.

Lemma answers_nil_directory (S R : Type) (call : S -> MinerInfo -> CallOutcome R)
    (synapses : list S) :
  answers call [] synapses = [].
Proof.
  unfold answers, zip, values. simpl. rewrite combine_nil. reflexivity.
Qed.

(** C10. [get_miner_answer] returns [None] on an empty directory; on a
    non-empty directory polled with one request per peer it returns a list
    with one entry per peer, the i-th entry being the answer of the i-th
    directory entry. *)
Theorem get_miner_answer_none_or_ordered_list
    (S R : Type) (call : S -> MinerInfo -> CallOutcome R)
    (modules_info : dict MinerInfo) (synapses : Synapses S) (w : world) :
  (modules_info = [] ->
   fst (get_miner_answer call modules_info synapses w) = Ok None)
  /\ (modules_info <> [] ->
      one_request_per_peer modules_info synapses ->
      exists l,
        fst (get_miner_answer call modules_info synapses w) = Ok (Some l)
        /\ length l = length modules_info
        /\ forall i uid info,
             nth_error modules_info i = Some (uid, info) ->
             exists s,
               nth_error (requests modules_info synapses) i = Some s
               /\ nth_error l i = Some (_get_miner_prediction call s info)).
Proof.
  split.
  - intros ->. rewrite get_miner_answer_run, answers_nil_directory.
    reflexivity.
  - intros Hne Hreq. eexists. split; [| split].
    + apply get_miner_answer_nonempty; assumption.
    + apply answers_of_length; assumption.
    + intros i uid info Hinfo.
      destruct (requests_nth _ _ _ _ _ Hreq Hinfo) as [s Hs].
      exists s. split; [exact Hs |].
      apply answers_of_nth with (uid := uid); assumption.
Qed.

Lemma get_miner_answer_none_or_ordered_list_witness :
  fst (get_miner_answer demo_health_call [] (Shared mkHealthCheckSynapse)
         world0) = Ok None
  /\ exists l,
       fst (get_miner_answer demo_health_call demo_modules_info
              (Shared mkHealthCheckSynapse) world0) = Ok (Some l)
       /\ length l = 3%nat.
Proof.
  split.
  - apply (get_miner_answer_none_or_ordered_list _ _ demo_health_call []
             (Shared mkHealthCheckSynapse) world0). reflexivity.
  - destruct (get_miner_answer_none_or_ordered_list _ _ demo_health_call
                demo_modules_info (Shared mkHealthCheckSynapse) world0)
      as [_ H].
    destruct H as [l [Hrun [Hlen _]]]; [discriminate | reflexivity |].
    exists l. split; [exact Hrun | exact Hlen].
Defined.

(** C4. A polling round over a non-empty directory yields one result per
    peer id, under the directory's own keys; a peer whose call fails gets
    [None]; and the result of a peer depends on that peer's call only. *)
Theorem polling_round_total_and_isolated
    (S R : Type) (call call' : S -> MinerInfo -> CallOutcome R)
    (modules_info : dict MinerInfo) (synapses : Synapses S) (w : world) :
  modules_info <> [] ->
  one_request_per_peer modules_info synapses ->
  exists l l',
    fst (get_miner_answer call modules_info synapses w) = Ok (Some l)
    /\ fst (get_miner_answer call' modules_info synapses w) = Ok (Some l')
    /\ length l = length modules_info
    /\ map fst (zip (keys modules_info) l) = keys modules_info
    /\ forall i uid info s,
         nth_error modules_info i = Some (uid, info) ->
         nth_error (requests modules_info synapses) i = Some s ->
         (failed (call s info) = true -> nth_error l i = Some None)
         /\ (failed (call s info) = false ->
             exists a, nth_error l i = Some (Some a))
         /\ (call' s info = call s info -> nth_error l' i = nth_error l i).
Proof.
  intros Hne Hreq.
  exists (answers call modules_info (requests modules_info synapses)).
  exists (answers call' modules_info (requests modules_info synapses)).
  split; [apply get_miner_answer_nonempty; assumption |].
  split; [apply get_miner_answer_nonempty; assumption |].
  split; [apply answers_of_length; assumption |].
  split.
  - apply keys_of_zip. unfold keys. rewrite length_map.
    symmetry. apply answers_of_length. assumption.
  - intros i uid info s Hinfo Hs.
    rewrite (answers_of_nth _ _ call _ _ _ _ _ _ Hinfo Hs).
    rewrite (answers_of_nth _ _ call' _ _ _ _ _ _ Hinfo Hs).
    unfold _get_miner_prediction. repeat split.
    + intros Hf. destruct (call s info); simpl in Hf;
        try reflexivity; discriminate.
    + intros Hf. destruct (call s info); simpl in Hf;
        try discriminate; eauto.
    + intros ->. reflexivity.
Qed.

Lemma polling_round_total_and_isolated_witness :
  exists l,
    fst (get_miner_answer demo_health_call demo_modules_info
           (Shared mkHealthCheckSynapse) world0) = Ok (Some l)
    /\ map fst (zip (keys demo_modules_info) l) = [0; 1; 2]%Z
    /\ nth_error l 0 = Some None.
Proof.
  destruct (polling_round_total_and_isolated _ _
              demo_health_call demo_health_call demo_modules_info
              (Shared mkHealthCheckSynapse) world0)
    as [l [l' [Hl [_ [_ [Hkeys Hnth]]]]]];
    [discriminate | reflexivity |].
  exists l. split; [exact Hl |]. split; [exact Hkeys |].
  destruct (Hnth 0%nat 0%Z (demo_peer "8000") mkHealthCheckSynapse
              eq_refl eq_refl) as [Hfail _].
  apply Hfail. reflexivity.
Defined.

(** ** Python dictionaries as association lists *)

Lemma dict_get_not_in (V : Type) (d : dict V) (k : Z) :
  ~ In k (keys d) -> dict_get d k = None.
Proof.
  induction d as [| [k' v] d IH]; simpl; intros Hk; [reflexivity |].
  destruct (Z.eqb_spec k k') as [-> | Hne]; [tauto |].
  apply IH. tauto.
Qed.

Lemma dict_get_in (V : Type) (d : dict V) (k : Z) (v : V) :
  dict_get d k = Some v -> In (k, v) d.
Proof.
  induction d as [| [k' v'] d IH]; simpl; [discriminate |].
  destruct (Z.eqb_spec k k') as [-> | Hne].
  - intros [= ->]. left. reflexivity.
  - intros H. right. apply IH. exact H.
Qed.

Lemma dict_get_nodup (V : Type) (d : dict V) (k : Z) (v : V) :
  NoDup (keys d) -> In (k, v) d -> dict_get d k = Some v.
Proof.
  induction d as [| [k' v'] d IH]; simpl; intros Hnd Hin; [contradiction |].
  inversion Hnd as [| ? ? Hk' Hnd']; subst.
  destruct Hin as [[= -> ->] | Hin].
  - rewrite Z.eqb_refl. reflexivity.
  - destruct (Z.eqb_spec k k') as [-> | Hne].
    + exfalso. apply Hk'. unfold keys. apply in_map_iff.
      exists (k', v). split; [reflexivity | exact Hin].
    + apply IH; assumption.
Qed.

Lemma dict_set_fresh (V : Type) (d : dict V) (k : Z) (v : V) :
  ~ In k (keys d) -> dict_set d k v = d ++ [(k, v)].
Proof.
  induction d as [| [k' v'] d IH]; simpl; intros Hk; [reflexivity |].
  destruct (Z.eqb_spec k k') as [-> | Hne]; [tauto |].
  rewrite IH by tauto. reflexivity.
Qed.

Lemma keys_app (V : Type) (d1 d2 : dict V) :
  keys (d1 ++ d2) = keys d1 ++ keys d2.
Proof. unfold keys. apply map_app. Qed.

Lemma nodup_keys_snoc (V : Type) (acc items : dict V) (k : Z) (v : V) :
  NoDup (keys (acc ++ (k, v) :: items)) ->
  ~ In k (keys acc) /\ NoDup (keys ((acc ++ [(k, v)]) ++ items)).
Proof.
  intros H. split.
  - rewrite keys_app in H. simpl in H.
    apply NoDup_remove_2 in H. intros Hin. apply H.
    apply in_or_app. left. exact Hin.
  - rewrite <- app_assoc. exact H.
Qed.

Lemma dict_of_items_from (V : Type) (items acc : dict V) :
  NoDup (keys (acc ++ items)) ->
  fold_left (fun d kv => dict_set d (fst kv) (snd kv)) items acc =
  acc ++ items.
Proof.
  revert acc. induction items as [| [k v] items IH]; intros acc Hnd; simpl.
  - rewrite app_nil_r. reflexivity.
  - destruct (nodup_keys_snoc _ _ _ _ _ Hnd) as [Hk Hnd'].
    rewrite dict_set_fresh by exact Hk.
    rewrite IH by exact Hnd'. rewrite <- app_assoc. reflexivity.
Qed.

Lemma dict_of_items_nodup (V : Type) (items : dict V) :
  NoDup (keys items) -> dict_of_items items = items.
Proof.
  intros H. unfold dict_of_items. apply (dict_of_items_from V items []).
  exact H.
Qed.

Lemma zip_keys_values (V : Type) (d : dict V) :
  zip (keys d) (values d) = d.
Proof.
  induction d as [| [k v] d IH]; simpl; [reflexivity |].
  unfold zip, keys, values in *. simpl. rewrite IH. reflexivity.
Qed.

(** ** Sums of floats *)

Lemma fold_left_Qplus_acc (xs : list Q) (a : Q) :
  fold_left Qplus xs a == a + fold_left Qplus xs 0.
Proof.
  revert a. induction xs as [| x xs IH]; intros a; simpl.
  - ring.
  - rewrite IH. rewrite (IH (0 + x)). ring.
Qed.

Lemma sum_cons (x : Q) (xs : list Q) : sum (x :: xs) == x + sum xs.
Proof.
  unfold sum. simpl. rewrite fold_left_Qplus_acc. ring.
Qed.

Lemma sum_nonneg (xs : list Q) :
  Forall (fun x => 0 <= x) xs -> 0 <= sum xs.
Proof.
  induction 1 as [| x xs Hx _ IH].
  - change (sum []) with 0. lra.
  - rewrite sum_cons. lra.
Qed.

(** ** Weight submitter *)

Lemma insert_by_score_perm (x : Z * Q) (l : list (Z * Q)) :
  Permutation (x :: l) (insert_by_score x l).
Proof.
  induction l as [| y l IH]; simpl; [apply Permutation_refl |].
  destruct (Qle_bool (snd y) (snd x)); [apply Permutation_refl |].
  eapply perm_trans; [apply perm_swap |].
  apply perm_skip. exact IH.
Qed.

Lemma sorted_by_score_perm (l : list (Z * Q)) :
  Permutation l (sorted_by_score l).
Proof.
  induction l as [| x l IH]; simpl; [apply perm_nil |].
  eapply perm_trans; [apply perm_skip; exact IH |].
  apply insert_by_score_perm.
Qed.

Lemma insert_by_score_sorted (x : Z * Q) (l : list (Z * Q)) :
  StronglySorted score_ge l -> StronglySorted score_ge (insert_by_score x l).
Proof.
  induction 1 as [| y l Hl IH Hy]; simpl.
  - constructor; constructor.
  - destruct (Qle_bool (snd y) (snd x)) eqn:E.
    + apply Qle_bool_iff in E.
      constructor; [constructor; assumption |].
      constructor; [exact E |].
      eapply Forall_impl; [| exact Hy].
      unfold score_ge. intros z Hz. lra.
    + assert (Hlt : snd x < snd y).
      { apply Qnot_le_lt. intros Hle. apply Qle_bool_iff in Hle. congruence. }
      constructor; [exact IH |].
      apply Forall_forall. intros z Hz.
      apply (Permutation_in _ (Permutation_sym (insert_by_score_perm x l)))
        in Hz.
      destruct Hz as [<- | Hz].
      * unfold score_ge. lra.
      * rewrite Forall_forall in Hy. apply Hy. exact Hz.
Qed.

Lemma sorted_by_score_sorted (l : list (Z * Q)) :
  StronglySorted score_ge (sorted_by_score l).
Proof.
  induction l as [| x l IH]; simpl; [constructor |].
  apply insert_by_score_sorted. exact IH.
Qed.

Lemma strongly_sorted_app (A : Type) (R : A -> A -> Prop) (l1 l2 : list A) :
  StronglySorted R (l1 ++ l2) ->
  forall x y, In x l1 -> In y l2 -> R x y.
Proof.
  induction l1 as [| a l1 IH]; simpl; intros Hs x y Hx Hy; [contradiction |].
  inversion Hs as [| ? ? Hs' Ha]; subst.
  destruct Hx as [<- | Hx].
  - rewrite Forall_forall in Ha. apply Ha. apply in_or_app. right. exact Hy.
  - apply IH; assumption.
Qed.

Lemma keys_perm (V : Type) (d1 d2 : dict V) :
  Permutation d1 d2 -> Permutation (keys d1) (keys d2).
Proof. unfold keys. apply Permutation_map. Qed.

Lemma nodup_keys_firstn (V : Type) (n : nat) (d : dict V) :
  NoDup (keys d) -> NoDup (keys (firstn n d)).
Proof.
  intros H. rewrite <- (firstn_skipn n d) in H. rewrite keys_app in H.
  apply NoDup_app_remove_r in H. exact H.
Qed.

(** With a non-negative bound the cut is a prefix of the sorted scores. *)
Lemma cut_is_prefix (d : dict Q) (m : Z) :
  NoDup (keys d) -> (0 <= m)%Z ->
  cut_to_max_allowed_weights d m = firstn (Z.to_nat m) (sorted_by_score d).
Proof.
  intros Hnd Hm. unfold cut_to_max_allowed_weights, slice_to.
  destruct (Z.leb_spec 0 m) as [_ | Hneg]; [| lia].
  apply dict_of_items_nodup. apply nodup_keys_firstn.
  eapply Permutation_NoDup; [| exact Hnd].
  apply keys_perm. apply sorted_by_score_perm.
Qed.

Lemma int_of_float_floor (q : Q) : 0 <= q -> int_of_float q = Qfloor q.
Proof.
  destruct q as [n d]. unfold Qle, int_of_float, Qfloor. simpl.
  intros H. apply Z.quot_div_nonneg; lia.
Qed.

Lemma int_of_float_nonneg (q : Q) : 0 <= q -> (0 <= int_of_float q)%Z.
Proof.
  destruct q as [n d]. unfold Qle, int_of_float. simpl.
  intros H. apply Z.quot_pos; lia.
Qed.

Lemma int_of_float_le (q : Q) : 0 <= q -> inject_Z (int_of_float q) <= q.
Proof.
  intros H. rewrite int_of_float_floor by exact H. apply Qfloor_le.
Qed.

Lemma truediv_ok (x y : Q) : ~ y == 0 -> truediv x y = Ok (x / y).
Proof.
  intros Hy. unfold truediv.
  destruct (Qeq_bool y 0) eqn:E; [| reflexivity].
  apply Qeq_bool_iff in E. contradiction.
Qed.

Lemma weigh_from (items : list (Z * Q)) (scores : Q) (acc : dict Z) :
  ~ scores == 0 ->
  NoDup (keys acc ++ keys items) ->
  weigh items scores acc = Ok (acc ++ map (rescale scores) items).
Proof.
  intros Hs. revert acc.
  induction items as [| [uid score] items IH]; intros acc Hnd; simpl.
  - rewrite app_nil_r. reflexivity.
  - rewrite truediv_ok by exact Hs. simpl.
    assert (Hfresh : ~ In uid (keys acc)).
    { simpl in Hnd. apply NoDup_remove_2 in Hnd. intros Hin. apply Hnd.
      apply in_or_app. left. exact Hin. }
    rewrite dict_set_fresh by exact Hfresh.
    rewrite IH.
    + rewrite <- app_assoc. reflexivity.
    + rewrite keys_app. simpl. rewrite <- app_assoc. exact Hnd.
Qed.

Lemma rescale_sum_bound (scores : Q) (items : list (Z * Q)) :
  0 < scores ->
  Forall (fun e => 0 <= snd e) items ->
  inject_Z (Zsum (values (map (rescale scores) items))) * scores
  <= 1000 * sum (values items).
Proof.
  intros HT. induction 1 as [| [uid score] items Hs _ IH]; simpl in *.
  - change (inject_Z 0) with 0. change (sum []) with 0. lra.
  - rewrite inject_Z_plus, sum_cons.
    assert (Hq : 0 <= score * 1000 / scores).
    { apply Qle_shift_div_l; [exact HT |]. lra. }
    pose proof (int_of_float_le _ Hq) as Hle.
    assert (Hw : inject_Z (int_of_float (score * 1000 / scores)) * scores
                 <= score * 1000).
    { setoid_replace (score * 1000)
        with (score * 1000 / scores * scores) at 2 by (field; lra).
      apply Qmult_le_compat_r; [exact Hle | lra]. }
    clear Hle Hq. rewrite Qmult_plus_distr_l.
    generalize dependent (inject_Z (int_of_float (score * 1000 / scores))).
    generalize dependent
      (inject_Z (Zsum (values (map (rescale scores) items)))).
    intros b IH a Hw.
    generalize dependent (a * scores). generalize dependent (b * scores).
    intros bs IH as' Hw. lra.
Qed.

Lemma rescale_nonneg (scores : Q) (items : list (Z * Q)) :
  0 < scores ->
  Forall (fun e => 0 <= snd e) items ->
  Forall (fun kv => (0 <= snd kv)%Z) (map (rescale scores) items).
Proof.
  intros HT. induction 1 as [| [uid score] items Hs _ IH]; simpl;
    constructor; [| exact IH].
  simpl. apply int_of_float_nonneg.
  apply Qle_shift_div_l; [exact HT |]. simpl in Hs. lra.
Qed.

Lemma nonzero_filter_sum (l : dict Z) :
  Zsum (values (filter nonzero_weight l)) = Zsum (values l).
Proof.
  induction l as [| [k v] l IH]; simpl; [reflexivity |].
  unfold nonzero_weight at 1. simpl.
  destruct (Z.eqb_spec v 0) as [-> | Hv]; simpl; unfold values in *; lia.
Qed.

Lemma nonzero_filter_positive (l : dict Z) :
  Forall (fun kv => (0 <= snd kv)%Z) l ->
  Forall (fun wt => (0 < wt)%Z) (values (filter nonzero_weight l)).
Proof.
  induction 1 as [| [k v] l Hv _ IH]; simpl; [constructor |].
  unfold nonzero_weight at 1. simpl in *.
  destruct (Z.eqb_spec v 0) as [-> | Hnz]; simpl; [exact IH |].
  constructor; [lia | exact IH].
Qed.

Lemma in_firstn_in (A : Type) (n : nat) (l : list A) (x : A) :
  In x (firstn n l) -> In x l.
Proof.
  intros H. rewrite <- (firstn_skipn n l). apply in_or_app. left. exact H.
Qed.

(** The best score heads the sorted list, so a positive score somewhere
    makes the sum of any non-empty prefix positive. *)
Lemma kept_sum_positive (d : dict Q) (n : nat) :
  (forall uid score, In (uid, score) d -> 0 <= score) ->
  (exists uid score, In (uid, score) d /\ 0 < score) ->
  firstn n (sorted_by_score d) <> [] ->
  0 < sum (values (firstn n (sorted_by_score d))).
Proof.
  intros Hnonneg [u [s [Hin Hpos]]] Hne.
  pose proof (sorted_by_score_sorted d) as Hsorted.
  pose proof (sorted_by_score_perm d) as Hperm.
  apply (Permutation_in _ Hperm) in Hin.
  assert (Hall : Forall (fun e => 0 <= snd e) (sorted_by_score d)).
  { apply Forall_forall. intros [k v] Hkv. simpl.
    apply (Hnonneg k). apply (Permutation_in _ (Permutation_sym Hperm)).
    exact Hkv. }
  destruct n as [| n]; [contradiction Hne; reflexivity |].
  destruct (sorted_by_score d) as [| [k0 s0] tl]; [contradiction |].
  simpl. unfold values. simpl. fold (values (firstn n tl)).
  rewrite sum_cons.
  inversion Hsorted as [| ? ? _ Hhead]; subst.
  inversion Hall as [| ? ? _ Htl]; subst.
  assert (Hs0 : 0 < s0).
  { destruct Hin as [[= -> ->] | Hin]; [exact Hpos |].
    rewrite Forall_forall in Hhead. specialize (Hhead _ Hin).
    unfold score_ge in Hhead. simpl in Hhead. lra. }
  assert (0 <= sum (values (firstn n tl))).
  { apply sum_nonneg. unfold values. apply Forall_map.
    apply Forall_forall. intros e He. rewrite Forall_forall in Htl.
    apply Htl. apply (in_firstn_in _ n). exact He. }
  lra.
Qed.

Lemma scaled_total_bound (q T : Q) :
  0 < T -> q * T <= 1000 * T -> 1001 <= q -> False.
Proof.
  intros HT Hb Hq.
  assert (1001 * T <= q * T) by (apply Qmult_le_compat_r; lra).
  generalize dependent (q * T). intros qT. lra.
Qed.

(** C5. For non-negative scores that are not all zero, [set_weights] keeps
    [max_allowed_weights] peers, or all of them if there are fewer, none of
    the kept ones scored below a peer it leaves out; it votes for the kept peers whose rescaled integer
    weight is not zero; every weight is a positive integer and the weights
    sum to at most 1000.  On [{A: 10, B: 5, C: 0}] with a maximum of 2 it
    votes 666 for A and 333 for B. *)
Theorem set_weights_keeps_top_scores
    (score_dict : dict Q) (max_allowed_weights : Z) :
  NoDup (keys score_dict) ->
  (forall uid score, In (uid, score) score_dict -> 0 <= score) ->
  (exists uid score, In (uid, score) score_dict /\ 0 < score) ->
  (0 <= max_allowed_weights)%Z ->
  let kept := cut_to_max_allowed_weights score_dict max_allowed_weights in
  exists uids weights,
    set_weights max_allowed_weights score_dict = Ok (uids, weights)
    /\ length kept = Nat.min (Z.to_nat max_allowed_weights) (length score_dict)
    /\ incl kept score_dict
    /\ (forall uid score uid' score',
          In (uid, score) kept ->
          In (uid', score') score_dict -> ~ In (uid', score') kept ->
          score' <= score)
    /\ zip uids weights =
       filter nonzero_weight (map (rescale (sum (values kept))) kept)
    /\ Forall (fun wt => (0 < wt)%Z) weights
    /\ (Zsum weights <= 1000)%Z
    /\ set_weights 2 demo_scores = Ok ([0; 1]%Z, [666; 333]%Z).
Proof.
  intros Hnd Hnonneg Hpos Hm kept.
  assert (Hkept : kept = firstn (Z.to_nat max_allowed_weights)
                           (sorted_by_score score_dict))
    by (apply cut_is_prefix; assumption).
  pose proof (sorted_by_score_perm score_dict) as Hperm.
  pose proof (sorted_by_score_sorted score_dict) as Hsorted.
  assert (Hincl : incl kept score_dict).
  { intros e He. rewrite Hkept in He. apply in_firstn_in in He.
    apply (Permutation_in _ (Permutation_sym Hperm)). exact He. }
  assert (Hkeys : NoDup (keys kept)).
  { rewrite Hkept. apply nodup_keys_firstn.
    eapply Permutation_NoDup; [apply keys_perm; exact Hperm | exact Hnd]. }
  assert (Hkept_nonneg : Forall (fun e => 0 <= snd e) kept).
  { apply Forall_forall. intros [k v] He. simpl.
    apply (Hnonneg k). apply Hincl. exact He. }
  set (W := filter nonzero_weight (map (rescale (sum (values kept))) kept)).
  assert (Hrun : kept <> [] -> 0 < sum (values kept) ->
                 set_weights max_allowed_weights score_dict =
                 Ok (keys W, values W)).
  { intros _ HT. unfold set_weights. fold kept.
    rewrite (weigh_from kept (sum (values kept)) []); [reflexivity | lra |].
    exact Hkeys. }
  exists (keys W), (values W).
  assert (Hlen : length kept
                 = Nat.min (Z.to_nat max_allowed_weights) (length score_dict)).
  { rewrite Hkept, length_firstn, (Permutation_length Hperm). reflexivity. }
  assert (Htop : forall uid score uid' score',
            In (uid, score) kept ->
            In (uid', score') score_dict -> ~ In (uid', score') kept ->
            score' <= score).
  { intros uid score uid' score' Hin Hin' Hout.
    apply (Permutation_in _ Hperm) in Hin'.
    rewrite <- (firstn_skipn (Z.to_nat max_allowed_weights)) in Hin', Hsorted.
    rewrite <- Hkept in Hin', Hsorted.
    apply in_app_or in Hin'. destruct Hin' as [Hin' | Hin']; [tauto |].
    apply (strongly_sorted_app _ _ _ _ Hsorted _ _ Hin Hin'). }
  destruct kept as [| e kept'] eqn:Ekept.
  - (* nothing kept: the loop body never runs *)
    split; [| split; [| split; [| split; [| split; [| split; [| split]]]]]];
      try assumption; try reflexivity.
    + unfold set_weights. fold kept. rewrite Ekept. reflexivity.
    + constructor.
    + simpl. lia.
  - assert (HT : 0 < sum (values (e :: kept'))).
    { rewrite Hkept. apply kept_sum_positive; try assumption.
      rewrite <- Hkept. discriminate. }
    split; [| split; [| split; [| split; [| split; [| split; [| split]]]]]];
      try assumption; try reflexivity.
    + apply Hrun; [discriminate | exact HT].
    + apply zip_keys_values.
    + apply nonzero_filter_positive. apply rescale_nonneg; assumption.
    + unfold W. rewrite nonzero_filter_sum.
      pose proof (rescale_sum_bound _ _ HT Hkept_nonneg) as Hb.
      apply Z.le_ngt. intros Hgt.
      assert (Hq : 1001 <= inject_Z
                (Zsum (values (map (rescale (sum (values (e :: kept'))))
                                   (e :: kept'))))).
      { change (1001 : Q) with (inject_Z 1001).
        rewrite <- Zle_Qle. lia. }
      exact (scaled_total_bound _ _ HT Hb Hq).
Qed.

Lemma demo_scores_nodup : NoDup (keys demo_scores).
Proof.
  repeat constructor; simpl; intros H;
    repeat (destruct H as [H | H]; try discriminate H); exact H.
Qed.

Lemma demo_scores_nonneg :
  forall uid score, In (uid, score) demo_scores -> 0 <= score.
Proof.
  intros uid score H. simpl in H.
  repeat (destruct H as [H | H]; [inversion H; subst; discriminate |]).
  contradiction.
Qed.

Lemma set_weights_keeps_top_scores_witness :
  exists uids weights,
    set_weights 2 demo_scores = Ok (uids, weights)
    /\ Forall (fun wt => (0 < wt)%Z) weights
    /\ (Zsum weights <= 1000)%Z.
Proof.
  destruct (set_weights_keeps_top_scores demo_scores 2
              demo_scores_nodup demo_scores_nonneg)
    as [uids [weights [Hrun [_ [_ [_ [_ [Hpos [Hsum _]]]]]]]]].
  - exists 0%Z, 10. split; [left; reflexivity | reflexivity].
  - discriminate.
  - exists uids, weights. auto.
Defined.

(** ** Response latency *)

Lemma Qmax_cases (x y : Q) :
  (Qmax x y = x /\ y <= x) \/ (Qmax x y = y /\ x < y).
Proof.
  unfold Qmax. destruct (Qle_bool y x) eqn:E.
  - left. split; [reflexivity | apply Qle_bool_iff; exact E].
  - right. split; [reflexivity |].
    apply Qnot_le_lt. intros H. apply Qle_bool_iff in H. congruence.
Qed.

Lemma Qmin_cases (x y : Q) :
  (Qmin x y = x /\ x <= y) \/ (Qmin x y = y /\ y < x).
Proof.
  unfold Qmin. destruct (Qle_bool x y) eqn:E.
  - left. split; [reflexivity | apply Qle_bool_iff; exact E].
  - right. split; [reflexivity |].
    apply Qnot_le_lt. intros H. apply Qle_bool_iff in H. congruence.
Qed.

Lemma fold_Qmax_spec (xs : list Q) (x : Q) :
  In (fold_left Qmax xs x) (x :: xs)
  /\ Forall (fun y => y <= fold_left Qmax xs x) (x :: xs).
Proof.
  revert x. induction xs as [| a xs IH]; intros x; simpl.
  - split; [left; reflexivity | constructor; [lra | constructor]].
  - destruct (IH (Qmax x a)) as [Hin Hall].
    inversion Hall as [| ? ? Hhead Htail]; subst.
    split.
    + destruct Hin as [Hin | Hin]; [| right; right; exact Hin].
      destruct (Qmax_cases x a) as [[E _] | [E _]]; rewrite E in *;
        [left | right; left]; exact Hin.
    + destruct (Qmax_cases x a) as [[E Hle] | [E Hlt]]; rewrite E in *;
        constructor; try constructor; try assumption; lra.
Qed.

Lemma fold_Qmin_spec (xs : list Q) (x : Q) :
  In (fold_left Qmin xs x) (x :: xs)
  /\ Forall (fun y => fold_left Qmin xs x <= y) (x :: xs).
Proof.
  revert x. induction xs as [| a xs IH]; intros x; simpl.
  - split; [left; reflexivity | constructor; [lra | constructor]].
  - destruct (IH (Qmin x a)) as [Hin Hall].
    inversion Hall as [| ? ? Hhead Htail]; subst.
    split.
    + destruct Hin as [Hin | Hin]; [| right; right; exact Hin].
      destruct (Qmin_cases x a) as [[E _] | [E _]]; rewrite E in *;
        [left | right; left]; exact Hin.
    + destruct (Qmin_cases x a) as [[E Hle] | [E Hlt]]; rewrite E in *;
        constructor; try constructor; try assumption; lra.
Qed.

Lemma max_list_spec (xs : list Q) :
  xs <> [] ->
  exists m, max_list xs = Ok m /\ In m xs /\ Forall (fun y => y <= m) xs.
Proof.
  destruct xs as [| x xs]; [congruence |]. intros _.
  exists (fold_left Qmax xs x). split; [reflexivity |].
  apply fold_Qmax_spec.
Qed.

Lemma min_list_spec (xs : list Q) :
  xs <> [] ->
  exists m, min_list xs = Ok m /\ In m xs /\ Forall (fun y => m <= y) xs.
Proof.
  destruct xs as [| x xs]; [congruence |]. intros _.
  exists (fold_left Qmin xs x). split; [reflexivity |].
  apply fold_Qmin_spec.
Qed.

Lemma keys_map_values (V W : Type) (f : Z * V -> W) (d : dict V) :
  keys (map (fun kv => (fst kv, f kv)) d) = keys d.
Proof.
  unfold keys. rewrite map_map. reflexivity.
Qed.

Lemma in_values (V : Type) (d : dict V) (k : Z) (v : V) :
  In (k, v) d -> In v (values d).
Proof.
  intros H. unfold values. apply in_map_iff. exists (k, v). auto.
Qed.

Lemma dict_get_map_values (V W : Type) (f : Z * V -> W) (d : dict V)
    (k : Z) (v : V) :
  NoDup (keys d) -> In (k, v) d ->
  dict_get (map (fun kv => (fst kv, f kv)) d) k = Some (f (k, v)).
Proof.
  intros Hnd Hin. apply dict_get_nodup.
  - rewrite keys_map_values. exact Hnd.
  - apply in_map_iff. exists (k, v). auto.
Qed.

(** What [normalize_process_time] computes on a non-empty score map. *)
Lemma normalize_process_time_spec (d : dict Q) :
  NoDup (keys d) -> d <> [] ->
  exists mn mx,
    In mn (values d) /\ In mx (values d)
    /\ Forall (fun t => mn <= t /\ t <= mx) (values d)
    /\ normalize_process_time d =
       Ok (map (fun kv => (fst kv, latency_score mn mx (snd kv))) d).
Proof.
  intros Hnd Hne.
  assert (Hv : values d <> []) by (destruct d; [congruence | discriminate]).
  destruct (max_list_spec _ Hv) as [mx [Emx [Hmx_in Hmx]]].
  destruct (min_list_spec _ Hv) as [mn [Emn [Hmn_in Hmn]]].
  exists mn, mx. repeat split; try assumption.
  - rewrite Forall_forall in *. intros t Ht. split; auto.
  - unfold normalize_process_time. rewrite Emx, Emn. simpl.
    rewrite dict_of_items_nodup; [reflexivity |].
    rewrite (keys_map_values _ _ (fun kv => latency_score mn mx (snd kv))).
    exact Hnd.
Qed.

Lemma latency_score_bounds (mn mx t : Q) :
  mn <= t -> t <= mx -> 1 # 2 < latency_score mn mx t /\ latency_score mn mx t <= 1.
Proof.
  intros Hlo Hhi. unfold latency_score.
  assert (Heps : 0 < EPS) by reflexivity.
  assert (Hd : 0 < mx - mn + EPS) by lra.
  assert (H0 : 0 <= (1 # 2) * (t - mn) / (mx - mn + EPS)).
  { apply Qle_shift_div_l; [exact Hd |]. lra. }
  assert (H1 : (1 # 2) * (t - mn) / (mx - mn + EPS) < 1 # 2).
  { apply Qlt_shift_div_r; [exact Hd |]. lra. }
  split; lra.
Qed.

Lemma in_values_inv (V : Type) (d : dict V) (v : V) :
  In v (values d) -> exists k, In (k, v) d.
Proof.
  unfold values. intros H. apply in_map_iff in H.
  destruct H as [[k v'] [E Hin]]. simpl in E. subst. eauto.
Qed.

(** C7, counterexample.  Two peers answering in 1 s and 2 s: the slower
    one gets [1 - 0.5 * 1 / (1 + EPS)], which is not 0.5. *)
Lemma latency_slowest_not_half :
  exists scores ss,
    normalize_process_time [(1%Z, 1); (2%Z, 2)] = Ok scores
    /\ dict_get scores 2%Z = Some ss
    /\ ~ ss == 1 # 2.
Proof.
  eexists. eexists. split; [reflexivity |]. split; [reflexivity |].
  vm_compute. discriminate.
Qed.

(** C7, as amended.  When the round has two distinct elapsed times, the
    fastest responder's latency score is exactly 1 and the slowest one's is
    [1 - 0.5 * d / (d + EPS)] with [d] the spread of the elapsed times: more
    than 0.5 and less than 1. *)
Theorem latency_fastest_one_slowest_above_half
    (process_time_score : dict Q) (fastest slowest : Z) (tf ts : Q) :
  NoDup (keys process_time_score) ->
  In (fastest, tf) process_time_score ->
  In (slowest, ts) process_time_score ->
  (forall k t, In (k, t) process_time_score -> tf <= t /\ t <= ts) ->
  tf < ts ->
  exists scores sf ss,
    normalize_process_time process_time_score = Ok scores
    /\ dict_get scores fastest = Some sf
    /\ dict_get scores slowest = Some ss
    /\ sf == 1
    /\ ss == 1 - (1 # 2) * (ts - tf) / (ts - tf + EPS)
    /\ 1 # 2 < ss /\ ss < 1.
Proof.
  intros Hnd Hf Hs Hall Hlt.
  destruct (normalize_process_time_spec process_time_score Hnd)
    as [mn [mx [Hmn_in [Hmx_in [Hbounds Hrun]]]]].
  { intros E. rewrite E in Hf. contradiction. }
  rewrite Forall_forall in Hbounds.
  assert (Hmn : mn == tf).
  { destruct (in_values_inv _ _ _ Hmn_in) as [k Hk].
    destruct (Hall _ _ Hk) as [H1 _].
    destruct (Hbounds tf (in_values _ _ _ _ Hf)) as [H2 _]. lra. }
  assert (Hmx : mx == ts).
  { destruct (in_values_inv _ _ _ Hmx_in) as [k Hk].
    destruct (Hall _ _ Hk) as [_ H1].
    destruct (Hbounds ts (in_values _ _ _ _ Hs)) as [_ H2]. lra. }
  exists (map (fun kv => (fst kv, latency_score mn mx (snd kv)))
              process_time_score).
  exists (latency_score mn mx tf), (latency_score mn mx ts).
  assert (Heps : 0 < EPS) by reflexivity.
  split; [exact Hrun |].
  split; [apply (dict_get_map_values _ _
                   (fun kv => latency_score mn mx (snd kv)) _ _ _ Hnd Hf) |].
  split; [apply (dict_get_map_values _ _
                   (fun kv => latency_score mn mx (snd kv)) _ _ _ Hnd Hs) |].
  assert (Hss : latency_score mn mx ts ==
                1 - (1 # 2) * (ts - tf) / (ts - tf + EPS)).
  { unfold latency_score. rewrite Hmn, Hmx. reflexivity. }
  split; [| split; [exact Hss | split]].
  - unfold latency_score. rewrite Hmn, Hmx.
    setoid_replace (tf - tf) with 0 by ring.
    unfold Qdiv. ring.
  - apply latency_score_bounds; lra.
  - rewrite Hss.
    assert (0 < (1 # 2) * (ts - tf) / (ts - tf + EPS)).
    { apply Qlt_shift_div_l; lra. }
    lra.
Qed.

Lemma latency_fastest_one_slowest_above_half_witness :
  exists scores sf ss,
    normalize_process_time [(1%Z, 1); (2%Z, 2)] = Ok scores
    /\ dict_get scores 1%Z = Some sf
    /\ dict_get scores 2%Z = Some ss
    /\ sf == 1
    /\ 1 # 2 < ss.
Proof.
  destruct (latency_fastest_one_slowest_above_half
              [(1%Z, 1); (2%Z, 2)] 1%Z 2%Z 1 2)
    as [scores [sf [ss [Hrun [Hf [Hs [Hone [_ [Hhalf _]]]]]]]]].
  - repeat constructor; simpl; intros H;
      repeat (destruct H as [H | H]; try discriminate H); exact H.
  - left. reflexivity.
  - right. left. reflexivity.
  - intros k t H. simpl in H.
    repeat (destruct H as [H | H];
            [inversion H; subst; split; discriminate |]).
    contradiction.
  - reflexivity.
  - exists scores, sf, ss. auto.
Defined.

(** ** Health scoring *)

Lemma mapM_ok (A B : Type) (f : A -> result B) (g : A -> B) (l : list A) :
  (forall x, In x l -> f x = Ok (g x)) -> mapM f l = Ok (map g l).
Proof.
  induction l as [| x l IH]; intros H; simpl; [reflexivity |].
  rewrite (H x) by (left; reflexivity).
  rewrite IH by (intros y Hy; apply H; right; exact Hy).
  reflexivity.
Qed.

Lemma fold_Zmax_spec (xs : list Z) (x : Z) :
  In (fold_left Z.max xs x) (x :: xs)
  /\ Forall (fun y => (y <= fold_left Z.max xs x)%Z) (x :: xs).
Proof.
  revert x. induction xs as [| a xs IH]; intros x; simpl.
  - split; [left; reflexivity | constructor; [lia | constructor]].
  - destruct (IH (Z.max x a)) as [Hin Hall].
    inversion Hall as [| ? ? Hhead Htail]; subst.
    split.
    + destruct Hin as [Hin | Hin]; [| right; right; exact Hin].
      destruct (Z.max_spec x a) as [[_ E] | [_ E]]; rewrite E in *;
        [right; left | left]; exact Hin.
    + constructor; [lia |]. constructor; [lia | exact Htail].
Qed.

Lemma valid_results_in (R : Type)
    (miner_results : list (Z * option (MinerAnswer R))) (k : Z)
    (a : MinerAnswer R) :
  In (k, a) (valid_results miner_results) <-> In (k, Some a) miner_results.
Proof.
  unfold valid_results. rewrite in_flat_map. split.
  - intros [[k' [a' |]] [Hin Hhere]]; simpl in Hhere; [| contradiction].
    destruct Hhere as [[= -> ->] | []]. exact Hin.
  - intros Hin. exists (k, Some a). split; [exact Hin | left; reflexivity].
Qed.

Lemma valid_results_keys_in (R : Type)
    (miner_results : list (Z * option (MinerAnswer R))) (k : Z) :
  In k (keys (valid_results miner_results)) ->
  exists a, In (k, Some a) miner_results.
Proof.
  unfold keys. intros H. apply in_map_iff in H.
  destruct H as [[k' a] [E Hin]]. simpl in E. subst k'.
  exists a. apply valid_results_in. exact Hin.
Qed.

Lemma valid_results_nodup (R : Type)
    (miner_results : list (Z * option (MinerAnswer R))) :
  NoDup (map fst miner_results) -> NoDup (keys (valid_results miner_results)).
Proof.
  induction miner_results as [| [k [a |]] l IH]; simpl; intros Hnd.
  - constructor.
  - inversion Hnd as [| ? ? Hk Hnd']; subst.
    constructor; [| apply IH; exact Hnd'].
    intros Hin. apply valid_results_keys_in in Hin. destruct Hin as [a' Hin].
    apply Hk. apply in_map_iff. exists (k, Some a'). auto.
  - inversion Hnd; subst. apply IH. assumption.
Qed.

(** A peer without an answer has no entry among the valid results. *)
Lemma valid_results_skip_none (R : Type)
    (miner_results : list (Z * option (MinerAnswer R))) (k : Z) :
  NoDup (map fst miner_results) ->
  In (k, None) miner_results ->
  ~ In k (keys (valid_results miner_results)).
Proof.
  intros Hnd Hnone Hin. apply valid_results_keys_in in Hin.
  destruct Hin as [a Hin].
  assert (Hnd' : NoDup (keys miner_results)) by exact Hnd.
  pose proof (dict_get_nodup _ _ _ _ Hnd' Hnone) as E1.
  pose proof (dict_get_nodup _ _ _ _ Hnd' Hin) as E2.
  congruence.
Qed.

Lemma mapM_cons (A B : Type) (f : A -> result B) (x : A) (l : list A) :
  mapM f (x :: l) =
  match f x with
  | Raise e => Raise e
  | Ok y => match mapM f l with
            | Raise e => Raise e
            | Ok ys => Ok (y :: ys)
            end
  end.
Proof. reflexivity. Qed.

Lemma blend_items (V : Type) (d : dict V) (fa fr : Z * V -> Q) (l : dict V) :
  NoDup (keys d) -> incl l d ->
  mapM (fun key =>
          a <- dict_item (map (fun kv => (fst kv, fa kv)) d) key ;;
          r <- dict_item (map (fun kv => (fst kv, fr kv)) d) key ;;
          Ok (key, a * (6 # 10) + r * (4 # 10)))
       (keys l)
  = Ok (map (fun kv => (fst kv, fa kv * (6 # 10) + fr kv * (4 # 10))) l).
Proof.
  intros Hkeys. induction l as [| [k v] l IH]; intros Hsub;
    [reflexivity |].
  assert (Hkv : In (k, v) d) by (apply Hsub; left; reflexivity).
  change (keys ((k, v) :: l)) with (k :: keys l).
  rewrite mapM_cons. unfold dict_item at 1 2.
  rewrite (dict_get_map_values _ _ fa _ _ _ Hkeys Hkv).
  rewrite (dict_get_map_values _ _ fr _ _ _ Hkeys Hkv).
  cbn [bind]. rewrite IH; [reflexivity |].
  intros e He. apply Hsub. right. exact He.
Qed.

(** What [score_health_check] computes when the largest reported timestamp
    is not zero. *)
Lemma score_health_check_spec (today_timestamp : Q)
    (miner_results : list (Z * option (MinerAnswer HealthCheckResponse))) :
  NoDup (map fst miner_results) ->
  valid_results miner_results <> [] ->
  exists mx,
    In mx (map (fun kv => time_completed (answer_data (snd kv)))
               (valid_results miner_results))
    /\ Forall (fun kv => (time_completed (answer_data (snd kv)) <= mx)%Z)
              (valid_results miner_results)
    /\ (mx <> 0%Z ->
        score_health_check today_timestamp miner_results =
        Ok (map (fun kv => (fst kv, health_blend mx today_timestamp
                                      (answer_data (snd kv))))
                (valid_results miner_results)))
    /\ (mx = 0%Z ->
        score_health_check today_timestamp miner_results =
        Raise ZeroDivisionError).
Proof.
  intros Hnd Hne. unfold score_health_check.
  pose proof (valid_results_nodup _ _ Hnd) as Hkeys.
  set (valid := valid_results miner_results) in *.
  destruct valid as [| v0 valid'] eqn:Evalid; [congruence |].
  rewrite <- Evalid in *. clear Hne.
  set (tcs := map (fun kv => time_completed (answer_data (snd kv))) valid).
  assert (Htcs : tcs = time_completed (answer_data (snd v0))
                       :: map (fun kv => time_completed (answer_data (snd kv)))
                              valid').
  { unfold tcs. rewrite Evalid. reflexivity. }
  destruct (fold_Zmax_spec
              (map (fun kv => time_completed (answer_data (snd kv))) valid')
              (time_completed (answer_data (snd v0)))) as [Hin Hall].
  rewrite <- Htcs in Hin, Hall.
  set (mx := fold_left Z.max
               (map (fun kv => time_completed (answer_data (snd kv))) valid')
               (time_completed (answer_data (snd v0)))) in *.
  exists mx. split; [exact Hin |]. split.
  { unfold tcs in Hall. rewrite Forall_map in Hall. exact Hall. }
  replace (Nat.eqb (length valid) 0) with false
    by (rewrite Evalid; reflexivity).
  replace (Zmax_list tcs) with (Ok mx) by (rewrite Htcs; reflexivity).
  simpl bind.
  split.
  2: { intros ->. rewrite Evalid, mapM_cons. reflexivity. }
  intros Hmx.
  assert (Hq : ~ inject_Z mx == 0).
  { intros E. apply Hmx. unfold Qeq in E. simpl in E. lia. }
  rewrite (mapM_ok _ _ _
             (fun kv => (fst kv, inject_Z (time_completed (answer_data (snd kv)))
                                 / inject_Z mx))).
  2: { intros kv _. unfold amount. rewrite truediv_ok by exact Hq.
       reflexivity. }
  simpl bind.
  rewrite !dict_of_items_nodup.
  2: { rewrite (keys_map_values _ _
                  (fun kv => recency today_timestamp (answer_data (snd kv)))).
       exact Hkeys. }
  2: { rewrite (keys_map_values _ _
                  (fun kv => inject_Z (time_completed (answer_data (snd kv)))
                             / inject_Z mx)).
       exact Hkeys. }
  rewrite (keys_map_values _ _
             (fun kv => inject_Z (time_completed (answer_data (snd kv)))
                        / inject_Z mx)).
  rewrite (blend_items _ valid
             (fun kv => inject_Z (time_completed (answer_data (snd kv)))
                        / inject_Z mx)
             (fun kv => recency today_timestamp (answer_data (snd kv)))
             valid Hkeys (incl_refl _)).
  simpl bind.
  rewrite dict_of_items_nodup; [reflexivity |].
  rewrite (keys_map_values _ _
             (fun kv =>
                inject_Z (time_completed (answer_data (snd kv))) / inject_Z mx
                * (6 # 10)
                + recency today_timestamp (answer_data (snd kv)) * (4 # 10))).
  exact Hkeys.
Qed.

(** ** Bulk-data spot check *)

Section SpotCheck.
Variable rnd : nat -> nat.
Variable events : list string -> Z -> Z -> list EventRecord.
Variable pool : string.
Variables lo hi : Z.

Lemma picks_step (w : world) (x : EventRecord) (rest : list EventRecord)
    (n : nat) :
  picks rnd w (x :: rest) (S n) =
  nth (rnd (draws w) mod length (x :: rest)) (x :: rest) x
  :: picks rnd (tick w) (x :: rest) n.
Proof.
  unfold picks. rewrite <- cons_seq, <- seq_shift, map_cons, map_map.
  rewrite Nat.add_0_r. f_equal.
  apply map_ext. intros i. simpl draws.
  replace (draws w + S i)%nat with (S (draws w) + i)%nat by lia.
  reflexivity.
Qed.

Lemma random_choice_run (w : world) (x : EventRecord)
    (rest : list EventRecord) :
  random_choice rnd (x :: rest) w =
  (Ok (nth (rnd (draws w) mod length (x :: rest)) (x :: rest) x), tick w).
Proof. reflexivity. Qed.

Lemma spot_check_unfold (n : nat) (md : list EventRecord) (c : Z) :
  spot_check rnd events (S n) pool lo hi md c =
  (block_data <~ random_choice rnd md ;;
   match block_number block_data with
   | None => ret PyFalse
   | Some bn =>
       if (bn <? lo)%Z || (bn >? hi)%Z then ret PyFalse
       else spot_check rnd events n pool lo hi md
              (c + (if okay events pool bn block_data then 1 else 0))%Z
   end).
Proof. reflexivity. Qed.

(** Some pick is rejected: the check returns [False]. *)
Lemma spot_check_rejects (n : nat) (md : list EventRecord) (c : Z)
    (w : world) :
  Exists (fun r => in_block_range lo hi r = false) (picks rnd w md n) ->
  fst (spot_check rnd events n pool lo hi md c w) = Ok PyFalse.
Proof.
  destruct md as [| x rest]; [intros H; inversion H |].
  revert c w. induction n as [| n IH]; intros c w Hex.
  - inversion Hex.
  - rewrite picks_step in Hex. rewrite spot_check_unfold.
    unfold bindM. rewrite random_choice_run.
    set (r := nth (rnd (draws w) mod length (x :: rest)) (x :: rest) x) in *.
    destruct (block_number r) as [bn |] eqn:Ebn; [| reflexivity].
    destruct ((bn <? lo)%Z || (bn >? hi)%Z) eqn:Eout; [reflexivity |].
    apply IH. inversion Hex as [? ? Hhere | ? ? Hlater]; subst.
    + unfold in_block_range in Hhere. rewrite Ebn, Eout in Hhere.
      discriminate.
    + exact Hlater.
Qed.

(** Every pick is accepted: the check counts the confirmed trials. *)
Lemma spot_check_counts (n : nat) (md : list EventRecord) (c : Z)
    (w : world) :
  md <> [] ->
  Forall (fun r => in_block_range lo hi r = true) (picks rnd w md n) ->
  fst (spot_check rnd events n pool lo hi md c w) =
  Ok (PyFloat
        (inject_Z (c + Z.of_nat (length (filter (confirmed_by_chain events pool)
                                                (picks rnd w md n))))
         / inject_Z (Z.of_nat ANSWER_CHECK_COUNT))).
Proof.
  destruct md as [| x rest]; [congruence |]. intros _.
  revert c w. induction n as [| n IH]; intros c w Hall.
  - simpl. rewrite Z.add_0_r. reflexivity.
  - rewrite picks_step in *. rewrite spot_check_unfold.
    unfold bindM. rewrite random_choice_run.
    set (r := nth (rnd (draws w) mod length (x :: rest)) (x :: rest) x) in *.
    inversion Hall as [| ? ? Hhere Hlater]; subst.
    unfold in_block_range in Hhere.
    cbn [filter]. unfold confirmed_by_chain at 1.
    destruct (block_number r) as [bn |] eqn:Ebn; [| discriminate].
    destruct ((bn <? lo)%Z || (bn >? hi)%Z) eqn:Eout; [discriminate |].
    rewrite IH by exact Hlater.
    set (L := length (filter (confirmed_by_chain events pool)
                              (picks rnd (tick w) (x :: rest) n))).
    destruct (okay events pool bn r); cbn [length]; fold L.
    + replace (c + 1 + Z.of_nat L)%Z with (c + Z.of_nat (S L))%Z by lia.
      reflexivity.
    + replace (c + 0 + Z.of_nat L)%Z with (c + Z.of_nat L)%Z by lia.
      reflexivity.
Qed.

End SpotCheck.

Lemma picks_length (rnd : nat -> nat) (w : world) (md : list EventRecord)
    (n : nat) :
  md <> [] -> length (picks rnd w md n) = n.
Proof.
  destruct md as [| x rest]; [congruence |]. intros _.
  unfold picks. rewrite length_map, length_seq. reflexivity.
Qed.

Lemma bindM_ret_fst (A B : Type) (m : M A) (f : A -> B) (w : world) (a : A) :
  fst (m w) = Ok a -> fst ((x <~ m ;; ret (f x)) w) = Ok (f a).
Proof.
  unfold bindM, ret. destruct (m w) as [[a' | e] w']; simpl;
    intros [= <-]. reflexivity.
Qed.

(** C3, counterexample.  The only claimed record lies outside the block
    range: the check returns [False], the accuracy score is -27 and the
    peer's score for the round is about -13; none of them is 0. *)
Lemma out_of_range_score_not_zero :
  fst (check_miner_answer_pool_event demo_rnd demo_block_range
         demo_chain_events demo_pool_synapse demo_stale_answer world0)
  = Ok PyFalse
  /\ (exists q,
        fst (check_pool_event_accuracy demo_rnd demo_block_range
               demo_chain_events demo_pool_synapse (Some demo_stale_answer)
               world0) = Ok q
        /\ q == -27 /\ ~ q == 0)
  /\ (exists scores s,
        fst (score_pool_events demo_rnd demo_block_range demo_chain_events
               [demo_pool_synapse]
               [(2%Z, Some {| answer_data := demo_stale_answer;
                              process_time := 4 # 10 |})] world0)
        = Ok scores
        /\ dict_get scores 2%Z = Some s
        /\ s == -13 /\ ~ s == 0).
Proof.
  split; [reflexivity |]. split.
  - eexists. split; [reflexivity |]. split; vm_compute; congruence.
  - eexists. eexists. split; [vm_compute; reflexivity |].
    split; [reflexivity |]. split; vm_compute; congruence.
Qed.

Lemma option_string_eqb_eq (x y : option string) :
  option_string_eqb x y = true <-> x = y.
Proof.
  destruct x as [a |], y as [b |]; simpl.
  - rewrite String.eqb_eq. split; congruence.
  - split; discriminate.
  - split; discriminate.
  - split; reflexivity.
Qed.

(** A trial is counted exactly when some event the chain service reports
    for the pool at the record's block carries the record's transaction
    hash. *)
Lemma okay_spec (events : list string -> Z -> Z -> list EventRecord)
    (pool : string) (bn : Z) (block_data : EventRecord) :
  okay events pool bn block_data = true
  <-> exists block_data_of_pool,
        In block_data_of_pool (events [pool] bn bn)
        /\ transaction_hash block_data_of_pool = transaction_hash block_data.
Proof.
  unfold okay. rewrite existsb_exists. split.
  - intros [e [Hin H]]. apply option_string_eqb_eq in H. exists e. auto.
  - intros [e [Hin H]]. exists e. split; [exact Hin |].
    apply option_string_eqb_eq. exact H.
Qed.

Lemma in_block_range_spec (lo hi : Z) (r : EventRecord) :
  in_block_range lo hi r = true
  <-> exists bn, block_number r = Some bn /\ (lo <= bn <= hi)%Z.
Proof.
  unfold in_block_range. destruct (block_number r) as [bn |].
  - rewrite negb_true_iff, orb_false_iff, Z.ltb_ge, Z.gtb_ltb, Z.ltb_ge.
    split.
    + intros H. exists bn. split; [reflexivity | exact H].
    + intros [bn' [[= <-] H]]. exact H.
  - split; [discriminate | intros [bn [H _]]; discriminate].
Qed.

Lemma confirmed_by_chain_spec
    (events : list string -> Z -> Z -> list EventRecord) (pool : string)
    (r : EventRecord) :
  confirmed_by_chain events pool r = true
  <-> exists bn block_data_of_pool,
        block_number r = Some bn
        /\ In block_data_of_pool (events [pool] bn bn)
        /\ transaction_hash block_data_of_pool = transaction_hash r.
Proof.
  unfold confirmed_by_chain. destruct (block_number r) as [bn |].
  - rewrite okay_spec. split.
    + intros [e H]. exists bn, e. split; [reflexivity | exact H].
    + intros [bn' [e [[= <-] H]]]. exists e. exact H.
  - split; [discriminate | intros [bn [e [H _]]]; discriminate].
Qed.

Lemma picks_in (rnd : nat -> nat) (w : world) (md : list EventRecord)
    (n : nat) :
  Forall (fun r => In r md) (picks rnd w md n).
Proof.
  destruct md as [| x rest]; [constructor |].
  unfold picks. apply Forall_forall. intros r Hr.
  apply in_map_iff in Hr. destruct Hr as [i [<- _]].
  apply nth_In. apply Nat.mod_upper_bound. discriminate.
Qed.

(** C3, as amended.  The answer carries at least one claimed record.  The
    ten trials pick claimed records.  If one of the picked records lacks a
    block number or reports one outside the authoritative range, the raw
    accuracy is [False], that is 0, and the accuracy score is -27;
    otherwise the raw accuracy is the number of trials in which some
    authoritative event at the record's block carries the record's
    transaction hash, divided by 10, a value in [0,1]. *)
Theorem spot_check_rejects_or_counts
    (rnd : nat -> nat) (block_range : Z -> Z -> Z * Z)
    (events : list string -> Z -> Z -> list EventRecord)
    (synapse : PoolEventSynapse) (miner_answer : PoolEventResponse)
    (records : list EventRecord) (w : world) :
  data miner_answer = Some records ->
  records <> [] ->
  let range :=
    block_range (start_datetime synapse) (end_datetime synapse) in
  let ps := picks rnd w records ANSWER_CHECK_COUNT in
  let matched :=
    Z.of_nat (length (filter (confirmed_by_chain events (pool_address synapse))
                             ps)) in
  (length ps = 10%nat /\ Forall (fun r => In r records) ps)
  /\ (forall r,
        in_block_range (fst range) (snd range) r = true
        <-> exists bn,
              block_number r = Some bn
              /\ (fst range <= bn <= snd range)%Z)
  /\ (forall r,
        confirmed_by_chain events (pool_address synapse) r = true
        <-> exists bn block_data_of_pool,
              block_number r = Some bn
              /\ In block_data_of_pool
                    (events [pool_address synapse] bn bn)
              /\ transaction_hash block_data_of_pool = transaction_hash r)
  /\ (Exists (fun r => in_block_range (fst range) (snd range) r = false) ps ->
      fst (check_miner_answer_pool_event rnd block_range events synapse
             miner_answer w) = Ok PyFalse
      /\ exists q,
           fst (check_pool_event_accuracy rnd block_range events synapse
                  (Some miner_answer) w) = Ok q
           /\ q == -27)
  /\ (Forall (fun r => in_block_range (fst range) (snd range) r = true) ps ->
      fst (check_miner_answer_pool_event rnd block_range events synapse
             miner_answer w) = Ok (PyFloat (inject_Z matched / 10))
      /\ 0 <= inject_Z matched / 10 /\ inject_Z matched / 10 <= 1).
Proof.
  intros Hdata Hne range ps matched.
  assert (Hcheck :
    check_miner_answer_pool_event rnd block_range events synapse
      miner_answer w =
    spot_check rnd events ANSWER_CHECK_COUNT (pool_address synapse)
      (fst range) (snd range) records 0 w).
  { unfold check_miner_answer_pool_event, range.
    destruct (block_range _ _) as [lo hi]. rewrite Hdata. reflexivity. }
  split; [| split; [| split; [| split]]].
  - split; [apply picks_length; exact Hne | apply picks_in].
  - intros r. apply in_block_range_spec.
  - intros r. apply confirmed_by_chain_spec.
  - intros Hex.
    assert (Hfalse :
      fst (check_miner_answer_pool_event rnd block_range events synapse
             miner_answer w) = Ok PyFalse).
    { rewrite Hcheck. apply spot_check_rejects. exact Hex. }
    split; [exact Hfalse |].
    exists (accuracy_transform (as_float PyFalse)).
    split; [| reflexivity].
    unfold check_pool_event_accuracy.
    apply (bindM_ret_fst _ _ _ (fun a => accuracy_transform (as_float a))).
    exact Hfalse.
  - intros Hall. split.
    + rewrite Hcheck.
      rewrite (spot_check_counts rnd events (pool_address synapse)
                 (fst range) (snd range) ANSWER_CHECK_COUNT records 0 w Hne Hall).
      reflexivity.
    + assert (Hle : (length (filter (confirmed_by_chain events
                                       (pool_address synapse)) ps)
                     <= 10)%nat).
      { eapply Nat.le_trans; [apply filter_length_le |].
        unfold ps. rewrite picks_length by exact Hne. apply Nat.le_refl. }
      assert (H0 : 0 <= inject_Z matched).
      { change 0 with (inject_Z 0). rewrite <- Zle_Qle. unfold matched. lia. }
      assert (H10 : inject_Z matched <= 10).
      { change 10 with (inject_Z 10). rewrite <- Zle_Qle. unfold matched. lia. }
      split.
      * apply Qle_shift_div_l; [reflexivity | lra].
      * apply Qle_shift_div_r; [reflexivity | lra].
Qed.

Lemma spot_check_rejects_or_counts_witness :
  fst (check_miner_answer_pool_event demo_rnd demo_block_range
         demo_chain_events demo_pool_synapse demo_stale_answer world0)
  = Ok PyFalse
  /\ fst (check_miner_answer_pool_event demo_rnd demo_block_range
            demo_chain_events demo_pool_synapse demo_good_answer world0)
     = Ok (PyFloat (inject_Z 10 / 10)).
Proof.
  split.
  - destruct (spot_check_rejects_or_counts demo_rnd demo_block_range
                demo_chain_events demo_pool_synapse demo_stale_answer
                [{| block_number := Some 999%Z;
                    transaction_hash := Some "0xbb"%string |}] world0
                eq_refl) as [_ [_ [_ [Hreject _]]]]; [discriminate |].
    apply Hreject. apply Exists_cons_hd. reflexivity.
  - destruct (spot_check_rejects_or_counts demo_rnd demo_block_range
                demo_chain_events demo_pool_synapse demo_good_answer
                [{| block_number := Some 150%Z;
                    transaction_hash := Some "0xaa"%string |}] world0
                eq_refl) as [_ [_ [_ [_ Hcount]]]]; [discriminate |].
    apply Hcount. repeat constructor.
Defined.

(** ** Signal scoring *)

Lemma keys_dict_set (V W : Type) (d1 : dict V) (d2 : dict W) (k : Z)
    (v : V) (v' : W) :
  keys d1 = keys d2 -> keys (dict_set d1 k v) = keys (dict_set d2 k v').
Proof.
  revert d2. induction d1 as [| [k1 v1] d1 IH]; intros [| [k2 v2] d2] H;
    simpl in *; try discriminate; [reflexivity |].
  injection H as -> H.
  destruct (Z.eqb k k2); simpl; [congruence |].
  f_equal. apply IH. exact H.
Qed.

Lemma dict_set_nonempty (V : Type) (d : dict V) (k : Z) (v : V) :
  dict_set d k v <> [].
Proof.
  destruct d as [| [k' v'] d]; simpl; [discriminate |].
  destruct (Z.eqb k k'); discriminate.
Qed.

Section SignalFacts.
Variable signals : string -> Z -> string -> Signals.

Lemma score_signal_events_loop_keys pairs (p : dict Q)
    (d : dict (option Signals)) :
  keys p = keys d ->
  keys (fst (score_signal_events_loop signals pairs p d)) =
  keys (snd (score_signal_events_loop signals pairs p d)).
Proof.
  revert p d. induction pairs as [| [s [k [a |]]] pairs IH]; intros p d H;
    simpl; [exact H | | apply IH; exact H].
  apply IH. apply keys_dict_set. exact H.
Qed.

Lemma score_signal_events_loop_grows pairs (p : dict Q)
    (d : dict (option Signals)) :
  p <> [] -> fst (score_signal_events_loop signals pairs p d) <> [].
Proof.
  revert p d. induction pairs as [| [s [k [a |]]] pairs IH]; intros p d H;
    simpl; [exact H | | apply IH; exact H].
  apply IH. apply dict_set_nonempty.
Qed.

Lemma score_signal_events_loop_responder pairs (p : dict Q)
    (d : dict (option Signals)) s k a :
  In (s, (k, Some a)) pairs ->
  fst (score_signal_events_loop signals pairs p d) <> [].
Proof.
  revert p d. induction pairs as [| [s' [k' [a' |]]] pairs IH];
    intros p d Hin; simpl.
  - contradiction.
  - apply score_signal_events_loop_grows. apply dict_set_nonempty.
  - destruct Hin as [Hin | Hin]; [discriminate |]. apply IH. exact Hin.
Qed.

(** Past the early return, [score_signal_events] raises. *)
Lemma score_signal_events_cases synapses miner_results :
  let scores :=
    score_signal_events_loop signals (zip synapses miner_results) [] [] in
  (fst scores = [] /\
   score_signal_events signals synapses miner_results = Ok [])
  \/ (fst scores <> [] /\
      score_signal_events signals synapses miner_results = Raise TypeError).
Proof.
  intros scores. unfold score_signal_events.
  pose proof (score_signal_events_loop_keys
                (zip synapses miner_results) [] [] eq_refl) as Hkeys.
  fold scores in Hkeys. fold scores.
  destruct scores as [p d]. simpl in *.
  destruct p as [| [k t] p]; [left; split; reflexivity |].
  right. split; [discriminate |].
  change (Nat.eqb (length ((k, t) :: p)) 0) with false. cbv iota.
  destruct (max_list_spec (values ((k, t) :: p))) as [mx [Emx _]];
    [discriminate |].
  destruct (min_list_spec (values ((k, t) :: p))) as [mn [Emn _]];
    [discriminate |].
  unfold normalize_process_time. rewrite Emx, Emn. cbn [bind].
  unfold get_min_max_deviations. rewrite <- Hkeys. reflexivity.
Qed.

End SignalFacts.

(** C6.  In a signal round with at least one responding peer,
    [score_signal_events] does not return a score map: it raises
    [TypeError] in [get_min_max_deviations], before the reference to the
    unbound name [accuracy_score] is reached. *)
Theorem score_signal_events_raises
    (signals : string -> Z -> string -> Signals)
    (synapses : list SignalEventSynapse)
    (miner_results : list (Z * option (MinerAnswer SignalEventResponse)))
    (synapse : SignalEventSynapse) (key : Z)
    (miner_answer : MinerAnswer SignalEventResponse) :
  In (synapse, (key, Some miner_answer)) (zip synapses miner_results) ->
  score_signal_events signals synapses miner_results = Raise TypeError.
Proof.
  intros Hin.
  destruct (score_signal_events_cases signals synapses miner_results)
    as [[Hempty _] | [_ Hraise]]; [| exact Hraise].
  exfalso.
  apply (score_signal_events_loop_responder signals _ [] [] _ _ _ Hin).
  exact Hempty.
Qed.

Lemma score_signal_events_raises_witness :
  score_signal_events demo_signals [demo_signal_synapse] demo_signal_results
  = Raise TypeError.
Proof.
  apply (score_signal_events_raises demo_signals [demo_signal_synapse]
           demo_signal_results demo_signal_synapse 1%Z
           {| answer_data :=
                {| signal_data :=
                     Some {| price := 1990; liquidity := 510; volume := 40 |} |};
              process_time := 1 # 10 |}).
  left. reflexivity.
Defined.

(** ** The full-step blend (line 616) *)

Lemma mapM_raises (A B : Type) (f : A -> result B) (l : list A) (x : A) :
  In x l -> raises (f x) -> raises (mapM f l).
Proof.
  induction l as [| y l IH]; intros Hin Hx; [contradiction |].
  rewrite mapM_cons. destruct (f y) as [b | e] eqn:Ey.
  - destruct Hin as [-> | Hin].
    + destruct Hx as [e Hx]. congruence.
    + destruct (IH Hin Hx) as [e ->]. exists e. reflexivity.
  - exists e. reflexivity.
Qed.

Lemma bind_raises (A B : Type) (m : result A) (k : A -> result B) :
  raises m -> raises (bind m k).
Proof. intros [e ->]. exists e. reflexivity. Qed.

(** A peer of the directory that lacks one of the three scores makes the
    blend raise. *)
Lemma overall_scores_missing (uids : list Z) (h p s : dict Q) (key : Z) :
  In key uids ->
  dict_get h key = None \/ dict_get p key = None \/ dict_get s key = None ->
  raises (overall_scores uids h p s).
Proof.
  intros Hin Hmiss. unfold overall_scores. apply bind_raises.
  apply (mapM_raises _ _ _ _ key Hin). unfold dict_item.
  destruct (dict_get h key); [| eexists; reflexivity].
  destruct (dict_get p key); [| eexists; reflexivity].
  destruct (dict_get s key); [| eexists; reflexivity].
  destruct Hmiss as [H | [H | H]]; discriminate.
Qed.

(** With every peer of the directory scored in every round, the blend is
    0.3 health + 0.3 pool events + 0.4 signal. *)
Lemma overall_scores_present (uids : list Z) (h p s : dict Q) :
  NoDup uids ->
  (forall key, In key uids ->
     dict_get h key <> None /\ dict_get p key <> None
     /\ dict_get s key <> None) ->
  exists scores,
    overall_scores uids h p s = Ok scores
    /\ keys scores = uids
    /\ forall key hh pp ss,
         In key uids ->
         dict_get h key = Some hh -> dict_get p key = Some pp ->
         dict_get s key = Some ss ->
         dict_get scores key =
         Some (hh * (3 # 10) + pp * (3 # 10) + ss * (4 # 10)).
Proof.
  intros Hnd Hall.
  set (blend := fun key =>
         (key, match dict_get h key, dict_get p key, dict_get s key with
               | Some hh, Some pp, Some ss =>
                   hh * (3 # 10) + pp * (3 # 10) + ss * (4 # 10)
               | _, _, _ => 0
               end)).
  assert (Hkeys : keys (map blend uids) = uids).
  { unfold keys. rewrite map_map. simpl. apply map_id. }
  exists (map blend uids). split; [| split; [exact Hkeys |]].
  - unfold overall_scores. rewrite (mapM_ok _ _ _ blend).
    + simpl. rewrite dict_of_items_nodup; [reflexivity |].
      rewrite Hkeys. exact Hnd.
    + intros key Hin. destruct (Hall key Hin) as [Hh [Hp Hs]].
      unfold dict_item, blend.
      destruct (dict_get h key); [| congruence].
      destruct (dict_get p key); [| congruence].
      destruct (dict_get s key); [| congruence]. reflexivity.
  - intros key hh pp ss Hin Hh Hp Hs.
    apply dict_get_nodup; [rewrite Hkeys; exact Hnd |].
    apply in_map_iff. exists key. split; [| exact Hin].
    unfold blend. rewrite Hh, Hp, Hs. reflexivity.
Qed.

(** C1.  Peer 0 failed the health check, peers 1 and 2 have a score in
    every round.  Line 616 iterates over the whole directory, so the blend
    raises [KeyError] on peer 0 instead of leaving it out; the same happens
    in a full step whose signal round nobody answers, and a step whose
    signal round is answered stops earlier, in [score_signal_events]. *)
Theorem overall_score_fails_on_unhealthy_peer :
  overall_scores (keys demo_modules_info) demo_health_score
    demo_pool_events_score demo_signal_events_score = Raise (KeyError 0)
  /\ fst (demo_validate_step demo_silent_signal_call) = Raise (KeyError 0)
  /\ fst (demo_validate_step demo_signal_call) = Raise TypeError.
Proof.
  split; [reflexivity |]. split; vm_compute; reflexivity.
Qed.

(** ** The log of selected peers *)

Section Logs.
Variable P : list Z -> Prop.

Lemma logs_ret (A : Type) (a : A) : logs_only P (ret a).
Proof. intros w. exists []. rewrite app_nil_r. split; [reflexivity | constructor]. Qed.

Lemma logs_throw (A : Type) (e : exn) : logs_only P (@throw A e).
Proof. intros w. exists []. rewrite app_nil_r. split; [reflexivity | constructor]. Qed.

Lemma logs_lift (A : Type) (r : result A) : logs_only P (lift r).
Proof. intros w. exists []. rewrite app_nil_r. split; [reflexivity | constructor]. Qed.

Lemma logs_bind (A B : Type) (m : M A) (k : A -> M B) :
  logs_only P m -> (forall a, logs_only P (k a)) ->
  logs_only P (bindM m k).
Proof.
  intros Hm Hk w. unfold bindM.
  destruct (Hm w) as [l1 [E1 H1]].
  destruct (m w) as [[a | e] w1]; simpl in E1.
  - destruct (Hk a w1) as [l2 [E2 H2]].
    exists (l1 ++ l2). rewrite E2, E1, app_assoc.
    split; [reflexivity | apply Forall_app; auto].
  - exists l1. simpl. auto.
Qed.

Lemma logs_random_choice rnd (A : Type) (seq : list A) :
  logs_only P (random_choice rnd seq).
Proof.
  intros w. exists []. rewrite app_nil_r. split; [| constructor].
  unfold random_choice. destruct seq; reflexivity.
Qed.

Lemma logs_random_randint rnd (a b : Z) :
  logs_only P (random_randint rnd a b).
Proof.
  intros w. exists []. rewrite app_nil_r. split; [| constructor].
  unfold random_randint. destruct (b <? a)%Z; reflexivity.
Qed.

Lemma logs_get_miner_answer (S R : Type)
    (call : S -> MinerInfo -> CallOutcome R)
    (modules_info : dict MinerInfo) (synapses : Synapses S) :
  P (keys modules_info) ->
  logs_only P (get_miner_answer call modules_info synapses).
Proof.
  intros HP w. exists [keys modules_info].
  rewrite get_miner_answer_run. simpl. split; [reflexivity |].
  constructor; [exact HP | constructor].
Qed.

Lemma logs_get_pool_event_synapses rnd start healthy_data :
  logs_only P (get_pool_event_synapses rnd start healthy_data).
Proof.
  induction healthy_data as [| [a |] rest IH]; simpl.
  - apply logs_ret.
  - apply logs_bind; [apply logs_random_randint | intros pick].
    apply logs_bind; [apply logs_random_choice | intros addr].
    apply logs_bind; [exact IH | intros synapses]. apply logs_ret.
  - exact IH.
Qed.

Lemma logs_get_signal_event_synapse rnd start healthy_data :
  logs_only P (get_signal_event_synapse rnd start healthy_data).
Proof.
  induction healthy_data as [| [a |] rest IH]; simpl.
  - apply logs_ret.
  - destruct (negb _); [apply logs_throw |].
    apply logs_bind; [apply logs_random_randint | intros pick].
    apply logs_bind; [apply logs_random_choice | intros addr].
    apply logs_bind; [exact IH | intros synapses]. apply logs_ret.
  - exact IH.
Qed.

Lemma logs_spot_check rnd events n pool lo hi md c :
  logs_only P (spot_check rnd events n pool lo hi md c).
Proof.
  revert c. induction n as [| n IH]; intros c.
  - apply logs_ret.
  - rewrite spot_check_unfold.
    apply logs_bind; [apply logs_random_choice | intros r].
    destruct (block_number r); [| apply logs_ret].
    destruct (_ || _); [apply logs_ret | apply IH].
Qed.

Lemma logs_check_pool_event_accuracy rnd range events synapse answer :
  logs_only P (check_pool_event_accuracy rnd range events synapse answer).
Proof.
  unfold check_pool_event_accuracy. destruct answer; [| apply logs_ret].
  apply logs_bind; [| intros a; apply logs_ret].
  unfold check_miner_answer_pool_event. destruct (range _ _).
  destruct (data p); [apply logs_spot_check | apply logs_ret].
Qed.

Lemma logs_score_pool_events_loop rnd range events pairs p a :
  logs_only P (score_pool_events_loop rnd range events pairs p a).
Proof.
  revert p a. induction pairs as [| [s [k [ans |]]] pairs IH]; intros p a;
    simpl.
  - apply logs_ret.
  - apply logs_bind;
      [exact (logs_check_pool_event_accuracy rnd range events s
                (Some (answer_data ans))) | intros score].
    destruct (Qle_bool score 1); [apply IH | apply logs_throw].
  - apply IH.
Qed.

Lemma logs_score_pool_events rnd range events synapses miner_results :
  logs_only P (score_pool_events rnd range events synapses miner_results).
Proof.
  unfold score_pool_events.
  apply logs_bind; [apply logs_score_pool_events_loop | intros [p a]].
  destruct (Nat.eqb _ _); [apply logs_ret |].
  apply logs_bind; [apply logs_lift | intros p'].
  apply logs_bind; [apply logs_lift | intros items]. apply logs_ret.
Qed.

End Logs.

(** ** Health scores: who gets one, and how two peers compare *)

Lemma score_health_check_keys (today_timestamp : Q)
    (miner_results : list (Z * option (MinerAnswer HealthCheckResponse)))
    (health_score : dict Q) :
  NoDup (map fst miner_results) ->
  score_health_check today_timestamp miner_results = Ok health_score ->
  keys health_score = keys (valid_results miner_results).
Proof.
  intros Hnd Hrun.
  destruct (valid_results miner_results) as [| v0 valid'] eqn:Evalid.
  - unfold score_health_check in Hrun. rewrite Evalid in Hrun.
    simpl in Hrun. injection Hrun as <-. reflexivity.
  - destruct (score_health_check_spec today_timestamp miner_results Hnd)
      as [mx [_ [_ [Hok Hzero]]]]; [rewrite Evalid; discriminate |].
    destruct (Z.eq_dec mx 0) as [E | E].
    + rewrite (Hzero E) in Hrun. discriminate.
    + rewrite (Hok E) in Hrun. injection Hrun as <-.
      rewrite (keys_map_values _ _
                 (fun kv => health_blend mx today_timestamp
                              (answer_data (snd kv)))).
      rewrite Evalid. reflexivity.
Qed.

Lemma recency_monotone (today_timestamp : Q) (r1 r2 : HealthCheckResponse) :
  (time_completed r2 <= time_completed r1)%Z ->
  recency today_timestamp r2 <= recency today_timestamp r1.
Proof.
  intros Hle. unfold recency.
  set (x1 := (inject_Z (10 * DAY_SECONDS + time_completed r1)
              - today_timestamp) / inject_Z DAY_SECONDS / 10).
  set (x2 := (inject_Z (10 * DAY_SECONDS + time_completed r2)
              - today_timestamp) / inject_Z DAY_SECONDS / 10).
  assert (Hx : x2 <= x1).
  { unfold x1, x2. unfold Qdiv.
    apply Qmult_le_compat_r; [| discriminate].
    apply Qmult_le_compat_r; [| discriminate].
    assert (inject_Z (10 * DAY_SECONDS + time_completed r2)
            <= inject_Z (10 * DAY_SECONDS + time_completed r1))
      by (rewrite <- Zle_Qle; lia).
    lra. }
  destruct (Qmax_cases 0 x1) as [[-> H1] | [-> H1]];
    destruct (Qmax_cases 0 x2) as [[-> H2] | [-> H2]]; lra.
Qed.

Lemma health_blend_strictly_monotone (mx : Z) (today_timestamp : Q)
    (r1 r2 : HealthCheckResponse) :
  (0 < mx)%Z ->
  (time_completed r2 < time_completed r1)%Z ->
  health_blend mx today_timestamp r2 < health_blend mx today_timestamp r1.
Proof.
  intros Hmx Hlt. unfold health_blend.
  pose proof (recency_monotone today_timestamp r1 r2 (Z.lt_le_incl _ _ Hlt))
    as Hrec.
  assert (Hq : 0 < inject_Z mx)
    by (change 0 with (inject_Z 0); rewrite <- Zlt_Qlt; exact Hmx).
  assert (Hamount : inject_Z (time_completed r2) / inject_Z mx
                    < inject_Z (time_completed r1) / inject_Z mx).
  { unfold Qdiv. apply Qmult_lt_compat_r.
    - apply Qinv_lt_0_compat. exact Hq.
    - rewrite <- Zlt_Qlt. exact Hlt. }
  lra.
Qed.

(** ** A validation step *)

Lemma logs_bind_lift (P : list Z -> Prop) (A B : Type) (r : result A)
    (k : A -> M B) :
  (forall a, r = Ok a -> logs_only P (k a)) ->
  logs_only P (bindM (lift r) k).
Proof.
  intros Hk. destruct r as [a | e].
  - intros w. unfold bindM, lift. apply (Hk a eq_refl).
  - intros w. unfold bindM, lift. simpl. exists [].
    rewrite app_nil_r. split; [reflexivity | constructor].
Qed.

Lemma mapM_fst (A B : Type) (f : A -> result (A * B)) (l : list A)
    (ys : list (A * B)) :
  (forall x y, f x = Ok y -> fst y = x) ->
  mapM f l = Ok ys -> map fst ys = l.
Proof.
  intros Hf. revert ys. induction l as [| x l IH]; intros ys H.
  - injection H as <-. reflexivity.
  - rewrite mapM_cons in H. destruct (f x) as [y | e] eqn:Ey; [| discriminate].
    destruct (mapM f l) as [ys' | e]; [| discriminate].
    injection H as <-. simpl. rewrite (Hf _ _ Ey), (IH ys' eq_refl).
    reflexivity.
Qed.

Lemma nodup_zip_keys (A : Type) (uids : list Z) (l : list A) :
  NoDup uids -> NoDup (map fst (zip uids l)).
Proof.
  intros Hnd. revert l. induction Hnd as [| k uids Hk Hnd IH]; intros l.
  - constructor.
  - destruct l as [| a l]; simpl; constructor; [| apply IH].
    intros Hin. apply Hk. apply in_map_iff in Hin.
    destruct Hin as [[k' a'] [E Hin]]. simpl in E. subst k'.
    apply (in_combine_l _ _ _ _ Hin).
Qed.

(** The directory [valid_miner_infos] of line 590 has the keys of the
    health scores. *)
Lemma valid_miner_infos_keys (modules_info : dict MinerInfo)
    (health_score : dict Q) (valid_miner_infos : dict MinerInfo) :
  NoDup (keys health_score) ->
  (items <- mapM (fun key => info <- dict_item modules_info key ;;
                             Ok (key, info)) (keys health_score) ;;
   Ok (dict_of_items items)) = Ok valid_miner_infos ->
  keys valid_miner_infos = keys health_score.
Proof.
  intros Hnd H.
  destruct (mapM _ (keys health_score)) as [items |] eqn:E;
    [| discriminate].
  simpl in H. injection H as <-.
  assert (Hkeys : keys items = keys health_score).
  { refine (mapM_fst _ _ _ _ _ _ E). intros x y Hxy.
    unfold dict_item in Hxy.
    destruct (dict_get modules_info x); simpl in Hxy; [| discriminate].
    injection Hxy as <-. reflexivity. }
  rewrite dict_of_items_nodup; [exact Hkeys |].
  rewrite Hkeys. exact Hnd.
Qed.

Section StepFacts.
Variable rnd : nat -> nat.
Variable START_TIMESTAMP : Z.
Variable today_timestamp : Q.
Variable block_range : Z -> Z -> Z * Z.
Variable events : list string -> Z -> Z -> list EventRecord.
Variable signals : string -> Z -> string -> Signals.
Variable call_health :
  HealthCheckSynapse -> MinerInfo -> CallOutcome HealthCheckResponse.
Variable call_pool :
  PoolEventSynapse -> MinerInfo -> CallOutcome PoolEventResponse.
Variable call_signal :
  SignalEventSynapse -> MinerInfo -> CallOutcome SignalEventResponse.
Variable max_allowed_weights : Z.

Abbreviation step :=
  (validate_step rnd START_TIMESTAMP today_timestamp block_range events
     signals call_health call_pool call_signal max_allowed_weights).

(** The answers of the health round, zipped with the peer ids as on
    line 587. *)
Abbreviation health_results modules_info :=
  (zip (keys modules_info)
       (answers call_health modules_info
          (requests modules_info (Shared mkHealthCheckSynapse)))).

(** After the health round a step selects only peers that answered it. *)
Lemma step_selects_healthy_peers (modules_info : dict MinerInfo) (w : world) :
  NoDup (keys modules_info) ->
  exists later,
    selected (snd (step modules_info w))
    = selected w ++ keys modules_info :: later
    /\ Forall (fun l => forall k, In k l ->
                 exists a, In (k, Some a) (health_results modules_info))
              later.
Proof.
  intros Hnd.
  set (P := fun l : list Z => forall k, In k l ->
              exists a, In (k, Some a) (health_results modules_info)).
  unfold validate_step. unfold bindM at 1.
  rewrite get_miner_answer_run.
  set (hd := answers call_health modules_info
               (requests modules_info (Shared mkHealthCheckSynapse))).
  set (w1 := mkWorld (draws w) (selected w ++ [keys modules_info])).
  match goal with
  | |- exists later, selected (snd (?tail w1)) = _ /\ _ =>
      assert (Htail : logs_only P tail)
  end.
  { apply logs_bind_lift. intros mr Hmr.
    apply logs_bind_lift. intros hs Hhs.
    apply logs_bind_lift. intros vmi Hvmi.
    assert (Emr : mr = zip (keys modules_info) hd).
    { destruct hd; simpl in Hmr; [discriminate |].
      injection Hmr as <-. reflexivity. }
    assert (Hmr_nd : NoDup (map fst mr))
      by (rewrite Emr; apply nodup_zip_keys; exact Hnd).
    pose proof (score_health_check_keys _ _ _ Hmr_nd Hhs) as Hkeys.
    assert (Hvkeys : keys vmi = keys hs).
    { apply (valid_miner_infos_keys modules_info); [| exact Hvmi].
      rewrite Hkeys. apply valid_results_nodup. exact Hmr_nd. }
    assert (HP : P (keys vmi)).
    { intros k Hk. rewrite Hvkeys, Hkeys in Hk.
      apply valid_results_keys_in in Hk. rewrite Emr in Hk. exact Hk. }
    destruct (Nat.eqb (length vmi) 0); [apply logs_ret |].
    apply logs_bind; [apply logs_get_pool_event_synapses | intros ps].
    apply logs_bind; [apply logs_get_miner_answer; exact HP | intros pe].
    apply logs_bind; [apply logs_lift | intros mrp].
    apply logs_bind; [apply logs_score_pool_events | intros pscore].
    apply logs_bind; [apply logs_get_signal_event_synapse | intros ss].
    apply logs_bind; [apply logs_get_miner_answer; exact HP | intros se].
    apply logs_bind; [apply logs_lift | intros mrs].
    apply logs_bind; [apply logs_lift | intros sscore].
    apply logs_bind; [apply logs_lift | intros score_dict].
    destruct score_dict; [apply logs_ret |].
    apply logs_bind; [apply logs_lift | intros vote]. apply logs_ret. }
  destruct (Htail w1) as [later [E HP]].
  exists later. split; [| exact HP].
  rewrite E. unfold w1. simpl. rewrite <- app_assoc. reflexivity.
Qed.

End StepFacts.

Lemma bindM_ok_inv (A B : Type) (m : M A) (k : A -> M B) (w : world) (b : B) :
  fst (bindM m k w) = Ok b ->
  exists a w', m w = (Ok a, w') /\ fst (k a w') = Ok b.
Proof.
  unfold bindM. destruct (m w) as [[a | e] w']; simpl; intros H;
    [| discriminate].
  exists a, w'. split; [reflexivity | exact H].
Qed.

Lemma bindM_lift_ok_inv (A B : Type) (r : result A) (k : A -> M B)
    (w : world) (b : B) :
  fst (bindM (lift r) k w) = Ok b ->
  exists a, r = Ok a /\ fst (k a w) = Ok b.
Proof.
  intros H. apply bindM_ok_inv in H. destruct H as [a [w' [E H]]].
  unfold lift in E. injection E as -> <-. exists a. auto.
Qed.

Lemma overall_scores_empty_signal (uids : list Z) (h p scores : dict Q) :
  overall_scores uids h p [] = Ok scores -> scores = [].
Proof.
  destruct uids as [| key uids]; intros H.
  - injection H as <-. reflexivity.
  - destruct (overall_scores_missing (key :: uids) h p [] key) as [e He].
    + left. reflexivity.
    + right. right. reflexivity.
    + congruence.
Qed.

(** No step reaches [set_weights]: whatever the peers, the chain and the
    random draws are, a step either returns without voting or raises. *)
Lemma validate_step_never_votes
    (rnd : nat -> nat) (START_TIMESTAMP : Z) (today_timestamp : Q)
    (block_range : Z -> Z -> Z * Z)
    (events : list string -> Z -> Z -> list EventRecord)
    (signals : string -> Z -> string -> Signals)
    (call_health :
       HealthCheckSynapse -> MinerInfo -> CallOutcome HealthCheckResponse)
    (call_pool :
       PoolEventSynapse -> MinerInfo -> CallOutcome PoolEventResponse)
    (call_signal :
       SignalEventSynapse -> MinerInfo -> CallOutcome SignalEventResponse)
    (max_allowed_weights : Z) (modules_info : dict MinerInfo) (w : world)
    (vote : list Z * list Z) :
  fst (validate_step rnd START_TIMESTAMP today_timestamp block_range events
         signals call_health call_pool call_signal max_allowed_weights
         modules_info w) <> Ok (Some vote).
Proof.
  intros H. unfold validate_step in H.
  apply bindM_ok_inv in H. destruct H as [hd [w1 [_ H]]].
  apply bindM_lift_ok_inv in H. destruct H as [mr [_ H]].
  apply bindM_lift_ok_inv in H. destruct H as [hs [_ H]].
  apply bindM_lift_ok_inv in H. destruct H as [vmi [_ H]].
  destruct (Nat.eqb (length vmi) 0); [discriminate |].
  apply bindM_ok_inv in H. destruct H as [ps [w2 [_ H]]].
  apply bindM_ok_inv in H. destruct H as [pe [w3 [_ H]]].
  apply bindM_lift_ok_inv in H. destruct H as [mrp [_ H]].
  apply bindM_ok_inv in H. destruct H as [pscore [w4 [_ H]]].
  apply bindM_ok_inv in H. destruct H as [ss [w5 [_ H]]].
  apply bindM_ok_inv in H. destruct H as [se [w6 [_ H]]].
  apply bindM_lift_ok_inv in H. destruct H as [mrs [_ H]].
  apply bindM_lift_ok_inv in H. destruct H as [sscore [Hsignal H]].
  apply bindM_lift_ok_inv in H. destruct H as [score_dict [Hblend H]].
  destruct (score_signal_events_cases signals ss mrs)
    as [[_ Hempty] | [_ Hraise]]; [| congruence].
  rewrite Hempty in Hsignal. injection Hsignal as <-.
  apply overall_scores_empty_signal in Hblend. subst score_dict.
  discriminate.
Qed.

(** The per-peer request lists of a step have one request per selected
    peer: both are built from the health answers, one request per answer,
    and [valid_miner_infos] has one entry per answer. *)
Lemma get_pool_event_synapses_length (rnd : nat -> nat) (START_TIMESTAMP : Z)
    (healthy_data : list (option (MinerAnswer HealthCheckResponse)))
    (w : world) (synapses : list PoolEventSynapse) :
  fst (get_pool_event_synapses rnd START_TIMESTAMP healthy_data w)
  = Ok synapses ->
  length synapses = length (filter answered healthy_data).
Proof.
  revert w synapses.
  induction healthy_data as [| [a |] rest IH]; intros w synapses H.
  - injection H as <-. reflexivity.
  - simpl in H.
    apply bindM_ok_inv in H. destruct H as [pick [w1 [_ H]]].
    apply bindM_ok_inv in H. destruct H as [addr [w2 [_ H]]].
    apply bindM_ok_inv in H. destruct H as [tl [w3 [Htl H]]].
    injection H as <-. simpl. f_equal.
    apply (IH w2). rewrite Htl. reflexivity.
  - simpl in H. simpl. apply (IH w). exact H.
Qed.

Lemma get_signal_event_synapse_length (rnd : nat -> nat) (START_TIMESTAMP : Z)
    (healthy_data : list (option (MinerAnswer HealthCheckResponse)))
    (w : world) (synapses : list SignalEventSynapse) :
  fst (get_signal_event_synapse rnd START_TIMESTAMP healthy_data w)
  = Ok synapses ->
  length synapses = length (filter answered healthy_data).
Proof.
  revert w synapses.
  induction healthy_data as [| [a |] rest IH]; intros w synapses H.
  - injection H as <-. reflexivity.
  - simpl in H. destruct (negb _); [discriminate |].
    apply bindM_ok_inv in H. destruct H as [pick [w1 [_ H]]].
    apply bindM_ok_inv in H. destruct H as [addr [w2 [_ H]]].
    apply bindM_ok_inv in H. destruct H as [tl [w3 [Htl H]]].
    injection H as <-. simpl. f_equal.
    apply (IH w2). rewrite Htl. reflexivity.
  - simpl in H. simpl. apply (IH w). exact H.
Qed.

Lemma valid_results_zip_length (R : Type) (uids : list Z)
    (l : list (option (MinerAnswer R))) :
  length uids = length l ->
  length (valid_results (zip uids l)) = length (filter answered l).
Proof.
  revert l. induction uids as [| k uids IH]; intros [| [a |] l] H;
    simpl in *; try discriminate; try reflexivity.
  - f_equal. apply IH. congruence.
  - apply IH. congruence.
Qed.

Lemma step_requests_one_per_peer
    (rnd : nat -> nat) (START_TIMESTAMP : Z) (today_timestamp : Q)
    (call_health :
       HealthCheckSynapse -> MinerInfo -> CallOutcome HealthCheckResponse)
    (modules_info valid_miner_infos : dict MinerInfo) (health_score : dict Q) :
  NoDup (keys modules_info) ->
  let health_data :=
    answers call_health modules_info
      (requests modules_info (Shared mkHealthCheckSynapse)) in
  score_health_check today_timestamp (zip (keys modules_info) health_data)
  = Ok health_score ->
  (items <- mapM (fun key => info <- dict_item modules_info key ;;
                             Ok (key, info)) (keys health_score) ;;
   Ok (dict_of_items items)) = Ok valid_miner_infos ->
  (forall w synapses,
     fst (get_pool_event_synapses rnd START_TIMESTAMP health_data w)
     = Ok synapses ->
     one_request_per_peer valid_miner_infos (PerPeer synapses))
  /\ (forall w synapses,
        fst (get_signal_event_synapse rnd START_TIMESTAMP health_data w)
        = Ok synapses ->
        one_request_per_peer valid_miner_infos (PerPeer synapses)).
Proof.
  intros Hnd health_data Hhs Hvmi.
  assert (Hmr : NoDup (map fst (zip (keys modules_info) health_data)))
    by (apply nodup_zip_keys; exact Hnd).
  pose proof (score_health_check_keys _ _ _ Hmr Hhs) as Hkeys.
  assert (Hvkeys : keys valid_miner_infos = keys health_score).
  { apply (valid_miner_infos_keys modules_info); [| exact Hvmi].
    rewrite Hkeys. apply valid_results_nodup. exact Hmr. }
  assert (Hlen : length valid_miner_infos
                 = length (filter answered health_data)).
  { rewrite <- (length_map fst valid_miner_infos).
    change (map fst valid_miner_infos) with (keys valid_miner_infos).
    rewrite Hvkeys, Hkeys. unfold keys. rewrite length_map.
    apply valid_results_zip_length. unfold keys. rewrite length_map.
    symmetry. apply (answers_of_length _ _ call_health).
    unfold one_request_per_peer. simpl. apply repeat_length. }
  unfold one_request_per_peer. simpl. split; intros w synapses H.
  - rewrite Hlen. eapply get_pool_event_synapses_length. exact H.
  - rewrite Hlen. eapply get_signal_event_synapse_length. exact H.
Qed.

Lemma silent_peer_has_no_health_score (today_timestamp : Q)
    (miner_results : list (Z * option (MinerAnswer HealthCheckResponse)))
    (health_score : dict Q) (silent : Z) :
  NoDup (map fst miner_results) ->
  score_health_check today_timestamp miner_results = Ok health_score ->
  In (silent, None) miner_results ->
  dict_get health_score silent = None.
Proof.
  intros Hnd Hrun Hnone. apply dict_get_not_in.
  rewrite (score_health_check_keys _ _ _ Hnd Hrun).
  apply valid_results_skip_none; assumption.
Qed.

(** The recency bonus of line 503 is the larger of 0 and the tenth of the
    days left of the ten the peer may lag behind. *)
Lemma recency_spec (today_timestamp : Q) (r : HealthCheckResponse) :
  let left_over :=
    (inject_Z (864000 + time_completed r) - today_timestamp) / 86400 / 10 in
  0 <= recency today_timestamp r
  /\ left_over <= recency today_timestamp r
  /\ (recency today_timestamp r == 0
      \/ recency today_timestamp r == left_over).
Proof.
  cbv zeta. unfold recency.
  change (inject_Z (10 * DAY_SECONDS + time_completed r))
    with (inject_Z (864000 + time_completed r)).
  change (inject_Z DAY_SECONDS) with 86400.
  set (x := (inject_Z (864000 + time_completed r) - today_timestamp)
            / 86400 / 10).
  destruct (Qmax_cases 0 x) as [[-> H] | [-> H]].
  - split; [apply Qle_refl |]. split; [exact H |]. left. reflexivity.
  - split; [apply Qlt_le_weak; exact H |]. split; [apply Qle_refl |].
    right. reflexivity.
Qed.

(** C9, counterexample.  Peers 1 and 2 answer the health round with the
    timestamps -1 and -2: the round maximum is -1, the shares are 1 and 2,
    and the peer with the larger timestamp gets the lower health score,
    0.6 against 1.2. *)
Lemma fresher_peer_ranks_lower_below_zero :
  let health_results :=
    zip (keys demo_modules_info)
        (answers demo_backdated_health_call demo_modules_info
           (requests demo_modules_info (Shared mkHealthCheckSynapse))) in
  map (fun kv => (fst kv,
                  option_map (fun a => time_completed (answer_data a))
                             (snd kv))) health_results
  = [(0%Z, None); (1%Z, Some (-1)%Z); (2%Z, Some (-2)%Z)]
  /\ exists s1 s2,
       score_health_check (inject_Z demo_now) health_results
       = Ok [(1%Z, s1); (2%Z, s2)]
       /\ s1 == 6 # 10 /\ s2 == 12 # 10 /\ s1 < s2.
Proof.
  cbv zeta. split; [reflexivity |].
  eexists. eexists. split; [vm_compute; reflexivity |].
  split; [reflexivity |]. split; reflexivity.
Qed.

(** C9, as amended.  In a health round whose largest reported timestamp
    [mx] is positive, every answering peer gets the score 0.6 times its
    timestamp over [mx] plus 0.4 times its recency bonus, the larger of 0
    and (10 days + timestamp - now) / 1 day / 10, and of two answering
    peers the one reporting the larger timestamp gets the strictly larger
    score.  A peer that does not answer gets no health score and is not
    selected for any later round of the step. *)
Theorem fresher_peer_ranks_higher_and_silent_peer_is_dropped
    (rnd : nat -> nat) (START_TIMESTAMP : Z) (today_timestamp : Q)
    (block_range : Z -> Z -> Z * Z)
    (events : list string -> Z -> Z -> list EventRecord)
    (signals : string -> Z -> string -> Signals)
    (call_health :
       HealthCheckSynapse -> MinerInfo -> CallOutcome HealthCheckResponse)
    (call_pool :
       PoolEventSynapse -> MinerInfo -> CallOutcome PoolEventResponse)
    (call_signal :
       SignalEventSynapse -> MinerInfo -> CallOutcome SignalEventResponse)
    (max_allowed_weights : Z) (modules_info : dict MinerInfo) (w : world) :
  NoDup (keys modules_info) ->
  let health_results :=
    zip (keys modules_info)
        (answers call_health modules_info
           (requests modules_info (Shared mkHealthCheckSynapse))) in
  (forall mx,
      (exists k a, In (k, Some a) health_results
                   /\ time_completed (answer_data a) = mx) ->
      (forall k a, In (k, Some a) health_results ->
                   (time_completed (answer_data a) <= mx)%Z) ->
      (0 < mx)%Z ->
      exists health_score,
        score_health_check today_timestamp health_results = Ok health_score
        /\ (forall k a,
              In (k, Some a) health_results ->
              let tc := time_completed (answer_data a) in
              let left_over :=
                (inject_Z (864000 + tc) - today_timestamp) / 86400 / 10 in
              exists s bonus,
                dict_get health_score k = Some s
                /\ s == inject_Z tc / inject_Z mx * (6 # 10)
                        + bonus * (4 # 10)
                /\ 0 <= bonus /\ left_over <= bonus
                /\ (bonus == 0 \/ bonus == left_over))
        /\ (forall k1 a1 s1 k2 a2 s2,
              In (k1, Some a1) health_results ->
              In (k2, Some a2) health_results ->
              dict_get health_score k1 = Some s1 ->
              dict_get health_score k2 = Some s2 ->
              (time_completed (answer_data a2)
               < time_completed (answer_data a1))%Z ->
              s2 < s1))
  /\ (forall health_score silent,
        score_health_check today_timestamp health_results = Ok health_score ->
        In (silent, None) health_results ->
        dict_get health_score silent = None)
  /\ exists later,
       selected (snd (validate_step rnd START_TIMESTAMP today_timestamp
                        block_range events signals call_health call_pool
                        call_signal max_allowed_weights modules_info w))
       = selected w ++ keys modules_info :: later
       /\ forall silent,
            In (silent, None) health_results ->
            Forall (fun l => ~ In silent l) later.
Proof.
  intros Hnd health_results.
  assert (Hnd' : NoDup (map fst health_results))
    by (apply nodup_zip_keys; exact Hnd).
  pose proof (valid_results_nodup _ _ Hnd') as Hkeys.
  split; [| split].
  - intros mx [k0 [a0 [Hin0 E0]]] Hmax Hpos.
    apply valid_results_in in Hin0.
    destruct (score_health_check_spec today_timestamp health_results Hnd')
      as [mx' [Hin' [Hmax' [Hok _]]]].
    { intros E. rewrite E in Hin0. contradiction. }
    assert (Emx : mx' = mx).
    { apply in_map_iff in Hin'. destruct Hin' as [[k a] [E Hin']].
      cbn [snd] in E. apply valid_results_in in Hin'.
      pose proof (Hmax _ _ Hin') as H1.
      rewrite Forall_forall in Hmax'. pose proof (Hmax' _ Hin0) as H2.
      cbn [snd] in H2. lia. }
    subst mx'.
    exists (map (fun kv => (fst kv, health_blend mx today_timestamp
                                      (answer_data (snd kv))))
                (valid_results health_results)).
    split; [apply Hok; lia |].
    assert (Hget : forall k a,
               In (k, Some a) health_results ->
               dict_get (map (fun kv => (fst kv,
                                         health_blend mx today_timestamp
                                           (answer_data (snd kv))))
                             (valid_results health_results)) k
               = Some (health_blend mx today_timestamp (answer_data a))).
    { intros k a Hin. apply valid_results_in in Hin.
      apply (dict_get_map_values _ _
               (fun kv => health_blend mx today_timestamp
                            (answer_data (snd kv))) _ _ _ Hkeys Hin). }
    split.
    + intros k a Hin. cbv zeta.
      exists (health_blend mx today_timestamp (answer_data a)).
      exists (recency today_timestamp (answer_data a)).
      split; [apply Hget; exact Hin |].
      split; [reflexivity |].
      apply (recency_spec today_timestamp (answer_data a)).
    + intros k1 a1 s1 k2 a2 s2 H1 H2 E1 E2 Hlt.
      rewrite (Hget _ _ H1) in E1. rewrite (Hget _ _ H2) in E2.
      injection E1 as <-. injection E2 as <-.
      apply health_blend_strictly_monotone; assumption.
  - intros health_score silent Hrun Hnone.
    apply (silent_peer_has_no_health_score today_timestamp health_results);
      assumption.
  - destruct (step_selects_healthy_peers rnd START_TIMESTAMP today_timestamp
                block_range events signals call_health call_pool call_signal
                max_allowed_weights modules_info w Hnd)
      as [later [E Hlater]].
    exists later. split; [exact E |].
    intros silent Hnone.
    eapply Forall_impl; [| exact Hlater].
    intros l Hl Hin. destruct (Hl _ Hin) as [a Ha].
    fold health_results in Ha.
    assert (Hk : NoDup (keys health_results)) by exact Hnd'.
    pose proof (dict_get_nodup _ _ _ _ Hk Ha) as E1.
    pose proof (dict_get_nodup _ _ _ _ Hk Hnone) as E2.
    congruence.
Qed.

Lemma demo_modules_info_nodup : NoDup (keys demo_modules_info).
Proof.
  repeat constructor; simpl; intros H;
    repeat (destruct H as [H | H]; try discriminate H); exact H.
Qed.

Lemma fresher_peer_ranks_higher_and_silent_peer_is_dropped_witness :
  exists health_score s1 s2,
    score_health_check (inject_Z demo_now)
      (zip (keys demo_modules_info)
           (answers demo_health_call demo_modules_info
              (requests demo_modules_info (Shared mkHealthCheckSynapse))))
    = Ok health_score
    /\ dict_get health_score 1%Z = Some s1
    /\ dict_get health_score 2%Z = Some s2
    /\ s2 < s1
    /\ dict_get health_score 0%Z = None
    /\ exists later,
         selected (snd (demo_validate_step demo_signal_call))
         = [0; 1; 2]%Z :: later
         /\ Forall (fun l => ~ In 0%Z l) later.
Proof.
  destruct (fresher_peer_ranks_higher_and_silent_peer_is_dropped
              demo_rnd demo_START_TIMESTAMP (inject_Z demo_now)
              demo_block_range demo_chain_events demo_signals
              demo_health_call demo_pool_call demo_signal_call
              420%Z demo_modules_info world0 demo_modules_info_nodup)
    as [Hscores [Hsilent [later [E Hlater]]]].
  destruct (Hscores (demo_now - 1 * 86400)%Z)
    as [health_score [Hrun [Hformula Horder]]].
  - exists 1%Z, demo_fresh_answer. split; [| reflexivity].
    right. left. reflexivity.
  - intros k a [H | [H | [H | []]]]; try discriminate H;
      injection H as _ <-; vm_compute; discriminate.
  - reflexivity.
  - destruct (Hformula 1%Z demo_fresh_answer) as [s1 [b1 [E1 _]]];
      [right; left; reflexivity |].
    destruct (Hformula 2%Z demo_stale_health_answer) as [s2 [b2 [E2 _]]];
      [right; right; left; reflexivity |].
    exists health_score, s1, s2.
    split; [exact Hrun |]. split; [exact E1 |]. split; [exact E2 |].
    split.
    + apply (Horder 1%Z demo_fresh_answer s1 2%Z demo_stale_health_answer s2);
        [right; left; reflexivity | right; right; left; reflexivity
         | exact E1 | exact E2 | reflexivity].
    + split.
      * apply (Hsilent health_score 0%Z Hrun). left. reflexivity.
      * exists later. split; [exact E |]. apply Hlater. left. reflexivity.
Defined.

(** ** Miner: sync cursor and token-pair rows *)

Lemma int_of_float_ceiling (q : Q) : q <= 0 -> int_of_float q = Qceiling q.
Proof.
  destruct q as [n d]. unfold Qle, int_of_float, Qceiling, Qfloor. simpl.
  intros H. rewrite Z.mul_1_r in H.
  rewrite <- (Z.opp_involutive n) at 1.
  rewrite Z.quot_opp_l by lia.
  rewrite Z.quot_div_nonneg by lia. reflexivity.
Qed.

Lemma int_of_float_monotone (x y : Q) :
  x <= y -> (int_of_float x <= int_of_float y)%Z.
Proof.
  intros Hxy.
  destruct (Qlt_le_dec x 0) as [Hx | Hx];
    destruct (Qlt_le_dec y 0) as [Hy | Hy].
  - rewrite !int_of_float_ceiling by lra. apply Qceiling_resp_le. exact Hxy.
  - rewrite (int_of_float_ceiling x) by lra.
    apply Z.le_trans with 0%Z.
    + change 0%Z with (Qceiling 0). apply Qceiling_resp_le. lra.
    + apply int_of_float_nonneg. exact Hy.
  - lra.
  - rewrite !int_of_float_floor by assumption. apply Qfloor_resp_le.
    exact Hxy.
Qed.

Module MinerSyncFacts.
Import MinerSync.












End MinerSyncFacts.

(** * Further properties of the validator *)

(** ** Polling with a request list of another length *)

(** X1.  Given a list of requests, [get_miner_answer] polls as many peers
    as the shorter of the request list and the directory: the i-th request
    goes to the i-th peer, the peers beyond the list are not polled, and
    with an empty request list the result is [None]. *)
Theorem get_miner_answer_truncates
    (S R : Type) (call : S -> MinerInfo -> CallOutcome R)
    (modules_info : dict MinerInfo) (synapses : list S) (w : world) :
  (synapses = [] \/ modules_info = [] ->
   fst (get_miner_answer call modules_info (PerPeer synapses) w) = Ok None)
  /\ (synapses <> [] -> modules_info <> [] ->
      exists l,
        fst (get_miner_answer call modules_info (PerPeer synapses) w)
        = Ok (Some l)
        /\ length l = Nat.min (length synapses) (length modules_info)
        /\ forall i s uid info,
             nth_error synapses i = Some s ->
             nth_error modules_info i = Some (uid, info) ->
             nth_error l i = Some (_get_miner_prediction call s info)).
Proof.
  rewrite get_miner_answer_run. simpl requests. split.
  - intros [-> | ->]; [reflexivity |].
    rewrite answers_nil_directory. reflexivity.
  - intros Hs Hm.
    exists (answers call modules_info synapses).
    assert (Hlen : length (answers call modules_info synapses)
                   = Nat.min (length synapses) (length modules_info)).
    { unfold answers, zip, values.
      rewrite length_map, length_combine, length_map. reflexivity. }
    split; [| split; [exact Hlen |]].
    + destruct (answers call modules_info synapses) eqn:E; [| reflexivity].
      destruct synapses; [congruence |].
      destruct modules_info; [congruence | discriminate].
    + intros i s uid info Hsi Hinfo. unfold answers, values.
      rewrite nth_error_map, nth_error_zip, Hsi, nth_error_map, Hinfo.
      reflexivity.
Qed.

Lemma get_miner_answer_truncates_witness :
  fst (get_miner_answer demo_pool_call demo_modules_info (PerPeer []) world0)
  = Ok None
  /\ exists l,
       fst (get_miner_answer demo_pool_call demo_modules_info
              (PerPeer [demo_pool_synapse]) world0) = Ok (Some l)
       /\ length l = 1%nat.
Proof.
  split.
  - apply (get_miner_answer_truncates _ _ demo_pool_call demo_modules_info
             [] world0). left. reflexivity.
  - destruct (get_miner_answer_truncates _ _ demo_pool_call
                demo_modules_info [demo_pool_synapse] world0) as [_ H].
    destruct H as [l [Hrun [Hlen _]]]; [discriminate | discriminate |].
    exists l. split; [exact Hrun | exact Hlen].
Defined.

(** ** Latency scores *)

Lemma latency_score_decreasing (mn mx t1 t2 : Q) :
  mn <= mx -> t1 < t2 -> latency_score mn mx t2 < latency_score mn mx t1.
Proof.
  intros Hspread Hlt. unfold latency_score.
  assert (Heps : 0 < EPS) by reflexivity.
  assert (Hd : 0 < / (mx - mn + EPS)) by (apply Qinv_lt_0_compat; lra).
  unfold Qdiv.
  assert ((1 # 2) * (t1 - mn) * / (mx - mn + EPS)
          < (1 # 2) * (t2 - mn) * / (mx - mn + EPS)).
  { apply Qmult_lt_compat_r; [exact Hd | lra]. }
  lra.
Qed.

(** X2.  On a non-empty map of elapsed times, [normalize_process_time]
    scores the same peers in the same order, every score lies in
    (0.5, 1], and of two peers the faster one gets the strictly higher
    score. *)
Theorem latency_scores_bounded_and_ordered (process_time_score : dict Q) :
  NoDup (keys process_time_score) ->
  process_time_score <> [] ->
  exists scores,
    normalize_process_time process_time_score = Ok scores
    /\ keys scores = keys process_time_score
    /\ (forall k t, In (k, t) process_time_score ->
        exists s, dict_get scores k = Some s /\ 1 # 2 < s /\ s <= 1)
    /\ (forall k1 t1 s1 k2 t2 s2,
          In (k1, t1) process_time_score ->
          In (k2, t2) process_time_score ->
          dict_get scores k1 = Some s1 ->
          dict_get scores k2 = Some s2 ->
          t1 < t2 -> s2 < s1).
Proof.
  intros Hnd Hne.
  destruct (normalize_process_time_spec process_time_score Hnd Hne)
    as [mn [mx [Hmn [Hmx [Hbounds Hrun]]]]].
  rewrite Forall_forall in Hbounds.
  assert (Hspread : mn <= mx).
  { destruct (Hbounds mn Hmn) as [_ H]. exact H. }
  assert (Hget : forall k t, In (k, t) process_time_score ->
            dict_get (map (fun kv => (fst kv, latency_score mn mx (snd kv)))
                          process_time_score) k
            = Some (latency_score mn mx t)).
  { intros k t Hin.
    apply (dict_get_map_values _ _ (fun kv => latency_score mn mx (snd kv))
             _ _ _ Hnd Hin). }
  eexists. split; [exact Hrun |]. split; [| split].
  - apply (keys_map_values _ _ (fun kv => latency_score mn mx (snd kv))).
  - intros k t Hin. exists (latency_score mn mx t).
    split; [apply Hget; exact Hin |].
    destruct (Hbounds t (in_values _ _ _ _ Hin)) as [Hlo Hhi].
    apply latency_score_bounds; assumption.
  - intros k1 t1 s1 k2 t2 s2 H1 H2 E1 E2 Hlt.
    rewrite (Hget _ _ H1) in E1. rewrite (Hget _ _ H2) in E2.
    injection E1 as <-. injection E2 as <-.
    apply latency_score_decreasing; assumption.
Qed.

Lemma latency_scores_bounded_and_ordered_witness :
  exists scores,
    normalize_process_time [(1%Z, 3 # 10); (2%Z, 7 # 10)] = Ok scores
    /\ keys scores = [1; 2]%Z.
Proof.
  destruct (latency_scores_bounded_and_ordered [(1%Z, 3 # 10); (2%Z, 7 # 10)])
    as [scores [Hrun [Hkeys _]]].
  - repeat constructor; simpl; intros H;
      repeat (destruct H as [H | H]; try discriminate H); exact H.
  - discriminate.
  - exists scores. split; [exact Hrun | exact Hkeys].
Defined.

(** X3.  When all responding peers took the same time, each of them gets
    the latency score 1: the [EPS] in the divisor keeps the division
    defined. *)
Theorem equal_times_all_score_one (process_time_score : dict Q) (t0 : Q) :
  NoDup (keys process_time_score) ->
  process_time_score <> [] ->
  (forall k t, In (k, t) process_time_score -> t == t0) ->
  exists scores,
    normalize_process_time process_time_score = Ok scores
    /\ keys scores = keys process_time_score
    /\ forall k s, dict_get scores k = Some s -> s == 1.
Proof.
  intros Hnd Hne Hsame.
  destruct (normalize_process_time_spec process_time_score Hnd Hne)
    as [mn [mx [Hmn [Hmx [_ Hrun]]]]].
  destruct (in_values_inv _ _ _ Hmn) as [kmn Hkmn].
  destruct (in_values_inv _ _ _ Hmx) as [kmx Hkmx].
  pose proof (Hsame _ _ Hkmn) as Emn. pose proof (Hsame _ _ Hkmx) as Emx.
  eexists. split; [exact Hrun |]. split.
  - apply (keys_map_values _ _ (fun kv => latency_score mn mx (snd kv))).
  - intros k s Hs. apply dict_get_in in Hs. apply in_map_iff in Hs.
    destruct Hs as [[k' t] [E Hin]]. simpl in E. injection E as -> <-.
    pose proof (Hsame _ _ Hin) as Et.
    unfold latency_score. rewrite Emn, Emx, Et.
    setoid_replace (t0 - t0) with 0 by ring.
    unfold Qdiv. ring.
Qed.

Lemma equal_times_all_score_one_witness :
  exists scores,
    normalize_process_time [(1%Z, 3 # 10); (2%Z, 3 # 10)] = Ok scores
    /\ forall k s, dict_get scores k = Some s -> s == 1.
Proof.
  destruct (equal_times_all_score_one [(1%Z, 3 # 10); (2%Z, 3 # 10)] (3 # 10))
    as [scores [Hrun [_ Hone]]].
  - repeat constructor; simpl; intros H;
      repeat (destruct H as [H | H]; try discriminate H); exact H.
  - discriminate.
  - intros k t H. simpl in H.
    repeat (destruct H as [H | H]; [inversion H; reflexivity |]).
    contradiction.
  - exists scores. split; [exact Hrun | exact Hone].
Defined.

(** ** The pool-event round *)

Lemma accuracy_transform_monotone (a b : Q) :
  a <= b -> accuracy_transform a <= accuracy_transform b.
Proof.
  intros Hab. destruct (Qle_lt_or_eq _ _ Hab) as [Hlt | Heq].
  - apply Qlt_le_weak. apply accuracy_transform_increasing. exact Hlt.
  - rewrite !accuracy_transform_cube, Heq. apply Qle_refl.
Qed.

Lemma accuracy_transform_range (a : Q) :
  0 <= a -> a <= 1 ->
  -27 <= accuracy_transform a /\ accuracy_transform a <= 1.
Proof.
  intros H0 H1. split.
  - assert (E : accuracy_transform 0 == -27) by reflexivity.
    rewrite <- E. apply accuracy_transform_monotone. exact H0.
  - assert (E : accuracy_transform 1 == 1) by reflexivity.
    rewrite <- E. apply accuracy_transform_monotone. exact H1.
Qed.

Section PoolRound.
Variable rnd : nat -> nat.
Variable block_range : Z -> Z -> Z * Z.
Variable events : list string -> Z -> Z -> list EventRecord.

(** On a non-empty record list the trials run to an answer, which is
    [False] or a fraction between the count so far and the count so far
    plus the trials left, over 10. *)
Lemma spot_check_total (n : nat) (pool : string) (lo hi : Z)
    (x : EventRecord) (rest : list EventRecord) (c : Z) (w : world) :
  (0 <= c)%Z ->
  exists a w',
    spot_check rnd events n pool lo hi (x :: rest) c w = (Ok a, w')
    /\ 0 <= as_float a
    /\ as_float a <= inject_Z (c + Z.of_nat n) / 10.
Proof.
  revert c w. induction n as [| n IH]; intros c w Hc.
  - exists (PyFloat (inject_Z c / inject_Z (Z.of_nat ANSWER_CHECK_COUNT))), w.
    split; [reflexivity |]. simpl as_float.
    assert (H0 : 0 <= inject_Z c)
      by (change 0 with (inject_Z 0); rewrite <- Zle_Qle; exact Hc).
    change (inject_Z (Z.of_nat ANSWER_CHECK_COUNT)) with 10.
    rewrite Z.add_0_r. split; [| apply Qle_refl].
    apply Qle_shift_div_l; [reflexivity | lra].
  - rewrite spot_check_unfold. unfold bindM. rewrite random_choice_run.
    set (r := nth _ _ _).
    assert (Hbound : 0 <= inject_Z (c + Z.of_nat (S n)) / 10).
    { apply Qle_shift_div_l; [reflexivity |].
      setoid_replace (0 * 10) with (inject_Z 0) by reflexivity.
      rewrite <- Zle_Qle. lia. }
    destruct (block_number r) as [bn |].
    + destruct ((bn <? lo)%Z || (bn >? hi)%Z).
      * exists PyFalse, (tick w). split; [reflexivity |].
        split; [apply Qle_refl | exact Hbound].
      * destruct (IH (c + (if okay events pool bn r then 1 else 0))%Z (tick w))
          as [a [w' [Hrun [Hlo Hhi]]]].
        { destruct (okay events pool bn r); lia. }
        exists a, w'. split; [exact Hrun |]. split; [exact Hlo |].
        eapply Qle_trans; [exact Hhi |].
        apply Qmult_le_compat_r; [| discriminate].
        rewrite <- Zle_Qle. destruct (okay events pool bn r); lia.
    + exists PyFalse, (tick w). split; [reflexivity |].
      split; [apply Qle_refl | exact Hbound].
Qed.

(** The accuracy score of an answer: 0 without an answer object, an
    [IndexError] on an empty record list, a value in [-27, 1] otherwise. *)
Lemma check_pool_event_accuracy_cases (synapse : PoolEventSynapse)
    (miner_answer : PoolEventResponse) (w : world) :
  (data miner_answer = Some [] /\
   check_pool_event_accuracy rnd block_range events synapse
     (Some miner_answer) w = (Raise IndexError, w))
  \/ (data miner_answer <> Some [] /\
      exists q w',
        check_pool_event_accuracy rnd block_range events synapse
          (Some miner_answer) w = (Ok q, w')
        /\ -27 <= q /\ q <= 1).
Proof.
  unfold check_pool_event_accuracy, check_miner_answer_pool_event.
  destruct (block_range _ _) as [lo hi].
  destruct (data miner_answer) as [[| x rest] |].
  - left. split; reflexivity.
  - right. split; [discriminate |].
    destruct (spot_check_total ANSWER_CHECK_COUNT (pool_address synapse)
                lo hi x rest 0 w) as [a [w' [Hrun [Hlo Hhi]]]]; [lia |].
    exists (accuracy_transform (as_float a)), w'.
    unfold bindM. rewrite Hrun. split; [reflexivity |].
    apply accuracy_transform_range; [exact Hlo |].
    eapply Qle_trans; [exact Hhi |]. discriminate.
  - right. split; [discriminate |].
    exists (accuracy_transform 0), w. split; [reflexivity |].
    split; discriminate.
Qed.

End PoolRound.

Lemma dict_set_keys_in (V : Type) (d : dict V) (k k' : Z) (v : V) :
  In k' (keys (dict_set d k v)) <-> k' = k \/ In k' (keys d).
Proof.
  induction d as [| [k0 v0] d IH]; simpl.
  - intuition.
  - destruct (Z.eqb_spec k k0) as [-> | Hne]; simpl.
    + intuition.
    + rewrite IH. intuition.
Qed.

Lemma dict_set_nodup (V : Type) (d : dict V) (k : Z) (v : V) :
  NoDup (keys d) -> NoDup (keys (dict_set d k v)).
Proof.
  induction d as [| [k0 v0] d IH]; simpl; intros Hnd.
  - constructor; [intros [] | constructor].
  - inversion Hnd as [| ? ? Hk0 Hnd']; subst.
    destruct (Z.eqb_spec k k0) as [-> | Hne]; simpl.
    + constructor; assumption.
    + constructor; [| apply IH; exact Hnd'].
      intros Hin. apply dict_set_keys_in in Hin.
      destruct Hin as [E | Hin]; [congruence | contradiction].
Qed.

Lemma dict_set_forall (V : Type) (P : Z * V -> Prop) (d : dict V) (k : Z)
    (v : V) :
  Forall P d -> P (k, v) -> Forall P (dict_set d k v).
Proof.
  induction 1 as [| [k0 v0] d H0 Hd IH]; simpl; intros HP.
  - constructor; [exact HP | constructor].
  - destruct (Z.eqb k k0); constructor; auto.
Qed.

Lemma dict_get_of_key (V : Type) (d : dict V) (k : Z) :
  In k (keys d) -> exists v, dict_get d k = Some v.
Proof.
  induction d as [| [k0 v0] d IH]; simpl; intros Hin; [contradiction |].
  destruct (Z.eqb_spec k k0) as [-> | Hne]; [eauto |].
  destruct Hin as [E | Hin]; [congruence | apply IH; exact Hin].
Qed.

(** The comprehension of line 489, over keys present in both maps. *)
Lemma average_items (acc pts : dict Q) (l : list Z) :
  (forall k, In k l -> In k (keys acc) /\ In k (keys pts)) ->
  exists items,
    mapM (fun key => a <- dict_item acc key ;;
                     p <- dict_item pts key ;;
                     Ok (key, (a + p) / 2)) l = Ok items
    /\ keys items = l
    /\ forall k v, In (k, v) items ->
         exists a p, dict_get acc k = Some a /\ dict_get pts k = Some p
                     /\ v = (a + p) / 2.
Proof.
  induction l as [| k l IH]; intros Hl.
  - exists []. split; [reflexivity |]. split; [reflexivity |].
    intros k v [].
  - destruct IH as [items [Hrun [Hkeys Hitems]]].
    { intros k' Hk'. apply Hl. right. exact Hk'. }
    destruct (Hl k (or_introl eq_refl)) as [Ha Hp].
    destruct (dict_get_of_key _ _ _ Ha) as [a Ea].
    destruct (dict_get_of_key _ _ _ Hp) as [p Ep].
    exists ((k, (a + p) / 2) :: items).
    split; [| split].
    + rewrite mapM_cons. unfold dict_item at 1 2. rewrite Ea, Ep.
      cbn [bind]. rewrite Hrun. reflexivity.
    + change (keys ((k, (a + p) / 2) :: items)) with (k :: keys items).
      rewrite Hkeys. reflexivity.
    + intros k' v [[= <- <-] | Hin]; [eauto | apply Hitems; exact Hin].
Qed.

Section PoolRoundLoop.
Variable rnd : nat -> nat.
Variable block_range : Z -> Z -> Z * Z.
Variable events : list string -> Z -> Z -> list EventRecord.

Abbreviation pool_loop :=
  (score_pool_events_loop rnd block_range events).

Lemma pool_loop_some (synapse : PoolEventSynapse) (key : Z)
    (a : MinerAnswer PoolEventResponse) rest (pts acc : dict Q) :
  pool_loop ((synapse, (key, Some a)) :: rest) pts acc =
  (score <~ check_pool_event_accuracy rnd block_range events synapse
              (Some (answer_data a)) ;;
   if Qle_bool score 1
   then pool_loop rest (dict_set pts key (process_time a))
          (dict_set acc key score)
   else throw AssertionError).
Proof. reflexivity. Qed.

(** An empty record list somewhere among the answers stops the loop with
    [IndexError]. *)
Lemma pool_loop_index_error pairs (pts acc : dict Q) (w : world) :
  (exists s k a, In (s, (k, Some a)) pairs /\ empty_answer a) ->
  fst (pool_loop pairs pts acc w) = Raise IndexError.
Proof.
  revert pts acc w. induction pairs as [| [s [k [a |]]] pairs IH];
    intros pts acc w [s0 [k0 [a0 [Hin Hempty]]]].
  - contradiction.
  - rewrite pool_loop_some. unfold bindM.
    destruct (check_pool_event_accuracy_cases rnd block_range events s
                (answer_data a) w)
      as [[_ Hraise] | [Hfull [q [w' [Hrun [_ Hq]]]]]].
    + rewrite Hraise. reflexivity.
    + rewrite Hrun.
      assert (E : Qle_bool q 1 = true) by (apply Qle_bool_iff; exact Hq).
      rewrite E. apply IH.
      destruct Hin as [[= <- <- <-] | Hin]; [contradiction |].
      exists s0, k0, a0. auto.
  - simpl. apply IH. destruct Hin as [Hin | Hin]; [discriminate |].
    exists s0, k0, a0. auto.
Qed.

(** Without one, the loop ends with the two score maps over the same
    keys: the responding peers. *)
Lemma pool_loop_ok pairs (pts acc : dict Q) (w : world) :
  (forall s k a, In (s, (k, Some a)) pairs -> ~ empty_answer a) ->
  keys pts = keys acc ->
  NoDup (keys pts) ->
  Forall (fun kv => -27 <= snd kv /\ snd kv <= 1) acc ->
  exists pts' acc' w',
    pool_loop pairs pts acc w = (Ok (pts', acc'), w')
    /\ keys pts' = keys acc'
    /\ NoDup (keys pts')
    /\ Forall (fun kv => -27 <= snd kv /\ snd kv <= 1) acc'
    /\ (forall k0, In k0 (keys pts') <->
          In k0 (keys pts) \/ exists s a, In (s, (k0, Some a)) pairs).
Proof.
  revert pts acc w. induction pairs as [| [s [k [a |]]] pairs IH];
    intros pts acc w Hfull Hkeys Hnd Hacc.
  - exists pts, acc, w. repeat (split; [assumption || reflexivity |]).
    intros k0. split; [auto |]. intros [H | [s [a []]]]. exact H.
  - rewrite pool_loop_some. unfold bindM.
    destruct (check_pool_event_accuracy_cases rnd block_range events s
                (answer_data a) w)
      as [[Hempty _] | [_ [q [w1 [Hrun [Hlo Hhi]]]]]].
    + exfalso. apply (Hfull s k a (or_introl eq_refl)). exact Hempty.
    + rewrite Hrun.
      assert (E : Qle_bool q 1 = true) by (apply Qle_bool_iff; exact Hhi).
      rewrite E.
      destruct (IH (dict_set pts k (process_time a)) (dict_set acc k q) w1)
        as [pts' [acc' [w' [Hloop [Hk' [Hnd' [Hacc' Hin']]]]]]].
      * intros s0 k0 a0 Hin. apply (Hfull s0 k0 a0). right. exact Hin.
      * apply keys_dict_set. exact Hkeys.
      * apply dict_set_nodup. exact Hnd.
      * apply dict_set_forall; [exact Hacc | simpl; auto].
      * exists pts', acc', w'. repeat (split; [assumption |]).
        intros k0. rewrite Hin', dict_set_keys_in. split.
        -- intros [[-> | H] | [s0 [a0 H]]].
           ++ right. exists s, a. left. reflexivity.
           ++ left. exact H.
           ++ right. exists s0, a0. right. exact H.
        -- intros [H | [s0 [a0 [[= <- <- <-] | H]]]].
           ++ left. right. exact H.
           ++ left. left. reflexivity.
           ++ right. exists s0, a0. exact H.
  - destruct (IH pts acc w) as [pts' [acc' [w' [Hloop [Hk' [Hnd' [Hacc' Hin']]]]]]];
      try assumption.
    { intros s0 k0 a0 Hin. apply (Hfull s0 k0 a0). right. exact Hin. }
    exists pts', acc', w'. split; [exact Hloop |].
    repeat (split; [assumption |]).
    intros k0. rewrite Hin'. split.
    + intros [H | [s0 [a0 H]]]; [left; exact H |].
      right. exists s0, a0. right. exact H.
    + intros [H | [s0 [a0 [H | H]]]]; [left; exact H | discriminate |].
      right. exists s0, a0. exact H.
Qed.

End PoolRoundLoop.

(** X4.  If some responding peer answers with an empty record list,
    [score_pool_events] raises [IndexError] ([random.choice] on an empty
    list) and scores nobody. *)
Theorem score_pool_events_index_error
    (rnd : nat -> nat) (block_range : Z -> Z -> Z * Z)
    (events : list string -> Z -> Z -> list EventRecord)
    (synapses : list PoolEventSynapse)
    (miner_results : list (Z * option (MinerAnswer PoolEventResponse)))
    (w : world) :
  (exists s k a,
     In (s, (k, Some a)) (zip synapses miner_results) /\ empty_answer a) ->
  fst (score_pool_events rnd block_range events synapses miner_results w)
  = Raise IndexError.
Proof.
  intros Hex. unfold score_pool_events, bindM.
  pose proof (pool_loop_index_error rnd block_range events
                (zip synapses miner_results) [] [] w Hex) as Hloop.
  destruct (score_pool_events_loop _ _ _ _ _ _ w) as [[scores | e] w'];
    simpl in Hloop; [discriminate |].
  simpl. injection Hloop as ->. reflexivity.
Qed.

Lemma score_pool_events_index_error_witness :
  fst (score_pool_events demo_rnd demo_block_range demo_chain_events
         [demo_pool_synapse]
         [(1%Z, Some {| answer_data := {| data := Some [];
                                          overall_data_hash := "0xhash" |};
                        process_time := 2 # 10 |})] world0)
  = Raise IndexError.
Proof.
  apply score_pool_events_index_error.
  eexists. eexists. eexists. split; [left; reflexivity | reflexivity].
Defined.

(** X5.  If no responding peer answers with an empty record list,
    [score_pool_events] returns a score map: it raises neither the
    [AssertionError] of line 479 nor a [KeyError]; the map has one entry
    for each peer that answered and none for the others, and every score
    lies in (-13.25, 1]. *)
Theorem score_pool_events_scores_responders
    (rnd : nat -> nat) (block_range : Z -> Z -> Z * Z)
    (events : list string -> Z -> Z -> list EventRecord)
    (synapses : list PoolEventSynapse)
    (miner_results : list (Z * option (MinerAnswer PoolEventResponse)))
    (w : world) :
  (forall s k a,
     In (s, (k, Some a)) (zip synapses miner_results) -> ~ empty_answer a) ->
  exists scores,
    fst (score_pool_events rnd block_range events synapses miner_results w)
    = Ok scores
    /\ NoDup (keys scores)
    /\ (forall k, In k (keys scores) <->
          exists s a, In (s, (k, Some a)) (zip synapses miner_results))
    /\ (forall k v, dict_get scores k = Some v ->
          - (53 # 4) < v /\ v <= 1).
Proof.
  intros Hfull. unfold score_pool_events, bindM.
  destruct (pool_loop_ok rnd block_range events (zip synapses miner_results)
              [] [] w Hfull eq_refl (NoDup_nil _) (Forall_nil _))
    as [pts [acc [w' [Hloop [Hkeys [Hnd [Hacc Hin]]]]]]].
  rewrite Hloop.
  assert (Hresp : forall k, In k (keys pts) <->
            exists s a, In (s, (k, Some a)) (zip synapses miner_results)).
  { intros k. rewrite Hin. simpl. intuition. }
  destruct pts as [| e pts'] eqn:Epts.
  - exists []. simpl. split; [reflexivity |]. split; [constructor |].
    split; [exact Hresp |]. intros k v H. discriminate.
  - rewrite <- Epts in *. clear Hin.
    replace (Nat.eqb (length pts) 0) with false by (rewrite Epts; reflexivity).
    destruct (normalize_process_time_spec pts Hnd)
      as [mn [mx [_ [_ [Hbounds Hnorm]]]]]; [rewrite Epts; discriminate |].
    unfold lift at 1. rewrite Hnorm.
    set (lat := map (fun kv => (fst kv, latency_score mn mx (snd kv))) pts).
    assert (Hlat_keys : keys lat = keys pts)
      by apply (keys_map_values _ _ (fun kv => latency_score mn mx (snd kv))).
    destruct (average_items acc lat (keys acc)) as [items [Hrun [Hik Hitems]]].
    { intros k Hk. split; [exact Hk |]. rewrite Hlat_keys, Hkeys. exact Hk. }
    unfold lift. rewrite Hrun. unfold ret. simpl fst.
    assert (Hnd_items : NoDup (keys items)) by (rewrite Hik, <- Hkeys; exact Hnd).
    rewrite dict_of_items_nodup by exact Hnd_items.
    exists items. split; [reflexivity |]. split; [exact Hnd_items |].
    split.
    + intros k. rewrite Hik, <- Hkeys. apply Hresp.
    + intros k v Hget. apply dict_get_in in Hget.
      destruct (Hitems _ _ Hget) as [a [p [Ha [Hp ->]]]].
      apply dict_get_in in Ha. apply dict_get_in in Hp.
      rewrite Forall_forall in Hacc. destruct (Hacc _ Ha) as [Hlo Hhi].
      simpl in Hlo, Hhi.
      unfold lat in Hp. apply in_map_iff in Hp.
      destruct Hp as [[k' t] [E Ht]]. simpl in E. injection E as _ <-.
      rewrite Forall_forall in Hbounds.
      destruct (Hbounds t (in_values _ _ _ _ Ht)) as [Ht1 Ht2].
      destruct (latency_score_bounds mn mx t Ht1 Ht2) as [Hp1 Hp2].
      split.
      * apply Qlt_shift_div_l; [reflexivity | lra].
      * apply Qle_shift_div_r; [reflexivity | lra].
Qed.

Lemma score_pool_events_scores_responders_witness :
  exists scores,
    fst (score_pool_events demo_rnd demo_block_range demo_chain_events
           [demo_pool_synapse; demo_pool_synapse]
           [(1%Z, Some {| answer_data := demo_good_answer;
                          process_time := 2 # 10 |});
            (2%Z, None)] world0) = Ok scores
    /\ NoDup (keys scores).
Proof.
  destruct (score_pool_events_scores_responders demo_rnd demo_block_range
              demo_chain_events [demo_pool_synapse; demo_pool_synapse]
              [(1%Z, Some {| answer_data := demo_good_answer;
                             process_time := 2 # 10 |});
               (2%Z, None)] world0) as [scores [Hrun [Hnd _]]].
  - intros s k a H. simpl in H.
    destruct H as [H | [H | []]]; [| discriminate H].
    injection H as _ _ <-. discriminate.
  - exists scores. split; [exact Hrun | exact Hnd].
Defined.

(** ** Health scores: edge cases and range *)

Lemma valid_results_keys_in_conv (R : Type)
    (miner_results : list (Z * option (MinerAnswer R))) (k : Z)
    (a : MinerAnswer R) :
  In (k, Some a) miner_results -> In k (keys (valid_results miner_results)).
Proof.
  intros Hin. apply valid_results_in in Hin. unfold keys.
  apply in_map_iff. exists (k, a). auto.
Qed.

(** X6.  [score_health_check] returns the empty map when no peer answered,
    and raises [ZeroDivisionError] when the largest reported
    [time_completed] is 0. *)
Theorem score_health_check_edges (today_timestamp : Q)
    (miner_results : list (Z * option (MinerAnswer HealthCheckResponse))) :
  NoDup (map fst miner_results) ->
  ((forall k, In k (map fst miner_results) -> In (k, None) miner_results) ->
   score_health_check today_timestamp miner_results = Ok [])
  /\ ((exists k a, In (k, Some a) miner_results
                   /\ time_completed (answer_data a) = 0%Z) ->
      (forall k a, In (k, Some a) miner_results ->
                   (time_completed (answer_data a) <= 0)%Z) ->
      score_health_check today_timestamp miner_results
      = Raise ZeroDivisionError).
Proof.
  intros Hnd. split.
  - intros Hnone. unfold score_health_check.
    destruct (valid_results miner_results) as [| [k a] rest] eqn:E;
      [reflexivity |].
    exfalso.
    assert (Hin : In (k, a) (valid_results miner_results))
      by (rewrite E; left; reflexivity).
    apply valid_results_in in Hin.
    assert (Hk : In k (map fst miner_results)).
    { apply in_map_iff. exists (k, Some a). auto. }
    apply (valid_results_skip_none _ _ k Hnd (Hnone k Hk)).
    apply valid_results_keys_in_conv with (a := a). exact Hin.
  - intros [k [a [Hin Hzero]]] Hall.
    destruct (score_health_check_spec today_timestamp miner_results Hnd)
      as [mx [Hmx_in [Hmax [_ Hraise]]]].
    { intros E. apply valid_results_in in Hin. rewrite E in Hin.
      contradiction. }
    apply Hraise.
    apply in_map_iff in Hmx_in. destruct Hmx_in as [[k' a'] [E Hin']].
    simpl in E. apply valid_results_in in Hin'.
    pose proof (Hall _ _ Hin') as Hle.
    rewrite Forall_forall in Hmax.
    apply valid_results_in in Hin. specialize (Hmax _ Hin). simpl in Hmax.
    lia.
Qed.

Lemma score_health_check_edges_witness :
  score_health_check 1730000000 [(0%Z, None)] = Ok []
  /\ score_health_check 1730000000 [(1%Z, Some (health_answer 0))]
     = Raise ZeroDivisionError.
Proof.
  split.
  - destruct (score_health_check_edges 1730000000 [(0%Z, None)]) as [H _].
    + repeat constructor. intros [].
    + apply H. intros k [<- | []]. left. reflexivity.
  - destruct (score_health_check_edges 1730000000
                [(1%Z, Some (health_answer 0))]) as [_ H].
    + repeat constructor. intros [].
    + apply H.
      * exists 1%Z, (health_answer 0). split; [left |]; reflexivity.
      * intros k a [[= _ <-] | []]. simpl. lia.
Defined.

Lemma recency_range (today_timestamp : Q) (r : HealthCheckResponse) :
  inject_Z (time_completed r) <= today_timestamp ->
  0 <= recency today_timestamp r /\ recency today_timestamp r <= 1.
Proof.
  intros Hpast. unfold recency.
  set (x := (inject_Z (10 * DAY_SECONDS + time_completed r) - today_timestamp)
            / inject_Z DAY_SECONDS / 10).
  assert (Hx : x <= 1).
  { unfold x. apply Qle_shift_div_r; [reflexivity |].
    apply Qle_shift_div_r; [reflexivity |].
    rewrite inject_Z_plus.
    change (inject_Z (10 * DAY_SECONDS)) with (1 * 10 * inject_Z DAY_SECONDS).
    lra. }
  destruct (Qmax_cases 0 x) as [[-> H] | [-> H]]; split; lra.
Qed.

(** X7.  A peer that answers the health round with a positive timestamp
    not later than the validator's clock gets a health score in (0, 1]. *)
Theorem health_score_range (today_timestamp : Q)
    (miner_results : list (Z * option (MinerAnswer HealthCheckResponse)))
    (k : Z) (a : MinerAnswer HealthCheckResponse) :
  NoDup (map fst miner_results) ->
  In (k, Some a) miner_results ->
  (0 < time_completed (answer_data a))%Z ->
  inject_Z (time_completed (answer_data a)) <= today_timestamp ->
  exists scores s,
    score_health_check today_timestamp miner_results = Ok scores
    /\ dict_get scores k = Some s
    /\ 0 < s /\ s <= 1.
Proof.
  intros Hnd Hin Hpos Hpast.
  apply valid_results_in in Hin.
  pose proof (valid_results_nodup _ _ Hnd) as Hkeys.
  destruct (score_health_check_spec today_timestamp miner_results Hnd)
    as [mx [_ [Hmax [Hok _]]]].
  { intros E. rewrite E in Hin. contradiction. }
  rewrite Forall_forall in Hmax. pose proof (Hmax _ Hin) as Hle.
  simpl in Hle.
  exists (map (fun kv => (fst kv, health_blend mx today_timestamp
                                    (answer_data (snd kv))))
              (valid_results miner_results)).
  exists (health_blend mx today_timestamp (answer_data a)).
  split; [apply Hok; lia |].
  split; [apply (dict_get_map_values _ _
                   (fun kv => health_blend mx today_timestamp
                                (answer_data (snd kv))) _ _ _ Hkeys Hin) |].
  destruct (recency_range today_timestamp (answer_data a) Hpast) as [Hr0 Hr1].
  assert (Hmx : 0 < inject_Z mx)
    by (change 0 with (inject_Z 0); rewrite <- Zlt_Qlt; lia).
  assert (Ha0 : 0 < inject_Z (time_completed (answer_data a)) / inject_Z mx).
  { apply Qlt_shift_div_l; [exact Hmx |].
    setoid_replace (0 * inject_Z mx) with (inject_Z 0) by ring.
    rewrite <- Zlt_Qlt. exact Hpos. }
  assert (Ha1 : inject_Z (time_completed (answer_data a)) / inject_Z mx <= 1).
  { apply Qle_shift_div_r; [exact Hmx |].
    setoid_replace (1 * inject_Z mx) with (inject_Z mx) by ring.
    rewrite <- Zle_Qle. exact Hle. }
  unfold health_blend. split; lra.
Qed.

Lemma health_score_range_witness :
  exists scores s,
    score_health_check 1730000000 [(1%Z, Some (health_answer 1729000000))]
    = Ok scores
    /\ dict_get scores 1%Z = Some s /\ 0 < s /\ s <= 1.
Proof.
  apply (health_score_range 1730000000
           [(1%Z, Some (health_answer 1729000000))] 1%Z
           (health_answer 1729000000)).
  - repeat constructor. intros [].
  - left. reflexivity.
  - reflexivity.
  - discriminate.
Defined.

(** ** The requests drawn from the health answers *)

Section Draws.
Variable rnd : nat -> nat.

Lemma random_randint_cases (a b : Z) (w : world) :
  ((b < a)%Z /\ random_randint rnd a b w = (Raise ValueError, w))
  \/ ((a <= b)%Z /\ exists z,
        random_randint rnd a b w = (Ok z, tick w) /\ (a <= z <= b)%Z).
Proof.
  unfold random_randint. destruct (Z.ltb_spec b a) as [H | H].
  - left. auto.
  - right. split; [exact H |]. eexists. split; [reflexivity |].
    pose proof (Z.mod_pos_bound (Z.of_nat (rnd (draws w))) (b - a + 1)).
    lia.
Qed.

Lemma random_choice_cases (A : Type) (seq : list A) (w : world) :
  (seq = [] /\ random_choice rnd seq w = (Raise IndexError, w))
  \/ (seq <> [] /\ exists x,
        random_choice rnd seq w = (Ok x, tick w) /\ In x seq).
Proof.
  destruct seq as [| x seq]; [left; auto |].
  right. split; [discriminate |]. eexists. split; [reflexivity |].
  apply nth_In. apply Nat.mod_upper_bound. discriminate.
Qed.

End Draws.

(** X8.  The pool-event requests [get_pool_event_synapses] returns are one
    per answering peer, in order; each asks for one whole day, aligned on
    [START_TIMESTAMP], that starts no later than the peer's
    [time_completed], on a pool the peer reported.  If an answering peer
    reports a [time_completed] before [START_TIMESTAMP] or no pool at all,
    the function raises instead. *)
Theorem pool_event_synapses_fit_health_answers
    (rnd : nat -> nat) (START_TIMESTAMP : Z)
    (healthy_data : list (option (MinerAnswer HealthCheckResponse)))
    (w : world) :
  (forall synapses,
     fst (get_pool_event_synapses rnd START_TIMESTAMP healthy_data w)
     = Ok synapses ->
     Forall2 (pool_window START_TIMESTAMP) (responses healthy_data) synapses)
  /\ (Exists (no_pool_window START_TIMESTAMP) (responses healthy_data) ->
      raises (fst (get_pool_event_synapses rnd START_TIMESTAMP
                     healthy_data w))).
Proof.
  revert w. induction healthy_data as [| [a |] rest IH]; intros w.
  - split.
    + intros synapses [= <-]. constructor.
    + intros H. inversion H.
  - destruct (IH w) as [_ IHbad]. simpl. unfold bindM.
    set (days := ((time_completed (answer_data a) - START_TIMESTAMP)
                  / DAY_SECONDS)%Z).
    assert (Hdays : (days * DAY_SECONDS
                     <= time_completed (answer_data a) - START_TIMESTAMP)%Z).
    { unfold days. rewrite Z.mul_comm. apply Z.mul_div_le. reflexivity. }
    assert (Hneg : (days < 0 <->
                    time_completed (answer_data a) < START_TIMESTAMP)%Z).
    { unfold days, DAY_SECONDS. split; intros H.
      - apply Z.nle_gt. intros Hle.
        assert (0 <= (time_completed (answer_data a) - START_TIMESTAMP)
                     / 86400)%Z by (apply Z.div_pos; lia).
        lia.
      - apply Z.div_lt_upper_bound; lia. }
    destruct (random_randint_cases rnd 0 days w)
      as [[Hlt ->] | [Hge [pick [-> Hpick]]]].
    + split; [intros synapses H; discriminate |].
      intros _. exists ValueError. reflexivity.
    + destruct (random_choice_cases rnd _ (pool_addresses (answer_data a))
                  (tick w)) as [[Hnil ->] | [Hpools [addr [-> Haddr]]]].
      * split; [intros synapses H; discriminate |].
        intros _. exists IndexError. reflexivity.
      * destruct (IH (tick (tick w))) as [IHok IHraise].
        destruct (get_pool_event_synapses rnd START_TIMESTAMP rest
                    (tick (tick w))) as [[tl | e] w'] eqn:Erest;
          simpl in IHok, IHraise |- *.
        -- split.
           ++ intros synapses [= <-]. constructor; [| apply IHok; reflexivity].
              unfold pool_window. simpl. unfold DAY_SECONDS in *.
              repeat split; try lia; try assumption.
              replace (pick * 86400 + START_TIMESTAMP - START_TIMESTAMP)%Z
                with (pick * 86400)%Z by lia.
              apply Z.mod_mul. discriminate.
           ++ intros Hex. inversion Hex as [? ? Hbad | ? ? Hlater]; subst.
              ** exfalso. destruct Hbad as [Hbad | Hbad];
                   [lia | contradiction].
              ** destruct (IHraise Hlater) as [e He]. discriminate.
        -- split; [intros synapses H; discriminate |].
           intros _. exists e. reflexivity.
  - simpl. apply IH.
Qed.

Lemma pool_event_synapses_fit_health_answers_witness :
  (exists synapses,
     fst (get_pool_event_synapses demo_rnd demo_START_TIMESTAMP
            [None; Some demo_fresh_answer] world0) = Ok synapses
     /\ Forall2 (pool_window demo_START_TIMESTAMP)
                [answer_data demo_fresh_answer] synapses)
  /\ raises (fst (get_pool_event_synapses demo_rnd demo_START_TIMESTAMP
                    [Some (health_answer 0)] world0)).
Proof.
  split.
  - eexists. split; [reflexivity |].
    apply (pool_event_synapses_fit_health_answers demo_rnd
             demo_START_TIMESTAMP [None; Some demo_fresh_answer] world0).
    reflexivity.
  - apply (pool_event_synapses_fit_health_answers demo_rnd
             demo_START_TIMESTAMP [Some (health_answer 0)] world0).
    apply Exists_cons_hd. left. reflexivity.
Defined.

(** X9.  The signal requests [get_signal_event_synapse] returns are one
    per answering peer, in order; each timestamp lies a whole number of
    five-minute steps after [START_TIMESTAMP] and not after the peer's
    [time_completed], on a pool the peer reported.  If an answering peer
    reports a [time_completed] that is not a whole number of five-minute
    steps after [START_TIMESTAMP], or lies before it, or reports no pool,
    the function raises instead. *)
Theorem signal_event_synapses_fit_health_answers
    (rnd : nat -> nat) (START_TIMESTAMP : Z)
    (healthy_data : list (option (MinerAnswer HealthCheckResponse)))
    (w : world) :
  (forall synapses,
     fst (get_signal_event_synapse rnd START_TIMESTAMP healthy_data w)
     = Ok synapses ->
     Forall2 (signal_instant START_TIMESTAMP) (responses healthy_data)
             synapses)
  /\ (Exists (no_signal_instant START_TIMESTAMP) (responses healthy_data) ->
      raises (fst (get_signal_event_synapse rnd START_TIMESTAMP
                     healthy_data w))).
Proof.
  revert w. induction healthy_data as [| [a |] rest IH]; intros w.
  - split.
    + intros synapses [= <-]. constructor.
    + intros H. inversion H.
  - cbn [get_signal_event_synapse].
    set (seconds := (time_completed (answer_data a) - START_TIMESTAMP)%Z).
    destruct (Z.eqb_spec (seconds mod (5 * 60)) 0) as [Hmod | Hmod];
      cbn [negb].
    2: { split; [intros synapses H; discriminate |].
         intros _. exists ValueError. reflexivity. }
    unfold bindM.
    assert (Hsteps : (seconds / (5 * 60) * 300 = seconds)%Z).
    { pose proof (Z.div_mod seconds (5 * 60)) as H.
      change (5 * 60)%Z with 300%Z in *. lia. }
    destruct (random_randint_cases rnd 0 (seconds / (5 * 60)) w)
      as [[Hlt ->] | [Hge [pick [-> Hpick]]]].
    + split; [intros synapses H; discriminate |].
      intros _. exists ValueError. reflexivity.
    + destruct (random_choice_cases rnd _ (pool_addresses (answer_data a))
                  (tick w)) as [[Hnil ->] | [Hpools [addr [-> Haddr]]]].
      * split; [intros synapses H; discriminate |].
        intros _. exists IndexError. reflexivity.
      * destruct (IH (tick (tick w))) as [IHok IHraise].
        destruct (get_signal_event_synapse rnd START_TIMESTAMP rest
                    (tick (tick w))) as [[tl | e] w'] eqn:Erest;
          simpl in IHok, IHraise |- *.
        -- split.
           ++ intros synapses [= <-]. constructor; [| apply IHok; reflexivity].
              unfold signal_instant. simpl. unfold seconds in *.
              repeat split; try lia; try assumption.
              replace (pick * 300 + START_TIMESTAMP - START_TIMESTAMP)%Z
                with (pick * 300)%Z by lia.
              apply Z.mod_mul. discriminate.
           ++ intros Hex. inversion Hex as [? ? Hbad | ? ? Hlater]; subst.
              ** exfalso. unfold seconds in *.
                 change (5 * 60)%Z with 300%Z in *.
                 destruct Hbad as [Hbad | [Hbad | Hbad]];
                   [contradiction | lia | contradiction].
              ** destruct (IHraise Hlater) as [e He]. discriminate.
        -- split; [intros synapses H; discriminate |].
           intros _. exists e. reflexivity.
  - simpl. apply IH.
Qed.

Lemma signal_event_synapses_fit_health_answers_witness :
  (exists synapses,
     fst (get_signal_event_synapse demo_rnd demo_START_TIMESTAMP
            [None; Some demo_fresh_answer] world0) = Ok synapses
     /\ Forall2 (signal_instant demo_START_TIMESTAMP)
                [answer_data demo_fresh_answer] synapses)
  /\ raises (fst (get_signal_event_synapse demo_rnd demo_START_TIMESTAMP
                    [Some (health_answer 1730000001)] world0)).
Proof.
  split.
  - eexists. split; [reflexivity |].
    apply (signal_event_synapses_fit_health_answers demo_rnd
             demo_START_TIMESTAMP [None; Some demo_fresh_answer] world0).
    reflexivity.
  - apply (signal_event_synapses_fit_health_answers demo_rnd
             demo_START_TIMESTAMP [Some (health_answer 1730000001)] world0).
    apply Exists_cons_hd. left. discriminate.
Defined.

(** ** A validation step: what it can end in *)

Section StepOutcomes.
Variable rnd : nat -> nat.
Variable START_TIMESTAMP : Z.
Variable today_timestamp : Q.
Variable block_range : Z -> Z -> Z * Z.
Variable events : list string -> Z -> Z -> list EventRecord.
Variable signals : string -> Z -> string -> Signals.
Variable call_health :
  HealthCheckSynapse -> MinerInfo -> CallOutcome HealthCheckResponse.
Variable call_pool :
  PoolEventSynapse -> MinerInfo -> CallOutcome PoolEventResponse.
Variable call_signal :
  SignalEventSynapse -> MinerInfo -> CallOutcome SignalEventResponse.
Variable max_allowed_weights : Z.

Abbreviation run_step :=
  (validate_step rnd START_TIMESTAMP today_timestamp block_range events
     signals call_health call_pool call_signal max_allowed_weights).

Lemma valid_results_all_none (R : Type) (uids : list Z)
    (l : list (option (MinerAnswer R))) :
  Forall (fun a => a = None) l -> valid_results (zip uids l) = [].
Proof.
  intros Hall. revert uids. induction Hall as [| a l -> _ IH]; intros uids.
  - destruct uids; reflexivity.
  - destruct uids as [| k uids]; [reflexivity |]. simpl. apply IH.
Qed.

Lemma health_answers_all_none (modules_info : dict MinerInfo) :
  (forall uid info, In (uid, info) modules_info ->
     failed (call_health mkHealthCheckSynapse info) = true) ->
  Forall (fun a => a = None)
         (answers call_health modules_info
            (requests modules_info (Shared mkHealthCheckSynapse))).
Proof.
  intros Hfail. apply Forall_forall. intros a Ha.
  unfold answers in Ha. apply in_map_iff in Ha.
  destruct Ha as [[s info] [<- Hin]]. simpl.
  pose proof (in_combine_l _ _ _ _ Hin) as Hs.
  apply repeat_spec in Hs. subst s.
  apply in_combine_r in Hin. unfold values in Hin. apply in_map_iff in Hin.
  destruct Hin as [[uid info'] [E Hin]]. simpl in E. subst info'.
  specialize (Hfail uid info Hin). unfold _get_miner_prediction.
  destruct (call_health mkHealthCheckSynapse info); simpl in Hfail;
    [reflexivity .. | discriminate].
Qed.

(** X10.  A step never hands a vote to the ledger client: it ends without
    voting or with an exception, whatever the peers, the chain and the
    random draws are. *)
Theorem validate_step_ends_without_vote
    (modules_info : dict MinerInfo) (w : world) :
  fst (run_step modules_info w) = Ok None
  \/ raises (fst (run_step modules_info w)).
Proof.
  destruct (fst (run_step modules_info w)) as [[vote |] | e] eqn:E.
  - exfalso. revert E. apply validate_step_never_votes.
  - left. reflexivity.
  - right. exists e. reflexivity.
Qed.

(** X11.  On an empty peer directory a step raises [TypeError]:
    [get_miner_answer] returns [None], which line 587 passes to [zip]. *)
Theorem validate_step_empty_directory (w : world) :
  run_step [] w
  = (Raise TypeError, mkWorld (draws w) (selected w ++ [[]])).
Proof. reflexivity. Qed.

(** X12.  When every peer fails the health round, a step returns without
    voting, having polled the peers once and drawn no random number. *)
Theorem validate_step_no_valid_miners
    (modules_info : dict MinerInfo) (w : world) :
  modules_info <> [] ->
  (forall uid info, In (uid, info) modules_info ->
     failed (call_health mkHealthCheckSynapse info) = true) ->
  run_step modules_info w
  = (Ok None, mkWorld (draws w) (selected w ++ [keys modules_info])).
Proof.
  intros Hne Hfail. unfold validate_step. unfold bindM at 1.
  rewrite get_miner_answer_run.
  pose proof (health_answers_all_none modules_info Hfail) as Hnone.
  set (hd := answers call_health modules_info
               (requests modules_info (Shared mkHealthCheckSynapse))) in *.
  assert (Hhd : hd <> []).
  { intros E.
    pose proof (answers_of_length _ _ call_health modules_info
                  (Shared mkHealthCheckSynapse)) as Hlen.
    fold hd in Hlen. rewrite E in Hlen.
    destruct modules_info; [congruence |].
    specialize (Hlen (repeat_length _ _)). discriminate. }
  destruct hd as [| a0 hd'] eqn:Ehd; [congruence |].
  rewrite <- Ehd in *.
  unfold bindM at 1. unfold lift at 1. cbn [zip_answers].
  unfold bindM at 1. unfold lift at 1.
  assert (Hscore : score_health_check today_timestamp
                     (zip (keys modules_info) hd) = Ok []).
  { unfold score_health_check.
    rewrite (valid_results_all_none _ _ _ Hnone). reflexivity. }
  rewrite Hscore. reflexivity.
Qed.

End StepOutcomes.

Lemma validate_step_no_valid_miners_witness :
  validate_step demo_rnd demo_START_TIMESTAMP (inject_Z demo_now)
    demo_block_range demo_chain_events demo_signals
    silent_health_call demo_pool_call demo_signal_call
    420 demo_modules_info world0
  = (Ok None, mkWorld 0 [[0; 1; 2]%Z]).
Proof.
  apply (validate_step_no_valid_miners demo_rnd demo_START_TIMESTAMP
           (inject_Z demo_now) demo_block_range demo_chain_events
           demo_signals silent_health_call demo_pool_call demo_signal_call
           420 demo_modules_info world0).
  - discriminate.
  - intros uid info _. reflexivity.
Defined.

(** X13.  The blend of line 616 returns a map exactly when every peer of
    the directory has a score in all three rounds; the map then lists the
    peers in directory order, each with 0.3 health + 0.3 pool events +
    0.4 signal.  A peer lacking a score makes it raise. *)
Theorem overall_scores_all_or_nothing
    (uids : list Z) (health_score pool_events_score signal_events_score : dict Q) :
  NoDup uids ->
  ((forall key, In key uids ->
      dict_get health_score key <> None
      /\ dict_get pool_events_score key <> None
      /\ dict_get signal_events_score key <> None) ->
   exists scores,
     overall_scores uids health_score pool_events_score signal_events_score
     = Ok scores
     /\ keys scores = uids
     /\ forall key h p s,
          In key uids ->
          dict_get health_score key = Some h ->
          dict_get pool_events_score key = Some p ->
          dict_get signal_events_score key = Some s ->
          dict_get scores key
          = Some (h * (3 # 10) + p * (3 # 10) + s * (4 # 10)))
  /\ (forall key, In key uids ->
        dict_get health_score key = None
        \/ dict_get pool_events_score key = None
        \/ dict_get signal_events_score key = None ->
        raises (overall_scores uids health_score pool_events_score
                  signal_events_score)).
Proof.
  intros Hnd. split.
  - intros Hall. apply overall_scores_present; assumption.
  - intros key Hin Hmiss. apply (overall_scores_missing _ _ _ _ key); assumption.
Qed.

Lemma overall_scores_all_or_nothing_witness :
  (exists scores,
     overall_scores [1; 2]%Z demo_health_score demo_pool_events_score
       demo_signal_events_score = Ok scores
     /\ keys scores = [1; 2]%Z)
  /\ raises (overall_scores [0; 1; 2]%Z demo_health_score
               demo_pool_events_score demo_signal_events_score).
Proof.
  split.
  - destruct (overall_scores_all_or_nothing [1; 2]%Z demo_health_score
                demo_pool_events_score demo_signal_events_score)
      as [Hok _].
    + repeat constructor; simpl; intros H;
        repeat (destruct H as [H | H]; try discriminate H); exact H.
    + destruct Hok as [scores [Hrun [Hkeys _]]].
      * intros key H. simpl in H.
        destruct H as [<- | [<- | []]]; repeat split; discriminate.
      * exists scores. split; [exact Hrun | exact Hkeys].
  - destruct (overall_scores_all_or_nothing [0; 1; 2]%Z demo_health_score
                demo_pool_events_score demo_signal_events_score)
      as [_ Hraise].
    + repeat constructor; simpl; intros H;
        repeat (destruct H as [H | H]; try discriminate H); exact H.
    + apply (Hraise 0%Z); [left; reflexivity | left; reflexivity].
Defined.

(** X14.  In the pool-event and signal rounds of a step every selected
    peer is polled: the request list drawn from the health answers has one
    request per peer of [valid_miner_infos], so [get_miner_answer] returns
    one answer per selected peer and zipping the answers with the peer ids
    (lines 601 and 609) drops nobody. *)
Theorem later_rounds_poll_every_selected_peer
    (rnd : nat -> nat) (START_TIMESTAMP : Z) (today_timestamp : Q)
    (call_health :
       HealthCheckSynapse -> MinerInfo -> CallOutcome HealthCheckResponse)
    (call_pool :
       PoolEventSynapse -> MinerInfo -> CallOutcome PoolEventResponse)
    (call_signal :
       SignalEventSynapse -> MinerInfo -> CallOutcome SignalEventResponse)
    (modules_info valid_miner_infos : dict MinerInfo) (health_score : dict Q) :
  NoDup (keys modules_info) ->
  let health_data :=
    answers call_health modules_info
      (requests modules_info (Shared mkHealthCheckSynapse)) in
  score_health_check today_timestamp (zip (keys modules_info) health_data)
  = Ok health_score ->
  (items <- mapM (fun key => info <- dict_item modules_info key ;;
                             Ok (key, info)) (keys health_score) ;;
   Ok (dict_of_items items)) = Ok valid_miner_infos ->
  valid_miner_infos <> [] ->
  (forall w w' synapses,
     fst (get_pool_event_synapses rnd START_TIMESTAMP health_data w)
     = Ok synapses ->
     exists l,
       fst (get_miner_answer call_pool valid_miner_infos (PerPeer synapses) w')
       = Ok (Some l)
       /\ length l = length valid_miner_infos
       /\ map fst (zip (keys valid_miner_infos) l) = keys valid_miner_infos)
  /\ (forall w w' synapses,
        fst (get_signal_event_synapse rnd START_TIMESTAMP health_data w)
        = Ok synapses ->
        exists l,
          fst (get_miner_answer call_signal valid_miner_infos
                 (PerPeer synapses) w') = Ok (Some l)
          /\ length l = length valid_miner_infos
          /\ map fst (zip (keys valid_miner_infos) l)
             = keys valid_miner_infos).
Proof.
  intros Hnd health_data Hhs Hvmi Hne.
  destruct (step_requests_one_per_peer rnd START_TIMESTAMP today_timestamp
              call_health modules_info valid_miner_infos health_score
              Hnd Hhs Hvmi) as [Hpool Hsignal].
  split; intros w w' synapses Hrun.
  - pose proof (Hpool w synapses Hrun) as Hreq.
    pose proof (answers_of_length _ _ call_pool _ _ Hreq) as Hlen.
    eexists. split; [apply get_miner_answer_nonempty; assumption |].
    split; [exact Hlen |].
    apply keys_of_zip. unfold keys. rewrite length_map. symmetry. exact Hlen.
  - pose proof (Hsignal w synapses Hrun) as Hreq.
    pose proof (answers_of_length _ _ call_signal _ _ Hreq) as Hlen.
    eexists. split; [apply get_miner_answer_nonempty; assumption |].
    split; [exact Hlen |].
    apply keys_of_zip. unfold keys. rewrite length_map. symmetry. exact Hlen.
Qed.

Lemma later_rounds_poll_every_selected_peer_witness :
  exists l,
    fst (get_miner_answer demo_pool_call demo_valid_miner_infos
           (PerPeer demo_pool_synapses) world0) = Ok (Some l)
    /\ length l = 2%nat.
Proof.
  destruct (later_rounds_poll_every_selected_peer demo_rnd
              demo_START_TIMESTAMP (inject_Z demo_now)
              demo_health_call demo_pool_call demo_signal_call
              demo_modules_info demo_valid_miner_infos
              demo_step_health_score demo_modules_info_nodup)
    as [Hpool _].
  - vm_compute. reflexivity.
  - vm_compute. reflexivity.
  - discriminate.
  - destruct (Hpool world0 world0 demo_pool_synapses) as [l [Hrun [Hlen _]]].
    + vm_compute. reflexivity.
    + exists l. split; [exact Hrun | exact Hlen].
Defined.

(** ** Cutting and weighing scores *)

Lemma sorted_by_score_fixed (l : list (Z * Q)) :
  StronglySorted score_ge l -> sorted_by_score l = l.
Proof.
  induction 1 as [| x l Hl IH Hx]; [reflexivity |].
  simpl. rewrite IH. destruct l as [| y l']; [reflexivity |].
  simpl. inversion Hx as [| ? ? Hy _]; subst. unfold score_ge in Hy.
  apply Qle_bool_iff in Hy. rewrite Hy. reflexivity.
Qed.

Lemma strongly_sorted_firstn (A : Type) (R : A -> A -> Prop) (n : nat)
    (l : list A) :
  StronglySorted R l -> StronglySorted R (firstn n l).
Proof.
  intros Hs. revert n. induction Hs as [| x l Hl IH Hx]; intros n.
  - rewrite firstn_nil. constructor.
  - destruct n as [| n]; [constructor |]. simpl.
    constructor; [apply IH |].
    apply Forall_forall. intros y Hy. rewrite Forall_forall in Hx.
    apply Hx. apply (in_firstn_in _ n). exact Hy.
Qed.

(** X15.  With a non-negative bound, [cut_to_max_allowed_weights] returns
    entries of its argument in order of decreasing score; with a bound of
    at least the number of peers it drops nobody; and cutting a second
    time with the same bound changes nothing. *)
Theorem cut_to_max_allowed_weights_sorted_idempotent
    (score_dict : dict Q) (max_allowed_weights : Z) :
  NoDup (keys score_dict) ->
  (0 <= max_allowed_weights)%Z ->
  let kept := cut_to_max_allowed_weights score_dict max_allowed_weights in
  StronglySorted score_ge kept
  /\ NoDup (keys kept)
  /\ incl kept score_dict
  /\ ((Z.of_nat (length score_dict) <= max_allowed_weights)%Z ->
      Permutation score_dict kept)
  /\ cut_to_max_allowed_weights kept max_allowed_weights = kept.
Proof.
  intros Hnd Hm kept.
  pose proof (sorted_by_score_perm score_dict) as Hperm.
  pose proof (sorted_by_score_sorted score_dict) as Hsorted.
  assert (Hkept : kept = firstn (Z.to_nat max_allowed_weights)
                           (sorted_by_score score_dict))
    by (apply cut_is_prefix; assumption).
  assert (Hks : StronglySorted score_ge kept)
    by (rewrite Hkept; apply strongly_sorted_firstn; exact Hsorted).
  assert (Hkn : NoDup (keys kept)).
  { rewrite Hkept. apply nodup_keys_firstn.
    eapply Permutation_NoDup; [apply keys_perm; exact Hperm | exact Hnd]. }
  split; [exact Hks |]. split; [exact Hkn |]. split; [| split].
  - intros e He. rewrite Hkept in He. apply in_firstn_in in He.
    apply (Permutation_in _ (Permutation_sym Hperm)). exact He.
  - intros Hall. rewrite Hkept, firstn_all2; [exact Hperm |].
    rewrite <- (Permutation_length Hperm). lia.
  - rewrite (cut_is_prefix kept max_allowed_weights Hkn Hm).
    rewrite (sorted_by_score_fixed kept Hks).
    rewrite Hkept, firstn_firstn, Nat.min_id. reflexivity.
Qed.

Lemma cut_to_max_allowed_weights_sorted_idempotent_witness :
  let kept := cut_to_max_allowed_weights demo_scores 2 in
  StronglySorted score_ge kept
  /\ cut_to_max_allowed_weights kept 2 = kept.
Proof.
  destruct (cut_to_max_allowed_weights_sorted_idempotent demo_scores 2
              demo_scores_nodup) as [Hs [_ [_ [_ Hidem]]]].
  - discriminate.
  - split; [exact Hs | exact Hidem].
Defined.

(** X16.  When at least one peer is kept and the kept scores sum to zero,
    for instance when every score is 0, [set_weights] raises
    [ZeroDivisionError] and nothing is voted. *)
Theorem set_weights_zero_total
    (score_dict : dict Q) (max_allowed_weights : Z) :
  cut_to_max_allowed_weights score_dict max_allowed_weights <> [] ->
  sum (values (cut_to_max_allowed_weights score_dict max_allowed_weights))
  == 0 ->
  set_weights max_allowed_weights score_dict = Raise ZeroDivisionError.
Proof.
  intros Hne Hzero. unfold set_weights.
  destruct (cut_to_max_allowed_weights score_dict max_allowed_weights)
    as [| [uid score] rest]; [congruence |].
  cbv zeta. cbn [weigh]. unfold truediv.
  apply Qeq_bool_iff in Hzero. rewrite Hzero. reflexivity.
Qed.

Lemma set_weights_zero_total_witness :
  set_weights 420 [(0%Z, 0); (1%Z, 0)] = Raise ZeroDivisionError.
Proof.
  apply set_weights_zero_total; [discriminate | reflexivity].
Defined.

Lemma strongly_sorted_map (A B : Type) (R : A -> A -> Prop)
    (R' : B -> B -> Prop) (f : A -> B) (l : list A) :
  (forall a b, R a b -> R' (f a) (f b)) ->
  StronglySorted R l -> StronglySorted R' (map f l).
Proof.
  intros Hf. induction 1 as [| x l Hl IH Hx]; simpl; constructor.
  - exact IH.
  - apply Forall_map. eapply Forall_impl; [| exact Hx].
    intros y. apply Hf.
Qed.

Lemma strongly_sorted_filter (A : Type) (R : A -> A -> Prop)
    (f : A -> bool) (l : list A) :
  StronglySorted R l -> StronglySorted R (filter f l).
Proof.
  induction 1 as [| x l Hl IH Hx]; simpl; [constructor |].
  destruct (f x); [| exact IH].
  constructor; [exact IH |].
  apply Forall_forall. intros y Hy. apply filter_In in Hy.
  rewrite Forall_forall in Hx. apply Hx. tauto.
Qed.

Lemma nodup_keys_filter (V : Type) (f : Z * V -> bool) (d : dict V) :
  NoDup (keys d) -> NoDup (keys (filter f d)).
Proof.
  induction d as [| [k v] d IH]; simpl; intros Hnd; [constructor |].
  inversion Hnd as [| ? ? Hk Hnd']; subst.
  destruct (f (k, v)); [| apply IH; exact Hnd'].
  simpl. constructor; [| apply IH; exact Hnd'].
  intros Hin. apply Hk. unfold keys in *. apply in_map_iff in Hin.
  destruct Hin as [[k' v'] [E Hin]]. simpl in E. subst k'.
  apply filter_In in Hin. apply in_map_iff. exists (k, v'). tauto.
Qed.

Lemma rescale_monotone (scores : Q) (a b : Z * Q) :
  0 < scores -> score_ge a b ->
  (snd (rescale scores b) <= snd (rescale scores a))%Z.
Proof.
  intros HT Hge. unfold rescale, score_ge in *. simpl.
  apply int_of_float_monotone. unfold Qdiv.
  apply Qmult_le_compat_r.
  - lra.
  - apply Qlt_le_weak. apply Qinv_lt_0_compat. exact HT.
Qed.

(** What [set_weights] hands to the ledger client when the kept scores
    have a non-zero sum. *)
Lemma set_weights_run (score_dict : dict Q) (max_allowed_weights : Z) :
  NoDup (keys score_dict) ->
  (0 <= max_allowed_weights)%Z ->
  let kept := cut_to_max_allowed_weights score_dict max_allowed_weights in
  ~ sum (values kept) == 0 ->
  set_weights max_allowed_weights score_dict =
  Ok (keys (filter nonzero_weight (map (rescale (sum (values kept))) kept)),
      values (filter nonzero_weight (map (rescale (sum (values kept))) kept))).
Proof.
  intros Hnd Hm kept HT. unfold set_weights. fold kept.
  rewrite (weigh_from kept (sum (values kept)) []); [reflexivity | exact HT |].
  simpl. unfold kept. rewrite cut_is_prefix by assumption.
  apply nodup_keys_firstn.
  eapply Permutation_NoDup;
    [apply keys_perm; apply sorted_by_score_perm | exact Hnd].
Qed.

(** X17.  For non-negative scores that are not all zero, the vote lists
    each peer once, best score first: the weights are in non-increasing
    order and there is one weight per listed peer. *)
Theorem set_weights_votes_in_score_order
    (score_dict : dict Q) (max_allowed_weights : Z) :
  NoDup (keys score_dict) ->
  (forall uid score, In (uid, score) score_dict -> 0 <= score) ->
  (exists uid score, In (uid, score) score_dict /\ 0 < score) ->
  (0 < max_allowed_weights)%Z ->
  exists uids weights,
    set_weights max_allowed_weights score_dict = Ok (uids, weights)
    /\ NoDup uids
    /\ length uids = length weights
    /\ StronglySorted (fun a b => (b <= a)%Z) weights.
Proof.
  intros Hnd Hnonneg Hpos Hm.
  assert (Hm0 : (0 <= max_allowed_weights)%Z) by lia.
  pose proof (cut_is_prefix score_dict max_allowed_weights Hnd Hm0) as Hkept.
  pose proof (sorted_by_score_perm score_dict) as Hperm.
  assert (HT : 0 < sum (values (cut_to_max_allowed_weights score_dict
                                  max_allowed_weights))).
  { rewrite Hkept. apply kept_sum_positive; try assumption.
    destruct Hpos as [u [s [Hin _]]].
    apply (Permutation_in _ Hperm) in Hin.
    destruct (sorted_by_score score_dict); [contradiction |].
    destruct (Z.to_nat max_allowed_weights) eqn:E; [lia | discriminate]. }
  set (kept := cut_to_max_allowed_weights score_dict max_allowed_weights) in *.
  set (W := filter nonzero_weight (map (rescale (sum (values kept))) kept)).
  exists (keys W), (values W).
  split; [apply set_weights_run; try assumption; fold kept; lra |].
  split; [| split].
  - unfold W. apply nodup_keys_filter.
    rewrite (keys_map_values _ _
               (fun e => int_of_float (snd e * 1000 / sum (values kept)))).
    rewrite Hkept. apply nodup_keys_firstn.
    eapply Permutation_NoDup; [apply keys_perm; exact Hperm | exact Hnd].
  - unfold keys, values. rewrite !length_map. reflexivity.
  - unfold values, W. apply strongly_sorted_map
      with (R := fun a b : Z * Z => (snd b <= snd a)%Z); [auto |].
    apply strongly_sorted_filter.
    apply strongly_sorted_map with (R := score_ge).
    + intros a b. apply rescale_monotone. exact HT.
    + rewrite Hkept. apply strongly_sorted_firstn.
      apply sorted_by_score_sorted.
Qed.

Lemma set_weights_votes_in_score_order_witness :
  exists uids weights,
    set_weights 2 demo_scores = Ok (uids, weights)
    /\ StronglySorted (fun a b => (b <= a)%Z) weights.
Proof.
  destruct (set_weights_votes_in_score_order demo_scores 2
              demo_scores_nodup demo_scores_nonneg)
    as [uids [weights [Hrun [_ [_ Hsorted]]]]].
  - exists 0%Z, 10. split; [left; reflexivity | reflexivity].
  - reflexivity.
  - exists uids, weights. split; [exact Hrun | exact Hsorted].
Defined.

(** * The peer directory *)

(** X18.  [get_subnet_netuid] returns the id of the first subnet carrying
    the name, raises [ValueError] exactly when no subnet carries it, and
    finds a subnet that was just registered under a name no other subnet
    has. *)
Theorem get_subnet_netuid_finds_name
    (subnets : dict string) (subnet_name : string) :
  (forall netuid, get_subnet_netuid subnets subnet_name = Ok netuid ->
     exists before after,
       subnets = before ++ (netuid, subnet_name) :: after
       /\ ~ In subnet_name (values before))
  /\ (get_subnet_netuid subnets subnet_name = Raise ValueError <->
      ~ In subnet_name (values subnets))
  /\ (forall netuid,
        ~ In netuid (keys subnets) ->
        ~ In subnet_name (values subnets) ->
        get_subnet_netuid (dict_set subnets netuid subnet_name) subnet_name
        = Ok netuid).
Proof.
  split; [| split].
  - induction subnets as [| [k name] rest IH]; intros netuid H;
      [discriminate |].
    simpl in H. destruct (String.eqb_spec name subnet_name) as [-> | Hne].
    + injection H as <-. exists [], rest. split; [reflexivity | intros []].
    + destruct (IH netuid H) as [before [after [-> Hfresh]]].
      exists ((k, name) :: before), after. split; [reflexivity |].
      simpl. intros [E | Hin]; [congruence | contradiction].
  - induction subnets as [| [k name] rest IH]; simpl.
    + split; [intros _ [] | reflexivity].
    + destruct (String.eqb_spec name subnet_name) as [-> | Hne].
      * split; [discriminate | intros H; exfalso; apply H; left; reflexivity].
      * rewrite IH. split; [intros H [E | Hin]; [congruence | tauto] | tauto].
  - intros netuid Hkey Hname. rewrite dict_set_fresh by exact Hkey.
    induction subnets as [| [k name] rest IH]; simpl.
    + rewrite String.eqb_refl. reflexivity.
    + destruct (String.eqb_spec name subnet_name) as [-> | Hne].
      * exfalso. apply Hname. left. reflexivity.
      * apply IH.
        -- intros Hin. apply Hkey. right. exact Hin.
        -- intros Hin. apply Hname. right. exact Hin.
Qed.

Lemma get_subnet_netuid_finds_name_witness :
  get_subnet_netuid [(0%Z, "commune"%string); (30%Z, "velora"%string)] "velora"
  = Ok 30%Z
  /\ get_subnet_netuid [(0%Z, "commune"%string)] "velora" = Raise ValueError.
Proof.
  split.
  - destruct (get_subnet_netuid_finds_name [(0%Z, "commune"%string)] "velora")
      as [_ [_ H]].
    apply (H 30%Z).
    + intros [E | []]. discriminate.
    + intros [E | []]. discriminate.
  - apply (get_subnet_netuid_finds_name [(0%Z, "commune"%string)] "velora").
    intros [E | []]. discriminate.
Defined.

(** ** Addresses *)

Lemma leading_digits_spec (most : nat) (s : list ascii) :
  (exists rest, s = leading_digits most s ++ rest)
  /\ forallb is_digit (leading_digits most s) = true
  /\ (length (leading_digits most s) <= most)%nat.
Proof.
  revert s. induction most as [| most IH]; intros s.
  - simpl. split; [exists s; reflexivity |]. split; [reflexivity | lia].
  - destruct s as [| c s]; simpl.
    + split; [exists []; reflexivity |]. split; [reflexivity | lia].
    + destruct (is_digit c) eqn:Ec.
      * destruct (IH s) as [[rest Hrest] [Hd Hlen]].
        split; [exists rest; simpl; congruence |].
        split; [simpl; rewrite Ec; exact Hd | simpl; lia].
      * split; [exists (c :: s); reflexivity |].
        split; [reflexivity | simpl; lia].
Qed.

Lemma first_match_some (A B : Type) (f : A -> option B) (l : list A) (y : B) :
  first_match f l = Some y -> exists x, In x l /\ f x = Some y.
Proof.
  induction l as [| x l IH]; simpl; [discriminate |].
  destruct (f x) as [y' |] eqn:E.
  - intros [= <-]. exists x. auto.
  - intros H. destruct (IH H) as [x' [Hin Hx']]. exists x'. auto.
Qed.

Lemma forallb_firstn (A : Type) (f : A -> bool) (k : nat) (l : list A) :
  forallb f l = true -> forallb f (firstn k l) = true.
Proof.
  revert k. induction l as [| x l IH]; intros k H.
  - rewrite firstn_nil. reflexivity.
  - destruct k; [reflexivity |]. simpl in *.
    apply andb_true_iff in H. destruct H as [Hx Hl].
    rewrite Hx. apply IH. exact Hl.
Qed.

(** A match is a text the pattern describes, found at the head of the
    subject. *)
Lemma match_here_fits (p : list item) (s m : list ascii) :
  match_here p s = Some m -> fits p m /\ exists post, s = m ++ post.
Proof.
  revert s m. induction p as [| [most | c] p IH]; intros s m H.
  - injection H as <-. split; [reflexivity | exists s; reflexivity].
  - cbn [match_here] in H.
    set (bound := match most with Some n => n | None => length s end) in H.
    apply first_match_some in H. destruct H as [k [Hk H]].
    apply in_rev, in_seq in Hk.
    destruct (match_here p (skipn k s)) as [m' |] eqn:Em; [| discriminate].
    injection H as <-.
    destruct (IH _ _ Em) as [Hfits [post Hpost]].
    destruct (leading_digits_spec bound s) as [[rest Hrest] [Hdig Hlen]].
    set (ld := leading_digits bound s) in *.
    assert (Hfirst : firstn k s = firstn k ld).
    { rewrite Hrest at 1. rewrite firstn_app.
      replace (k - length ld)%nat with 0%nat by lia.
      rewrite firstn_O, app_nil_r. reflexivity. }
    assert (Hklen : length (firstn k s) = k).
    { rewrite Hfirst, length_firstn. lia. }
    split.
    + cbn [fits]. exists (firstn k s), m'.
      split; [reflexivity |]. split.
      { intros E. rewrite E in Hklen. simpl in Hklen. lia. }
      split; [rewrite Hfirst; apply forallb_firstn; exact Hdig |].
      split; [| exact Hfits].
      rewrite Hklen. unfold within, bound in *. destruct most; [lia | exact I].
    + exists post. rewrite <- app_assoc, <- Hpost. symmetry.
      apply firstn_skipn.
  - cbn [match_here] in H. destruct s as [| c' s']; [discriminate |].
    destruct (Ascii.eqb_spec c' c) as [-> | Hne]; [| discriminate].
    destruct (match_here p s') as [m' |] eqn:Em; [| discriminate].
    injection H as <-.
    destruct (IH _ _ Em) as [Hfits [post Hpost]].
    split; [exists m'; auto |]. exists post. simpl. congruence.
Qed.

Lemma search_fits (p : list item) (s m : list ascii) :
  search p s = Some m ->
  fits p m /\ exists pre post, s = pre ++ m ++ post.
Proof.
  induction s as [| c s IH]; simpl.
  - destruct (match_here p []) as [m' |] eqn:E; [| discriminate].
    intros [= <-]. destruct (match_here_fits _ _ _ E) as [Hf [post Hp]].
    split; [exact Hf |]. exists [], post. exact Hp.
  - destruct (match_here p (c :: s)) as [m' |] eqn:E.
    + intros [= <-]. destruct (match_here_fits _ _ _ E) as [Hf [post Hp]].
      split; [exact Hf |]. exists [], post. exact Hp.
    + intros H. destruct (IH H) as [Hf [pre [post Hp]]].
      split; [exact Hf |]. exists (c :: pre), post. simpl. congruence.
Qed.

Lemma digit_not_colon (c : ascii) :
  is_digit c = true -> Ascii.eqb c ":" = false.
Proof.
  intros H. destruct (Ascii.eqb_spec c ":") as [-> | Hne]; [| reflexivity].
  vm_compute in H. discriminate.
Qed.

Lemma digit_or_dot_not_colon (c : ascii) :
  digit_or_dot c = true -> Ascii.eqb c ":" = false.
Proof.
  intros H. destruct (Ascii.eqb_spec c ":") as [-> | Hne]; [| reflexivity].
  vm_compute in H. discriminate.
Qed.

Lemma split_no_sep (sep : ascii) (a : list ascii) :
  forallb (fun c => negb (Ascii.eqb c sep)) a = true -> split sep a = [a].
Proof.
  induction a as [| c a IH]; simpl; [reflexivity |].
  intros H. apply andb_true_iff in H. destruct H as [Hc Ha].
  apply negb_true_iff in Hc. rewrite Hc, (IH Ha). reflexivity.
Qed.

Lemma split_at_sep (sep : ascii) (a b : list ascii) :
  forallb (fun c => negb (Ascii.eqb c sep)) a = true ->
  split sep (a ++ sep :: b) = a :: split sep b.
Proof.
  induction a as [| c a IH]; simpl.
  - intros _. rewrite Ascii.eqb_refl. reflexivity.
  - intros H. apply andb_true_iff in H. destruct H as [Hc Ha].
    apply negb_true_iff in Hc. rewrite Hc, (IH Ha). reflexivity.
Qed.

Lemma forallb_impl (A : Type) (f g : A -> bool) (l : list A) :
  (forall x, f x = true -> g x = true) ->
  forallb f l = true -> forallb g l = true.
Proof.
  intros Hfg. induction l as [| x l IH]; simpl; [reflexivity |].
  intros H. apply andb_true_iff in H. destruct H as [Hx Hl].
  rewrite (Hfg _ Hx), (IH Hl). reflexivity.
Qed.

Lemma dotted_quad_chars (ip : list ascii) :
  dotted_quad ip -> forallb digit_or_dot ip = true.
Proof.
  intros [d1 [d2 [d3 [d4 [-> [O1 [O2 [O3 O4]]]]]]]].
  destruct O1 as [_ [H1 _]], O2 as [_ [H2 _]], O3 as [_ [H3 _]],
    O4 as [_ [H4 _]].
  assert (Hd : forall d, forallb is_digit d = true ->
                         forallb digit_or_dot d = true).
  { intros d. apply forallb_impl. intros c Hc. unfold digit_or_dot.
    rewrite Hc. reflexivity. }
  repeat (rewrite forallb_app || cbn [forallb]).
  rewrite (Hd _ H1), (Hd _ H2), (Hd _ H3), (Hd _ H4). reflexivity.
Qed.

(** What [IP_REGEX] matches: a dotted quad, a colon and a port number. *)
Lemma fits_IP_REGEX (m : list ascii) :
  fits IP_REGEX m ->
  exists ip port,
    m = ip ++ ":"%char :: port /\ dotted_quad ip
    /\ port <> [] /\ forallb is_digit port = true.
Proof.
  unfold IP_REGEX. cbn [fits within].
  intros [d1 [m1 [-> [N1 [D1 [L1 H]]]]]].
  destruct H as [m2 [-> [d2 [m3 [-> [N2 [D2 [L2 H]]]]]]]].
  destruct H as [m4 [-> [d3 [m5 [-> [N3 [D3 [L3 H]]]]]]]].
  destruct H as [m6 [-> [d4 [m7 [-> [N4 [D4 [L4 H]]]]]]]].
  destruct H as [m8 [-> [d5 [m9 [-> [N5 [D5 [_ ->]]]]]]]].
  exists (d1 ++ "."%char :: d2 ++ "."%char :: d3 ++ "."%char :: d4), d5.
  split.
  { rewrite app_nil_r. repeat (rewrite <- app_assoc; cbn [app]).
    reflexivity. }
  split; [| split; assumption].
  exists d1, d2, d3, d4. unfold octet. repeat split; assumption.
Qed.

Lemma split_address (ip port : list ascii) :
  dotted_quad ip -> forallb is_digit port = true ->
  split ":" (ip ++ ":"%char :: port) = [ip; port].
Proof.
  intros Hip Hport. rewrite split_at_sep.
  - rewrite split_no_sep; [reflexivity |].
    revert Hport. apply forallb_impl. intros c Hc.
    rewrite (digit_not_colon _ Hc). reflexivity.
  - apply dotted_quad_chars in Hip. revert Hip. apply forallb_impl.
    intros c Hc. rewrite (digit_or_dot_not_colon _ Hc). reflexivity.
Qed.

(** [extract_address]: a match is an address found inside the text. *)
Lemma extract_address_some (addr : string) (x : list ascii) :
  extract_address addr = Some x ->
  exists ip port pre post,
    x = ip ++ ":"%char :: port
    /\ list_ascii_of_string addr = pre ++ ip ++ ":"%char :: port ++ post
    /\ dotted_quad ip /\ port <> [] /\ forallb is_digit port = true.
Proof.
  unfold extract_address. intros H.
  apply search_fits in H. destruct H as [Hfits [pre [post Hs]]].
  apply fits_IP_REGEX in Hfits.
  destruct Hfits as [ip [port [-> [Hip [Hne Hport]]]]].
  exists ip, port, pre, post. split; [reflexivity |].
  split; [| auto]. rewrite Hs. rewrite <- app_assoc. reflexivity.
Qed.

Lemma flat_map_map (A B C : Type) (f : A -> B) (g : B -> list C)
    (l : list A) :
  flat_map g (map f l) = flat_map (fun x => g (f x)) l.
Proof.
  induction l as [| x l IH]; simpl; [reflexivity |]. rewrite IH. reflexivity.
Qed.

Lemma keys_ip_port_entries (d : dict string) :
  keys (flat_map ip_port_entry d)
  = keys (filter (fun kv => match extract_address (snd kv) with
                            | Some _ => true
                            | None => false
                            end) d).
Proof.
  induction d as [| [k addr] d IH]; simpl; [reflexivity |].
  unfold ip_port_entry at 1. simpl.
  destruct (extract_address addr); simpl; rewrite IH; reflexivity.
Qed.

Lemma get_ip_port_flat (d : dict string) :
  NoDup (keys d) -> get_ip_port d = flat_map ip_port_entry d.
Proof.
  intros Hnd. unfold get_ip_port. cbv zeta.
  rewrite (dict_of_items_nodup _ (map _ d)).
  - rewrite flat_map_map. cbn [fst snd].
    apply dict_of_items_nodup.
    change (NoDup (keys (flat_map ip_port_entry d))).
    rewrite keys_ip_port_entries. apply nodup_keys_filter. exact Hnd.
  - unfold keys. rewrite map_map. cbn [fst]. exact Hnd.
Qed.

Lemma in_ip_port_entries (d : dict string) (id : Z) (v : list string) :
  In (id, v) (flat_map ip_port_entry d) ->
  exists addr x,
    In (id, addr) d /\ extract_address addr = Some x
    /\ v = map string_of_list_ascii (split ":" x).
Proof.
  intros H. apply in_flat_map in H. destruct H as [[k addr] [Hin H]].
  unfold ip_port_entry in H. cbn [fst snd] in H.
  destruct (extract_address addr) as [x |] eqn:E; [| contradiction].
  destruct H as [H | []]. injection H as Hk Hv. subst k.
  exists addr, x. auto.
Qed.

(** Every value of [get_ip_port] is an [[ip; port]] pair cut out of the
    peer's text. *)
Lemma get_ip_port_value (d : dict string) (id : Z) (v : list string) :
  NoDup (keys d) ->
  dict_get (get_ip_port d) id = Some v ->
  exists addr ip port pre post,
    dict_get d id = Some addr
    /\ list_ascii_of_string addr = pre ++ ip ++ ":"%char :: port ++ post
    /\ dotted_quad ip /\ port <> [] /\ forallb is_digit port = true
    /\ v = [string_of_list_ascii ip; string_of_list_ascii port].
Proof.
  intros Hnd Hget. rewrite (get_ip_port_flat _ Hnd) in Hget.
  apply dict_get_in in Hget.
  apply in_ip_port_entries in Hget.
  destruct Hget as [addr [x [Hin [Hx ->]]]].
  apply extract_address_some in Hx.
  destruct Hx as [ip [port [pre [post [-> [Hs [Hip [Hne Hport]]]]]]]].
  exists addr, ip, port, pre, post.
  split; [apply dict_get_nodup; assumption |].
  split; [exact Hs |]. split; [exact Hip |]. split; [exact Hne |].
  split; [exact Hport |].
  rewrite (split_address _ _ Hip Hport). reflexivity.
Qed.

(** X19 (get_ip_port, extract_address).  For a ledger map with one entry
    per id, [get_ip_port] keeps, in the ledger's order, exactly the ids
    whose text contains a match of [IP_REGEX], and every value it stores is
    a two-element list [[ip; port]] cut out of that text: [ip] is four
    groups of one to three digits joined by dots and [port] is a non-empty
    run of digits, so unpacking the pair and [int(port)] cannot fail
    later. *)
Theorem get_ip_port_entries (d : dict string) :
  NoDup (keys d) ->
  keys (get_ip_port d)
  = keys (filter (fun kv => match extract_address (snd kv) with
                            | Some _ => true
                            | None => false
                            end) d)
  /\ forall id v,
       dict_get (get_ip_port d) id = Some v ->
       exists addr ip port pre post,
         dict_get d id = Some addr
         /\ list_ascii_of_string addr = pre ++ ip ++ ":"%char :: port ++ post
         /\ dotted_quad ip /\ port <> [] /\ forallb is_digit port = true
         /\ v = [string_of_list_ascii ip; string_of_list_ascii port].
Proof.
  intros Hnd. split.
  - rewrite (get_ip_port_flat _ Hnd). apply keys_ip_port_entries.
  - intros id v. apply get_ip_port_value. exact Hnd.
Qed.

Lemma get_ip_port_entries_witness :
  keys (get_ip_port demo_modules_adresses) = [1%Z; 3%Z]
  /\ exists ip port,
       dotted_quad ip /\ forallb is_digit port = true
       /\ [string_of_list_ascii ip; string_of_list_ascii port]
          = ["10.0.0.1"%string; "8000"%string].
Proof.
  assert (Hnd : NoDup (keys demo_modules_adresses)).
  { repeat constructor; simpl; intuition discriminate. }
  destruct (get_ip_port_entries demo_modules_adresses Hnd) as [Hkeys Hval].
  split; [rewrite Hkeys; reflexivity |].
  destruct (Hval 1%Z ["10.0.0.1"%string; "8000"%string] eq_refl)
    as [addr [ip [port [pre [post [_ [_ [Hip [_ [Hport Hv]]]]]]]]]].
  exists ip, port. split; [exact Hip |]. split; [exact Hport |].
  symmetry. exact Hv.
Defined.

Lemma leading_digits_exact (most : nat) (d rest : list ascii) :
  forallb is_digit d = true -> (length d <= most)%nat ->
  no_digit_ahead rest -> leading_digits most (d ++ rest) = d.
Proof.
  revert most. induction d as [| c d IH]; intros most Hd Hlen Hrest.
  - simpl. destruct most, rest as [| c rest]; simpl; try reflexivity.
    simpl in Hrest. rewrite Hrest. reflexivity.
  - simpl in Hd, Hlen. apply andb_true_iff in Hd. destruct Hd as [Hc Hd].
    destruct most as [| most]; [lia |]. simpl. rewrite Hc.
    rewrite IH; [reflexivity | exact Hd | lia | exact Hrest].
Qed.

(** A repetition takes a whole run of digits when the rest of the pattern
    matches what comes after the run. *)
Lemma match_here_digits (most : option nat) (p : list item)
    (d rest m : list ascii) :
  d <> [] -> forallb is_digit d = true -> within most (length d) ->
  no_digit_ahead rest -> match_here p rest = Some m ->
  match_here (Digits most :: p) (d ++ rest) = Some (d ++ m).
Proof.
  intros Hne Hd Hw Hrest Hm. cbn [match_here].
  set (bound := match most with
                | Some n => n
                | None => length (d ++ rest)
                end).
  assert (Hbound : (length d <= bound)%nat).
  { unfold bound. destruct most; [exact Hw |]. rewrite length_app. lia. }
  cbv zeta. rewrite (leading_digits_exact bound d rest Hd Hbound Hrest).
  destruct (length d) as [| k] eqn:Hlen.
  { destruct d; [congruence | discriminate]. }
  rewrite seq_S, rev_app_distr. cbn [rev app first_match].
  change (1 + k)%nat with (S k). rewrite <- Hlen.
  rewrite skipn_app, skipn_all, Nat.sub_diag, firstn_app, firstn_all,
    Nat.sub_diag.
  cbn [skipn firstn app]. rewrite app_nil_r, Hm. reflexivity.
Qed.

Lemma match_here_no_digit (most : option nat) (p : list item)
    (c : ascii) (s : list ascii) :
  is_digit c = false -> match_here (Digits most :: p) (c :: s) = None.
Proof.
  intros Hc. cbn [match_here]. cbv zeta.
  replace (leading_digits _ (c :: s)) with (@nil ascii); [reflexivity |].
  destruct most as [[| n] |]; simpl; try rewrite Hc; reflexivity.
Qed.

Lemma search_found (p : list item) (s m : list ascii) :
  match_here p s = Some m -> search p s = Some m.
Proof. intros H. destruct s; simpl; rewrite H; reflexivity. Qed.

Lemma search_skips_non_digits (most : option nat) (p : list item)
    (pre s : list ascii) :
  forallb (fun c => negb (is_digit c)) pre = true ->
  search (Digits most :: p) (pre ++ s) = search (Digits most :: p) s.
Proof.
  induction pre as [| c pre IH]; intros H; [reflexivity |].
  simpl in H. apply andb_true_iff in H. destruct H as [Hc Hpre].
  apply negb_true_iff in Hc.
  change ((c :: pre) ++ s) with (c :: (pre ++ s)).
  cbn [search]. rewrite (match_here_no_digit most p c (pre ++ s) Hc).
  apply IH. exact Hpre.
Qed.

Lemma octet_within (d : list ascii) :
  octet d ->
  d <> [] /\ forallb is_digit d = true /\ within (Some 3%nat) (length d).
Proof. intros [H1 [H2 H3]]. auto. Qed.

(** X20 (extract_address, get_ip_port).  An address written as four groups
    of one to three digits joined by dots, a colon and a port number is
    found again in a text that has no digit before it and no digit right
    after the port: [extract_address] returns exactly [ip:port], and
    [get_ip_port] stores [[ip; port]] for that peer. *)
Theorem extract_address_finds_address
    (id : Z) (d1 d2 d3 d4 port pre post : list ascii) :
  octet d1 -> octet d2 -> octet d3 -> octet d4 ->
  port <> [] -> forallb is_digit port = true ->
  forallb (fun c => negb (is_digit c)) pre = true ->
  no_digit_ahead post ->
  let ip := d1 ++ "."%char :: d2 ++ "."%char :: d3 ++ "."%char :: d4 in
  let addr := string_of_list_ascii (pre ++ ip ++ ":"%char :: port ++ post) in
  extract_address addr = Some (ip ++ ":"%char :: port)
  /\ get_ip_port [(id, addr)]
     = [(id, [string_of_list_ascii ip; string_of_list_ascii port])].
Proof.
  intros O1 O2 O3 O4 Hne Hport Hpre Hpost ip addr.
  assert (Hfound : extract_address addr = Some (ip ++ ":"%char :: port)).
  { unfold extract_address, addr.
    rewrite list_ascii_of_string_of_list_ascii.
    unfold IP_REGEX. rewrite (search_skips_non_digits _ _ _ _ Hpre).
    apply search_found. unfold ip.
    destruct (octet_within _ O1) as [N1 [D1 W1]].
    destruct (octet_within _ O2) as [N2 [D2 W2]].
    destruct (octet_within _ O3) as [N3 [D3 W3]].
    destruct (octet_within _ O4) as [N4 [D4 W4]].
    repeat (rewrite <- app_assoc; cbn [app]).
    assert (Hlit : forall c p s m,
               match_here p s = Some m ->
               match_here (Lit c :: p) (c :: s) = Some (c :: m)).
    { intros c p s m Hm. cbn [match_here]. rewrite Ascii.eqb_refl, Hm.
      reflexivity. }
    apply (match_here_digits _ _ _ _ _ N1 D1 W1); [reflexivity |].
    apply Hlit.
    apply (match_here_digits _ _ _ _ _ N2 D2 W2); [reflexivity |].
    apply Hlit.
    apply (match_here_digits _ _ _ _ _ N3 D3 W3); [reflexivity |].
    apply Hlit.
    apply (match_here_digits _ _ _ _ _ N4 D4 W4); [reflexivity |].
    apply Hlit.
    rewrite <- (app_nil_r port) at 2.
    apply (match_here_digits None [] port post [] Hne Hport I Hpost).
    reflexivity. }
  split; [exact Hfound |].
  rewrite get_ip_port_flat by (repeat constructor; simpl; tauto).
  cbn [flat_map]. unfold ip_port_entry. cbn [fst snd]. rewrite Hfound.
  rewrite split_address; [reflexivity | | exact Hport].
  exists d1, d2, d3, d4. auto.
Qed.

Lemma extract_address_finds_address_witness :
  extract_address "http://10.0.0.1:8000/x"
  = Some (list_ascii_of_string "10.0.0.1:8000")
  /\ get_ip_port [(7%Z, "http://10.0.0.1:8000/x"%string)]
     = [(7%Z, ["10.0.0.1"%string; "8000"%string])].
Proof.
  assert (O : forall d, d <> [] -> forallb is_digit d = true ->
                        (length d <= 3)%nat -> octet d).
  { intros d H1 H2 H3. repeat split; assumption. }
  apply (extract_address_finds_address 7%Z
           (list_ascii_of_string "10") (list_ascii_of_string "0")
           (list_ascii_of_string "0") (list_ascii_of_string "1")
           (list_ascii_of_string "8000") (list_ascii_of_string "http://")
           (list_ascii_of_string "/x"));
    try (apply O; [discriminate | reflexivity | simpl; lia]);
    try discriminate; reflexivity.
Defined.

(** ** The peer directory *)

(** The directory entry made of one [(id, key)] item of the key map. *)
Lemma directory_fold (F : dict (list string)) (modules_keys : dict string)
    (acc : dict (list string * string)) :
  NoDup (keys modules_keys) ->
  (forall k, In k (keys acc) -> ~ In k (keys modules_keys)) ->
  fold_left
    (fun modules_info kv =>
       match dict_get F (fst kv) with
       | None | Some [] => modules_info
       | Some module_addr =>
           dict_set modules_info (fst kv) (module_addr, snd kv)
       end) modules_keys acc
  = acc ++ flat_map (fun kv => match dict_get F (fst kv) with
                               | None | Some [] => []
                               | Some module_addr =>
                                   [(fst kv, (module_addr, snd kv))]
                               end) modules_keys.
Proof.
  revert acc. induction modules_keys as [| [k key] mk IH]; intros acc Hnd Hacc.
  - simpl. rewrite app_nil_r. reflexivity.
  - inversion Hnd as [| ? ? Hk Hnd']; subst.
    cbn [fold_left flat_map fst snd].
    assert (Hfresh : ~ In k (keys acc)).
    { intros Hin. apply (Hacc k Hin). left. reflexivity. }
    destruct (dict_get F k) as [[| a0 a] |].
    + apply IH; [exact Hnd' |]. intros k' Hin Hin'. apply (Hacc k' Hin).
      right. exact Hin'.
    + rewrite IH; [| exact Hnd' |].
      * rewrite (dict_set_fresh _ acc k _ Hfresh), <- app_assoc. reflexivity.
      * intros k' Hin Hin'. apply dict_set_keys_in in Hin.
        destruct Hin as [-> | Hin]; [exact (Hk Hin') |].
        apply (Hacc k' Hin). right. exact Hin'.
    + apply IH; [exact Hnd' |]. intros k' Hin Hin'. apply (Hacc k' Hin).
      right. exact Hin'.
Qed.

Lemma get_ip_port_value_nonempty (d : dict string) (id : Z) :
  NoDup (keys d) -> dict_get (get_ip_port d) id <> Some [].
Proof.
  intros Hnd H. apply (get_ip_port_value _ _ _ Hnd) in H.
  destruct H as [addr [ip [port [pre [post [_ [_ [_ [_ [_ H]]]]]]]]]].
  discriminate.
Qed.

Lemma keys_directory_entries (F : dict (list string))
    (modules_keys : dict string) :
  (forall id, dict_get F id <> Some []) ->
  keys (flat_map (fun kv => match dict_get F (fst kv) with
                            | None | Some [] => []
                            | Some module_addr =>
                                [(fst kv, (module_addr, snd kv))]
                            end) modules_keys)
  = filter (fun id => match dict_get F id with
                      | Some _ => true
                      | None => false
                      end) (keys modules_keys).
Proof.
  intros HF. induction modules_keys as [| [k key] mk IH]; [reflexivity |].
  cbn [flat_map keys map filter fst snd]. specialize (HF k).
  destruct (dict_get F k) as [[| a0 a] |]; [congruence | |].
  - cbn [app map fst]. f_equal. exact IH.
  - exact IH.
Qed.

(** X21 (retrieve_miner_information).  With one entry per id in both
    ledger maps: the validator gets no directory when its own key is not
    registered; otherwise the directory lists, in the order of the key
    map, exactly the registered ids for which [get_ip_port] found an
    address, each with that [[ip; port]] pair and its own key.  An id with
    a key but no usable address is left out, and so is an address without a
    key. *)
Theorem retrieve_miner_information_directory
    (modules_adresses modules_keys : dict string) (val_ss58 : string) :
  NoDup (keys modules_adresses) -> NoDup (keys modules_keys) ->
  (~ In val_ss58 (values modules_keys) ->
   retrieve_miner_information modules_adresses modules_keys val_ss58
   = NotRegistered)
  /\ (In val_ss58 (values modules_keys) ->
      exists modules_info,
        retrieve_miner_information modules_adresses modules_keys val_ss58
        = Directory modules_info
        /\ keys modules_info
           = filter (fun id =>
                       match dict_get (get_ip_port modules_adresses) id with
                       | Some _ => true
                       | None => false
                       end) (keys modules_keys)
        /\ (forall id module_addr key,
              dict_get modules_info id = Some (module_addr, key)
              <-> dict_get (get_ip_port modules_adresses) id
                  = Some module_addr
                  /\ dict_get modules_keys id = Some key)
        /\ (forall id module_addr key,
              dict_get modules_info id = Some (module_addr, key) ->
              exists ip port,
                module_addr
                = [string_of_list_ascii ip; string_of_list_ascii port]
                /\ dotted_quad ip /\ port <> []
                /\ forallb is_digit port = true)).
Proof.
  intros Hna Hnk. unfold retrieve_miner_information. split.
  - intros Hnot.
    destruct (existsb (String.eqb val_ss58) (values modules_keys)) eqn:E;
      [| reflexivity].
    apply existsb_exists in E. destruct E as [key [Hin Heq]].
    apply String.eqb_eq in Heq. subst key. contradiction.
  - intros Hin.
    assert (E : existsb (String.eqb val_ss58) (values modules_keys) = true).
    { apply existsb_exists. exists val_ss58. split; [exact Hin |].
      apply String.eqb_refl. }
    rewrite E. cbn [negb]. cbv zeta.
    set (F := get_ip_port modules_adresses).
    assert (HF : forall id, dict_get F id <> Some []).
    { intros id. apply get_ip_port_value_nonempty. exact Hna. }
    rewrite (directory_fold F modules_keys [] Hnk)
      by (intros k []).
    cbn [app].
    set (modules_info := flat_map _ modules_keys).
    assert (Hkeys : keys modules_info
                    = filter (fun id => match dict_get F id with
                                        | Some _ => true
                                        | None => false
                                        end) (keys modules_keys)).
    { apply keys_directory_entries. exact HF. }
    assert (Hnd : NoDup (keys modules_info)).
    { rewrite Hkeys. apply NoDup_filter. exact Hnk. }
    assert (Hget : forall id module_addr key,
               dict_get modules_info id = Some (module_addr, key)
               <-> dict_get F id = Some module_addr
                   /\ dict_get modules_keys id = Some key).
    { intros id module_addr key. split.
      - intros H. apply dict_get_in in H. apply in_flat_map in H.
        destruct H as [[k key'] [Hk H]]. cbn [fst snd] in H.
        destruct (dict_get F k) as [[| a0 a] |] eqn:EF;
          [contradiction | | contradiction].
        destruct H as [H | []]. injection H as -> <- <-.
        split; [exact EF |]. apply dict_get_nodup; assumption.
      - intros [H1 H2]. apply dict_get_nodup; [exact Hnd |].
        apply in_flat_map. exists (id, key).
        split; [apply dict_get_in; exact H2 |].
        cbn [fst snd]. rewrite H1.
        destruct module_addr as [| a0 a]; [elim (HF id); exact H1 |].
        left. reflexivity. }
    exists modules_info. split; [reflexivity |].
    split; [exact Hkeys |]. split; [exact Hget |].
    intros id module_addr key H. apply Hget in H. destruct H as [H _].
    apply (get_ip_port_value _ _ _ Hna) in H.
    destruct H as [addr [ip [port [pre [post [_ [_ [Hip [Hne [Hd Hv]]]]]]]]]].
    exists ip, port. auto.
Qed.

Lemma retrieve_miner_information_directory_witness :
  retrieve_miner_information demo_modules_adresses demo_modules_keys "nobody"
  = NotRegistered
  /\ exists modules_info,
       retrieve_miner_information demo_modules_adresses demo_modules_keys
         "validator"
       = Directory modules_info
       /\ keys modules_info = [3%Z; 1%Z]
       /\ dict_get modules_info 1%Z
          = Some (["10.0.0.1"%string; "8000"%string], "key1"%string).
Proof.
  assert (Hna : NoDup (keys demo_modules_adresses)).
  { repeat constructor; simpl; intuition discriminate. }
  assert (Hnk : NoDup (keys demo_modules_keys)).
  { repeat constructor; simpl; intuition discriminate. }
  split.
  - apply (retrieve_miner_information_directory _ _ _ Hna Hnk).
    simpl. intuition discriminate.
  - destruct (retrieve_miner_information_directory
                demo_modules_adresses demo_modules_keys "validator" Hna Hnk)
      as [_ H].
    destruct H as [modules_info [Hrun [Hkeys [Hget _]]]].
    + simpl. tauto.
    + exists modules_info. split; [exact Hrun |].
      split; [rewrite Hkeys; reflexivity |].
      apply Hget. split; reflexivity.
Defined.

(** ** The token-pair table *)

Module TokenPairsFacts.
Import MinerSync TokenPairs.

Lemma filter_by_update (token_pair : string * string * Z) (b : bool)
    (row : Tokenpairstable) :
  filter_by token_pair (update_completed b row) = filter_by token_pair row.
Proof. reflexivity. Qed.

Lemma listed_update (token_pairs : list (string * string * Z)) (b : bool)
    (row : Tokenpairstable) :
  listed token_pairs (update_completed b row) = listed token_pairs row.
Proof. reflexivity. Qed.

Lemma find_none_iff (A : Type) (f : A -> bool) (l : list A) :
  find f l = None <-> forall x, In x l -> f x = false.
Proof.
  split; [apply find_none |].
  induction l as [| x l IH]; simpl; intros H; [reflexivity |].
  rewrite (H x (or_introl eq_refl)). apply IH. intros y Hy. apply H.
  right. exact Hy.
Qed.

Lemma no_row_after_update (token_pair token_pair' : string * string * Z)
    (session : list Tokenpairstable) :
  (forall row,
      In row (map (fun row => if filter_by token_pair row
                              then update_completed true row else row)
                  session) ->
      filter_by token_pair' row = false)
  <-> (forall row, In row session -> filter_by token_pair' row = false).
Proof.
  split.
  - intros H row Hin.
    specialize (H _ (in_map _ _ _ Hin)). cbv beta in H.
    destruct (filter_by token_pair row); [| exact H].
    rewrite filter_by_update in H. exact H.
  - intros H row' Hin. apply in_map_iff in Hin.
    destruct Hin as [row [<- Hin]].
    destruct (filter_by token_pair row); [rewrite filter_by_update |];
      apply H; exact Hin.
Qed.

Lemma mark_loop_none (token_pairs : list (string * string * Z))
    (session : list Tokenpairstable) :
  mark_loop token_pairs session = None
  <-> exists token_pair,
        In token_pair token_pairs
        /\ forall row, In row session -> filter_by token_pair row = false.
Proof.
  revert session. induction token_pairs as [| tp tps IH]; intros session.
  - simpl. split; [discriminate | intros [tp [[] _]]].
  - cbn [mark_loop].
    destruct (find (filter_by tp) session) as [record |] eqn:E.
    + rewrite IH. split.
      * intros [tp' [Hin H]]. exists tp'. split; [right; exact Hin |].
        apply (no_row_after_update tp tp' session). exact H.
      * intros [tp' [[<- | Hin] H]].
        -- apply find_some in E. destruct E as [Hrec Hkey].
           rewrite (H _ Hrec) in Hkey. discriminate.
        -- exists tp'. split; [exact Hin |].
           apply (no_row_after_update tp tp' session). exact H.
    + split; [| reflexivity]. intros _. exists tp.
      split; [left; reflexivity |]. apply find_none_iff. exact E.
Qed.

Lemma mark_loop_some (token_pairs : list (string * string * Z))
    (session session' : list Tokenpairstable) :
  mark_loop token_pairs session = Some session' ->
  session' = map (fun row => if listed token_pairs row
                             then update_completed true row else row)
                 session.
Proof.
  revert session. induction token_pairs as [| tp tps IH]; intros session.
  - simpl. intros [= <-]. symmetry. apply map_id.
  - cbn [mark_loop].
    destruct (find (filter_by tp) session) as [record |]; [| discriminate].
    intros H. apply IH in H. rewrite H, map_map. apply map_ext.
    intros row. unfold listed at 2. cbn [existsb].
    fold (listed tps row).
    destruct (filter_by tp row); cbn [orb].
    + rewrite listed_update. destruct (listed tps row); reflexivity.
    + reflexivity.
Qed.

(** X22 (mark_token_pairs_as_complete).  Marking is all or nothing: the
    call returns [False] exactly when one of the pairs has no row, and then
    the table is left as it was, also for the pairs that come before the
    missing one; when it returns [True], every row carrying one of the keys
    is completed (all of them, when a key is stored more than once) and
    every other row is untouched. *)
Theorem mark_token_pairs_all_or_nothing
    (token_pairs : list (string * string * Z))
    (table : list Tokenpairstable) :
  (fst (mark_token_pairs_as_complete token_pairs table) = false
   <-> exists token_pair,
         In token_pair token_pairs
         /\ forall row, In row table -> filter_by token_pair row = false)
  /\ (fst (mark_token_pairs_as_complete token_pairs table) = false ->
      snd (mark_token_pairs_as_complete token_pairs table) = table)
  /\ (fst (mark_token_pairs_as_complete token_pairs table) = true ->
      snd (mark_token_pairs_as_complete token_pairs table)
      = map (fun row => if listed token_pairs row
                        then update_completed true row else row) table).
Proof.
  unfold mark_token_pairs_as_complete.
  destruct (mark_loop token_pairs table) as [session |] eqn:E; cbn [fst snd].
  - split; [| split]; [| discriminate | intros _; apply mark_loop_some; exact E].
    split; [discriminate |]. intros H. apply mark_loop_none in H.
    congruence.
  - split; [| split]; [| reflexivity | discriminate].
    split; [| reflexivity]. intros _. apply mark_loop_none. exact E.
Qed.

Lemma mark_token_pairs_all_or_nothing_witness :
  snd (mark_token_pairs_as_complete
         [event_key demo_event; ("0xA0b8"%string, "0xC02a"%string, 10000%Z)]
         demo_table)
  = demo_table
  /\ map completed
       (snd (mark_token_pairs_as_complete [event_key demo_event] demo_table))
     = [true; false; true].
Proof.
  split.
  - apply (mark_token_pairs_all_or_nothing
             [event_key demo_event;
              ("0xA0b8"%string, "0xC02a"%string, 10000%Z)] demo_table).
    reflexivity.
  - destruct (mark_token_pairs_all_or_nothing [event_key demo_event]
                demo_table) as [_ [_ H]].
    rewrite H; reflexivity.
Defined.

Lemma filter_by_key (token_pair : string * string * Z)
    (row : Tokenpairstable) :
  filter_by token_pair row = true <-> natural_key row = token_pair.
Proof.
  destruct token_pair as [[a b] c]. unfold filter_by, natural_key.
  cbn [fst snd]. rewrite !andb_true_iff, !String.eqb_eq, Z.eqb_eq.
  split.
  - intros [[-> ->] ->]. reflexivity.
  - intros [= -> -> ->]. auto.
Qed.

Lemma listed_key (token_pairs : list (string * string * Z))
    (row : Tokenpairstable) :
  listed token_pairs row = true <-> In (natural_key row) token_pairs.
Proof.
  unfold listed. rewrite existsb_exists. split.
  - intros [tp [Hin H]]. apply filter_by_key in H. rewrite H. exact Hin.
  - intros Hin. exists (natural_key row). split; [exact Hin |].
    apply filter_by_key. reflexivity.
Qed.

Lemma mark_succeeds (token_pairs : list (string * string * Z))
    (table : list Tokenpairstable) :
  (forall token_pair, In token_pair token_pairs ->
                      exists row, In row table /\ natural_key row = token_pair) ->
  mark_token_pairs_as_complete token_pairs table
  = (true, map (fun row => if listed token_pairs row
                           then update_completed true row else row) table).
Proof.
  intros H. unfold mark_token_pairs_as_complete.
  destruct (mark_loop token_pairs table) as [session |] eqn:E.
  - apply mark_loop_some in E. rewrite E. reflexivity.
  - apply mark_loop_none in E. destruct E as [tp [Hin Hno]].
    destruct (H tp Hin) as [row [Hrow Hkey]].
    apply filter_by_key in Hkey. rewrite (Hno row Hrow) in Hkey.
    discriminate.
Qed.

Lemma pending_after_mark (token_pairs : list (string * string * Z))
    (table : list Tokenpairstable) :
  filter (fun row => negb (completed row))
    (map (fun row => if listed token_pairs row
                     then update_completed true row else row) table)
  = filter (fun row => negb (completed row) && negb (listed token_pairs row))
      table.
Proof.
  induction table as [| row table IH]; [reflexivity |].
  cbn [map filter].
  destruct (listed token_pairs row) eqn:E.
  - cbn [update_completed completed negb]. rewrite andb_false_r. exact IH.
  - cbn [negb]. rewrite andb_true_r.
    destruct (negb (completed row)); rewrite IH; reflexivity.
Qed.

(** X23 (reset_token_pairs, mark_token_pairs_as_complete,
    fetch_incompleted_token_pairs).  [reset_token_pairs] undoes every
    marking: the table after a marking and a reset is the table after the
    reset alone, and all stored pairs are pending again.  Marking the keys
    of all stored pairs succeeds and leaves no pair pending. *)
Theorem reset_undoes_marking (token_pairs : list (string * string * Z))
    (table : list Tokenpairstable) :
  reset_token_pairs (snd (mark_token_pairs_as_complete token_pairs table))
  = reset_token_pairs table
  /\ length (fetch_incompleted_token_pairs (reset_token_pairs table))
     = length table
  /\ fst (mark_token_pairs_as_complete (map natural_key table) table)
     = true
  /\ fetch_incompleted_token_pairs
       (snd (mark_token_pairs_as_complete (map natural_key table) table))
     = [].
Proof.
  split; [| split].
  - unfold mark_token_pairs_as_complete.
    destruct (mark_loop token_pairs table) as [session |] eqn:E;
      [| reflexivity].
    apply mark_loop_some in E. rewrite E. cbn [snd].
    unfold reset_token_pairs. rewrite map_map. apply map_ext.
    intros row. destruct (listed token_pairs row); reflexivity.
  - unfold fetch_incompleted_token_pairs, reset_token_pairs.
    rewrite length_map.
    replace (filter (fun row => negb (completed row))
               (map (update_completed false) table))
      with (map (update_completed false) table); [apply length_map |].
    induction table as [| row table IH]; [reflexivity |].
    cbn [map filter update_completed completed negb]. f_equal. exact IH.
  - rewrite mark_succeeds.
    + cbn [fst snd]. split; [reflexivity |].
      unfold fetch_incompleted_token_pairs. rewrite pending_after_mark.
      assert (H : forall rows,
                 incl rows table ->
                 filter (fun row => negb (completed row)
                                    && negb (listed (map natural_key table)
                                               row)) rows = []).
      { induction rows as [| row rows IH]; intros Hincl; [reflexivity |].
        cbn [filter].
        assert (H : listed (map natural_key table) row = true).
        { apply listed_key. apply in_map. apply Hincl. left. reflexivity. }
        rewrite H, andb_false_r. apply IH. intros r Hr. apply Hincl.
        right. exact Hr. }
      rewrite (H table (incl_refl table)). reflexivity.
    + intros tp Hin. apply in_map_iff in Hin.
      destruct Hin as [row [Hkey Hrow]]. exists row. auto.
Qed.

Lemma add_token_pairs_rows (token_pairs : list PoolCreated)
    (table : list Tokenpairstable) :
  exists rows,
    add_token_pairs token_pairs table = table ++ rows
    /\ map natural_key rows = map event_key token_pairs
    /\ Forall (fun row => completed row = false) rows.
Proof.
  revert table. induction token_pairs as [| e es IH]; intros table.
  - exists []. rewrite app_nil_r. repeat split. constructor.
  - destruct (IH (insert_row table e)) as [rows [E [Hkeys Hpending]]].
    change (add_token_pairs (e :: es) table)
      with (add_token_pairs es (insert_row table e)).
    rewrite E. unfold insert_row. rewrite <- app_assoc.
    eexists. split; [reflexivity |]. split.
    + cbn [app map]. rewrite Hkeys. reflexivity.
    + constructor; [reflexivity | exact Hpending].
Qed.

(** X24 (add_token_pairs, fetch_incompleted_token_pairs,
    mark_token_pairs_as_complete).  Pairs that were just added are pending,
    whatever the table held, and marking them then succeeds: afterwards no
    pending pair carries one of their keys. *)
Theorem added_pairs_are_pending_then_marked
    (token_pairs : list PoolCreated) (table : list Tokenpairstable) :
  (forall e, In e token_pairs ->
             In {| i_token0 := token0 e; i_token1 := token1 e;
                   i_fee := fee e; i_completed := false |}
                (fetch_incompleted_token_pairs
                   (add_token_pairs token_pairs table)))
  /\ fst (mark_token_pairs_as_complete (map event_key token_pairs)
            (add_token_pairs token_pairs table)) = true
  /\ (forall d,
        In d (fetch_incompleted_token_pairs
                (snd (mark_token_pairs_as_complete
                        (map event_key token_pairs)
                        (add_token_pairs token_pairs table)))) ->
        ~ In (i_token0 d, i_token1 d, i_fee d)
             (map event_key token_pairs)).
Proof.
  destruct (add_token_pairs_rows token_pairs table)
    as [rows [-> [Hkeys Hpending]]].
  assert (Hrow : forall e, In e token_pairs ->
                           exists row, In row rows
                                       /\ natural_key row = event_key e).
  { intros e He. apply (in_map event_key) in He. rewrite <- Hkeys in He.
    apply in_map_iff in He. destruct He as [row [Hk Hin]]. exists row. auto. }
  split; [| split].
  - intros e He. destruct (Hrow e He) as [row [Hin Hk]].
    unfold fetch_incompleted_token_pairs. apply in_map_iff. exists row.
    rewrite Forall_forall in Hpending.
    unfold natural_key, event_key in Hk. injection Hk as -> -> ->.
    rewrite (Hpending row Hin). split; [reflexivity |].
    apply filter_In. split; [apply in_or_app; right; exact Hin |].
    rewrite (Hpending row Hin). reflexivity.
  - rewrite mark_succeeds; [reflexivity |].
    intros tp Htp. apply in_map_iff in Htp. destruct Htp as [e [<- He]].
    destruct (Hrow e He) as [row [Hin Hk]]. exists row.
    split; [apply in_or_app; right; exact Hin | exact Hk].
  - rewrite mark_succeeds.
    + cbn [snd]. intros d Hd Hkey.
      unfold fetch_incompleted_token_pairs in Hd.
      rewrite pending_after_mark in Hd. apply in_map_iff in Hd.
      destruct Hd as [row [<- Hin]]. cbn [i_token0 i_token1 i_fee] in Hkey.
      apply filter_In in Hin. destruct Hin as [_ Hin].
      apply andb_true_iff in Hin. destruct Hin as [_ Hin].
      apply negb_true_iff in Hin.
      apply (listed_key (map event_key token_pairs) row) in Hkey.
      congruence.
    + intros tp Htp. apply in_map_iff in Htp. destruct Htp as [e [<- He]].
      destruct (Hrow e He) as [row [Hin Hk]]. exists row.
      split; [apply in_or_app; right; exact Hin | exact Hk].
Qed.

Lemma added_pairs_are_pending_then_marked_witness :
  In {| i_token0 := "0xA0b8"; i_token1 := "0xC02a"; i_fee := 3000%Z;
        i_completed := false |}
     (fetch_incompleted_token_pairs (add_token_pairs [demo_event] demo_table))
  /\ ~ In ("0xA0b8"%string, "0xC02a"%string, 3000%Z)
         (map (fun d => (i_token0 d, i_token1 d, i_fee d))
            (fetch_incompleted_token_pairs
               (snd (mark_token_pairs_as_complete
                       (map event_key [demo_event])
                       (add_token_pairs [demo_event] demo_table))))).
Proof.
  destruct (added_pairs_are_pending_then_marked [demo_event] demo_table)
    as [Hpending [_ Hmarked]].
  split.
  - apply (Hpending demo_event). left. reflexivity.
  - intros Hin. apply in_map_iff in Hin. destruct Hin as [d [Hkey Hd]].
    apply (Hmarked d Hd). rewrite Hkey. left. reflexivity.
Defined.

End TokenPairsFacts.

(** ** The timetable *)

Module TimetableFacts.
Import TimetableDB.

Lemma first_by_start_desc_fold (rows : list Timetable)
    (best : option Timetable) :
  match fold_left (fun best row =>
                     match best with
                     | None => Some row
                     | Some b => if (start b <? start row)%Z then Some row
                                 else Some b
                     end) rows best with
  | None => best = None /\ rows = []
  | Some r =>
      (best = Some r \/ In r rows)
      /\ (forall b, best = Some b -> (start b <= start r)%Z)
      /\ forall x, In x rows -> (start x <= start r)%Z
  end.
Proof.
  revert best. induction rows as [| row rows IH]; intros best.
  - simpl. destruct best as [b |]; [| auto].
    split; [left; reflexivity |]. split; [| intros x []].
    intros b' [= <-]. lia.
  - cbn [fold_left].
    match goal with
    | |- context [fold_left ?f rows ?b'] =>
        specialize (IH b'); destruct (fold_left f rows b') as [r |]
    end.
    + destruct IH as [Hin [Hbest Hrows]].
      destruct best as [b |].
      * destruct (Z.ltb_spec (start b) (start row)) as [Hlt | Hge].
        -- specialize (Hbest row eq_refl). split; [| split].
           ++ right. destruct Hin as [[= <-] | Hin];
                [left; reflexivity | right; exact Hin].
           ++ intros b' [= <-]. lia.
           ++ intros x [<- | Hx]; [exact Hbest | apply Hrows; exact Hx].
        -- specialize (Hbest b eq_refl). split; [| split].
           ++ destruct Hin as [[= <-] | Hin];
                [left; reflexivity | right; right; exact Hin].
           ++ intros b' [= <-]. exact Hbest.
           ++ intros x [<- | Hx]; [lia | apply Hrows; exact Hx].
      * specialize (Hbest row eq_refl). split; [| split].
        -- right. destruct Hin as [[= <-] | Hin];
             [left; reflexivity | right; exact Hin].
        -- intros b' [=].
        -- intros x [<- | Hx]; [exact Hbest | apply Hrows; exact Hx].
    + destruct IH as [Hbest _]. destruct best as [b |].
      * destruct (start b <? start row)%Z; discriminate.
      * discriminate.
Qed.

Lemma first_by_start_desc_some (rows : list Timetable) (r : Timetable) :
  first_by_start_desc rows = Some r ->
  In r rows /\ forall x, In x rows -> (start x <= start r)%Z.
Proof.
  intros H. pose proof (first_by_start_desc_fold rows None) as Hfold.
  unfold first_by_start_desc in H. rewrite H in Hfold.
  destruct Hfold as [[Hbest | Hin] [_ Hrows]]; [discriminate |]. auto.
Qed.

Lemma first_by_start_desc_none (rows : list Timetable) :
  first_by_start_desc rows = None <-> rows = [].
Proof.
  split.
  - intros H. pose proof (first_by_start_desc_fold rows None) as Hfold.
    unfold first_by_start_desc in H. rewrite H in Hfold. tauto.
  - intros ->. reflexivity.
Qed.

Lemma fetch_completed_time_ok (table : list Timetable) (row0 : Timetable) :
  In row0 table -> completed row0 = true ->
  exists row,
    fetch_completed_time table = Ok row
    /\ In row table /\ completed row = true
    /\ forall r, In r table -> completed r = true ->
                 (start r <= start row)%Z.
Proof.
  intros Hin Hdone. unfold fetch_completed_time.
  destruct (first_by_start_desc (filter completed table)) as [row |] eqn:E.
  - apply first_by_start_desc_some in E. destruct E as [Hrow Hmax].
    apply filter_In in Hrow. destruct Hrow as [Hrow Hc].
    exists row. split; [reflexivity |]. split; [exact Hrow |].
    split; [exact Hc |]. intros r Hr Hrc. apply Hmax. apply filter_In. auto.
  - apply first_by_start_desc_none in E.
    assert (H : In row0 (filter completed table)) by (apply filter_In; auto).
    rewrite E in H. contradiction.
Qed.

(** X25 (fetch_completed_time, fetch_last_time_range).  While no range of
    the timetable is completed (an empty timetable included),
    [fetch_completed_time] raises [AttributeError] instead of returning
    [None]; once one is, it returns the completed range with the latest
    start.  [fetch_last_time_range] guards the same case: it returns
    [None] exactly on an empty timetable and otherwise the range with the
    latest start, completed or not. *)
Theorem fetch_completed_time_needs_a_completed_range
    (table : list Timetable) :
  ((forall row, In row table -> completed row = false) ->
   fetch_completed_time table = Raise AttributeError)
  /\ (forall row0,
        In row0 table -> completed row0 = true ->
        exists row,
          fetch_completed_time table = Ok row
          /\ In row table /\ completed row = true
          /\ forall r, In r table -> completed r = true ->
                       (start r <= start row)%Z)
  /\ (fetch_last_time_range table = None <-> table = [])
  /\ (forall row,
        fetch_last_time_range table = Some row ->
        In row table /\ forall r, In r table -> (start r <= start row)%Z).
Proof.
  split; [| split; [| split]].
  - intros Hnone. unfold fetch_completed_time.
    replace (filter completed table) with (@nil Timetable); [reflexivity |].
    induction table as [| row table IH]; [reflexivity |].
    cbn [filter]. rewrite (Hnone row (or_introl eq_refl)).
    apply IH. intros r Hr. apply Hnone. right. exact Hr.
  - apply fetch_completed_time_ok.
  - apply first_by_start_desc_none.
  - apply first_by_start_desc_some.
Qed.

Lemma fetch_completed_time_needs_a_completed_range_witness :
  fetch_completed_time
    [{| start := 100%Z; end_ := 101%Z; completed := false |}]
  = Raise AttributeError
  /\ exists row,
       fetch_completed_time demo_timetable = Ok row
       /\ (100 <= start row)%Z.
Proof.
  split.
  - apply (fetch_completed_time_needs_a_completed_range
             [{| start := 100%Z; end_ := 101%Z; completed := false |}]).
    intros row [<- | []]. reflexivity.
  - destruct (fetch_completed_time_needs_a_completed_range demo_timetable)
      as [_ [H _]].
    destruct (H {| start := 100%Z; end_ := 101%Z; completed := true |})
      as [row [Hrun [_ [_ Hmax]]]].
    + left. reflexivity.
    + reflexivity.
    + exists row. split; [exact Hrun |].
      apply (Hmax {| start := 100%Z; end_ := 101%Z; completed := true |}).
      * left. reflexivity.
      * reflexivity.
Defined.

Lemma mark_found (start0 end0 : Z) (table : list Timetable) (c : bool) :
  In {| start := start0; end_ := end0; completed := c |} table ->
  mark_time_range_as_complete start0 end0 table
  = (true,
     map (fun row => if Z.eqb (start row) start0
                     then {| start := start row; end_ := end_ row;
                             completed := true |}
                     else row) table).
Proof.
  intros Hin. unfold mark_time_range_as_complete.
  destruct (find _ table) as [record |] eqn:E.
  - apply find_some in E. destruct E as [_ E].
    apply andb_true_iff in E. destruct E as [E _].
    apply Z.eqb_eq in E. rewrite E. reflexivity.
  - apply find_none with (x := {| start := start0; end_ := end0;
                                  completed := c |}) in E; [| exact Hin].
    cbn [start end_] in E. rewrite !Z.eqb_refl in E. discriminate.
Qed.

(** X26 (mark_time_range_as_complete).  A range is marked by its start
    and its end together: when no row has both, the call returns [False]
    and changes nothing, also when a row with that start exists.  When the
    range is stored, the call returns [True], changes no start, leaves
    every row with another start as it was and makes the range completed,
    after which [fetch_completed_time] no longer fails and reports a range
    that starts no earlier. *)
Theorem mark_time_range_as_complete_spec (start0 end0 : Z)
    (table : list Timetable) :
  ((forall row, In row table -> start row = start0 -> end_ row <> end0) ->
   mark_time_range_as_complete start0 end0 table = (false, table))
  /\ (forall c,
        In {| start := start0; end_ := end0; completed := c |} table ->
        exists table',
          mark_time_range_as_complete start0 end0 table = (true, table')
          /\ map start table' = map start table
          /\ In {| start := start0; end_ := end0; completed := true |} table'
          /\ (forall row, start row <> start0 ->
                          (In row table' <-> In row table))
          /\ exists row,
               fetch_completed_time table' = Ok row
               /\ (start0 <= start row)%Z).
Proof.
  split.
  - intros Hno. unfold mark_time_range_as_complete.
    destruct (find _ table) as [record |] eqn:E; [| reflexivity].
    apply find_some in E. destruct E as [Hin E].
    apply andb_true_iff in E. destruct E as [E1 E2].
    apply Z.eqb_eq in E1, E2. elim (Hno record Hin E1 E2).
  - intros c Hin. rewrite (mark_found _ _ _ _ Hin).
    eexists. split; [reflexivity |].
    set (g := fun row : Timetable => _).
    assert (Hmarked : In {| start := start0; end_ := end0;
                            completed := true |} (map g table)).
    { apply in_map_iff.
      exists {| start := start0; end_ := end0; completed := c |}.
      split; [| exact Hin]. unfold g. cbn [start end_].
      rewrite Z.eqb_refl. reflexivity. }
    split; [| split; [exact Hmarked | split]].
    + rewrite map_map. apply map_ext. intros row. unfold g.
      destruct (start row =? start0)%Z; reflexivity.
    + intros row Hne. split.
      * intros H. apply in_map_iff in H. destruct H as [x [<- Hx]].
        unfold g in *. destruct (Z.eqb_spec (start x) start0) as [Ex | Ex].
        -- cbn [start] in Hne. contradiction.
        -- exact Hx.
      * intros H. apply in_map_iff. exists row. split; [| exact H].
        unfold g. destruct (Z.eqb_spec (start row) start0); [contradiction |].
        reflexivity.
    + destruct (fetch_completed_time_ok (map g table) _ Hmarked eq_refl)
        as [row [Hrun [_ [_ Hmax]]]].
      exists row. split; [exact Hrun |].
      apply (Hmax _ Hmarked). reflexivity.
Qed.

Lemma mark_time_range_as_complete_spec_witness :
  mark_time_range_as_complete 102 104 demo_timetable = (false, demo_timetable)
  /\ exists table',
       mark_time_range_as_complete 102 103 demo_timetable = (true, table')
       /\ In {| start := 102%Z; end_ := 103%Z; completed := true |} table'.
Proof.
  split.
  - apply (mark_time_range_as_complete_spec 102 104 demo_timetable).
    intros row [<- | [<- | [<- | []]]]; cbn [start end_]; intros H;
      discriminate.
  - destruct (mark_time_range_as_complete_spec 102 103 demo_timetable)
      as [_ H].
    destruct (H false) as [table' [Hrun [_ [Hin _]]]].
    + right. left. reflexivity.
    + exists table'. split; [exact Hrun | exact Hin].
Defined.

Lemma add_committed (start0 end0 : Z) (table : list Timetable) :
  ~ In start0 (map start table) ->
  add_timetable_entry start0 end0 table
  = Committed (table ++ [{| start := start0; end_ := end0;
                            completed := false |}]).
Proof.
  intros Hnew. unfold add_timetable_entry.
  destruct (existsb _ table) eqn:E; [| reflexivity].
  apply existsb_exists in E. destruct E as [row [Hin E]].
  apply Z.eqb_eq in E. elim Hnew. rewrite <- E. apply in_map. exact Hin.
Qed.

(** X27 (add_timetable_entry, mark_time_range_as_complete,
    fetch_completed_time, fetch_last_time_range,
    fetch_incompleted_time_range).  A second range with a start that is
    already stored is refused.  A range with a new start is stored as not
    completed: starts stay unique, it is the last of the pending ranges,
    and what [fetch_completed_time] gives is as before.  When it starts
    later than every stored range it is the one [fetch_last_time_range]
    returns, and once it is marked complete it is the one
    [fetch_completed_time] returns. *)
Theorem add_timetable_entry_spec (start0 end0 : Z) (table : list Timetable) :
  primary_key table ->
  (In start0 (map start table) ->
   add_timetable_entry start0 end0 table = IntegrityError)
  /\ (~ In start0 (map start table) ->
      let new := {| start := start0; end_ := end0; completed := false |} in
      exists table',
        add_timetable_entry start0 end0 table = Committed table'
        /\ primary_key table'
        /\ fetch_incompleted_time_range table'
           = fetch_incompleted_time_range table ++ [new]
        /\ fetch_completed_time table' = fetch_completed_time table
        /\ ((forall row, In row table -> (start row < start0)%Z) ->
            fetch_last_time_range table' = Some new
            /\ fetch_completed_time
                 (snd (mark_time_range_as_complete start0 end0 table'))
               = Ok {| start := start0; end_ := end0; completed := true |})).
Proof.
  intros Hpk. split.
  - intros Hin. unfold add_timetable_entry.
    replace (existsb _ table) with true; [reflexivity |].
    symmetry. apply existsb_exists. apply in_map_iff in Hin.
    destruct Hin as [row [E Hin]]. exists row. split; [exact Hin |].
    apply Z.eqb_eq. exact E.
  - intros Hnew new. rewrite (add_committed _ end0 _ Hnew). fold new.
    exists (table ++ [new]). split; [reflexivity |].
    split; [| split; [| split]].
    + unfold primary_key. rewrite map_app. cbn [map start new].
      apply NoDup_app. repeat split.
      * exact Hpk.
      * constructor; [intros [] | constructor].
      * intros x Hx [<- | []]. exact (Hnew Hx).
    + unfold fetch_incompleted_time_range. rewrite filter_app. reflexivity.
    + unfold fetch_completed_time. rewrite filter_app. cbn [filter new completed].
      rewrite app_nil_r. reflexivity.
    + intros Hlater. split.
      * unfold fetch_last_time_range, first_by_start_desc.
        rewrite fold_left_app. cbn [fold_left].
        fold (first_by_start_desc table).
        destruct (first_by_start_desc table) as [b |] eqn:E; [| reflexivity].
        apply first_by_start_desc_some in E. destruct E as [Hb _].
        specialize (Hlater b Hb). cbn [start new].
        destruct (Z.ltb_spec (start b) start0); [reflexivity | lia].
      * assert (Hin : In new (table ++ [new])).
        { apply in_or_app. right. left. reflexivity. }
        rewrite (mark_found start0 end0 (table ++ [new]) false Hin).
        cbn [snd]. set (g := fun row : Timetable => _).
        assert (Hmarked : In {| start := start0; end_ := end0;
                                completed := true |}
                             (map g (table ++ [new]))).
        { apply in_map_iff. exists new. split; [| exact Hin].
          unfold g. cbn [start end_ new]. rewrite Z.eqb_refl. reflexivity. }
        destruct (fetch_completed_time_ok _ _ Hmarked eq_refl)
          as [row [Hrun [Hrow [_ Hmax]]]].
        rewrite Hrun. f_equal.
        specialize (Hmax _ Hmarked eq_refl). cbn [start] in Hmax.
        apply in_map_iff in Hrow. destruct Hrow as [x [<- Hx]].
        apply in_app_or in Hx. destruct Hx as [Hx | [<- | []]].
        -- specialize (Hlater x Hx). unfold g in Hmax.
           destruct (start x =? start0)%Z; cbn [start] in Hmax; lia.
        -- unfold g. cbn [start end_ new]. rewrite Z.eqb_refl. reflexivity.
Qed.

Lemma add_timetable_entry_spec_witness :
  add_timetable_entry 102 110 demo_timetable = IntegrityError
  /\ fetch_completed_time
       (snd (mark_time_range_as_complete 103 104
               (demo_timetable
                ++ [{| start := 103%Z; end_ := 104%Z; completed := false |}])))
     = Ok {| start := 103%Z; end_ := 104%Z; completed := true |}.
Proof.
  assert (Hpk : primary_key demo_timetable).
  { unfold primary_key. repeat constructor; simpl; intuition discriminate. }
  split.
  - apply (add_timetable_entry_spec 102 110 demo_timetable Hpk).
    simpl. tauto.
  - destruct (add_timetable_entry_spec 103 104 demo_timetable Hpk) as [_ H].
    destruct H as [table' [Hrun [_ [_ [_ H]]]]].
    + simpl. intuition discriminate.
    + injection Hrun as <-. apply H.
      intros row [<- | [<- | [<- | []]]]; cbn [start]; lia.
Defined.

End TimetableFacts.

(** ** The miner's price history *)

Module PredictionFacts.
Import Prediction.

Lemma mapM_ext (A B : Type) (f g : A -> result B) (l : list A) :
  (forall x, f x = g x) -> mapM f l = mapM g l.
Proof.
  intros H. induction l as [| x l IH]; [reflexivity |].
  rewrite !mapM_cons, H, IH. reflexivity.
Qed.

Lemma mapM_seq_shift (B : Type) (f : nat -> result B) (k n : nat) :
  mapM f (seq (S k) n) = mapM (fun i => f (S i)) (seq k n).
Proof.
  revert k. induction n as [| n IH]; intros k; [reflexivity |].
  cbn [seq]. rewrite !mapM_cons, IH. reflexivity.
Qed.

Lemma filter_all (A : Type) (l : list A) : filter (fun _ => true) l = l.
Proof. induction l as [| x l IH]; [reflexivity |]. simpl. congruence. Qed.

Lemma scale_cons (p r : Q) (price_in_usd data : list Q) :
  scale (fun _ => true) (p :: price_in_usd) (r :: data)
  = match scale (fun _ => true) price_in_usd data with
    | Raise e => Raise e
    | Ok ys => Ok (p * r :: ys)
    end.
Proof.
  unfold scale. rewrite !filter_all. cbn [length seq].
  rewrite mapM_cons. cbn [nth_error]. rewrite mapM_seq_shift.
  reflexivity.
Qed.

Lemma scale_ok (data price_in_usd : list Q) :
  (length data <= length price_in_usd)%nat ->
  scale (fun _ => true) price_in_usd data
  = Ok (map (fun pr => fst pr * snd pr) (combine price_in_usd data)).
Proof.
  revert price_in_usd. induction data as [| r data IH]; intros price Hlen.
  - destruct price; reflexivity.
  - destruct price as [| p price]; [simpl in Hlen; lia |].
    rewrite scale_cons, IH by (simpl in Hlen; lia). reflexivity.
Qed.

Lemma scale_index_error (data price_in_usd : list Q) :
  (length price_in_usd < length data)%nat ->
  scale (fun _ => true) price_in_usd data = Raise IndexError.
Proof.
  revert price_in_usd. induction data as [| r data IH]; intros price Hlen.
  - simpl in Hlen. lia.
  - destruct price as [| p price].
    + unfold scale. rewrite filter_all. reflexivity.
    + rewrite scale_cons, IH by (simpl in Hlen; lia). reflexivity.
Qed.

Lemma filter_below (n m : nat) :
  filter (fun i => (i <? n)%nat) (seq 0 m) = seq 0 (Nat.min m n).
Proof.
  induction m as [| m IH]; [reflexivity |].
  rewrite seq_S, filter_app, IH. cbn [filter Nat.add].
  destruct (Nat.ltb_spec m n) as [Hlt | Hge].
  - replace (Nat.min (S m) n) with (S (Nat.min m n)) by lia.
    rewrite seq_S. replace (Nat.min m n) with m by lia. reflexivity.
  - rewrite app_nil_r. f_equal. lia.
Qed.

(** The filter [if i < n] cuts the series, not the running list. *)
Lemma scale_below (n : nat) (price_in_usd data : list Q) :
  scale (fun i => (i <? n)%nat) price_in_usd data
  = scale (fun _ => true) price_in_usd (firstn n data).
Proof.
  unfold scale. rewrite filter_all, filter_below, length_firstn.
  rewrite (Nat.min_comm n). 
  assert (H : forall l,
             (forall i, In i l -> (i < n)%nat) ->
             mapM (fun i => match nth_error price_in_usd i,
                                  nth_error data i with
                            | Some p, Some r => Ok (p * r)
                            | _, _ => Raise IndexError
                            end) l
             = mapM (fun i => match nth_error price_in_usd i,
                                    nth_error (firstn n data) i with
                              | Some p, Some r => Ok (p * r)
                              | _, _ => Raise IndexError
                              end) l).
  { induction l as [| i l IH]; intros Hl; [reflexivity |].
    rewrite !mapM_cons, IH by (intros j Hj; apply Hl; right; exact Hj).
    rewrite nth_error_firstn.
    destruct (Nat.ltb_spec i n) as [_ | Hge]; [reflexivity |].
    specialize (Hl i (or_introl eq_refl)). lia. }
  apply H. intros i Hi. apply in_seq in Hi. lia.
Qed.

Lemma nth_scaled (i : nat) (price_in_usd data : list Q) :
  (i < length data)%nat -> (length data <= length price_in_usd)%nat ->
  nth i (map (fun pr => fst pr * snd pr) (combine price_in_usd data)) 0
  = nth i price_in_usd 0 * nth i data 0.
Proof.
  revert price_in_usd data.
  induction i as [| i IH]; intros [| p price] [| r data] Hi Hlen;
    simpl in *; try lia; [reflexivity |].
  apply IH; lia.
Qed.

Lemma last_cons_to_default (A : Type) (x d : A) (l : list A) :
  last (x :: l) d = last l x.
Proof.
  revert x d. induction l as [| y l IH]; intros x d; [reflexivity |].
  change (last (x :: y :: l) d) with (last (y :: l) d).
  rewrite (IH y d), (IH y x). reflexivity.
Qed.

Lemma last_non_increasing (n : nat) (lengths : list nat) :
  non_increasing n lengths = true -> (last lengths n <= n)%nat.
Proof.
  revert n. induction lengths as [| m ls IH]; intros n H; [simpl; lia |].
  cbn [non_increasing] in H. apply andb_true_iff in H.
  destruct H as [Hm H]. apply Nat.leb_le in Hm.
  rewrite last_cons_to_default. specialize (IH m H). lia.
Qed.

Section PriceHistoryFacts.

Variable pool : Type.
Variable search_pool_address : string -> string -> pool.
Variable get_pool_price_ratios : pool -> Z -> Z -> Z -> list Q.

(** The loop without a filter: it succeeds exactly when no series is
    longer than the list it is multiplied into. *)
Lemma price_loop_all (start_timestamp end_timestamp : Z)
    (token_pairs : list (string * string)) (price_in_usd : list Q) :
  let all := series search_pool_address get_pool_price_ratios
               start_timestamp end_timestamp token_pairs in
  let run := price_loop search_pool_address get_pool_price_ratios
               (fun _ => true) start_timestamp end_timestamp token_pairs
               price_in_usd in
  (non_increasing (length price_in_usd) (map (@length Q) all) = false ->
   run = Raise IndexError)
  /\ (non_increasing (length price_in_usd) (map (@length Q) all) = true ->
      exists prices,
        run = Ok prices
        /\ length prices = last (map (@length Q) all) (length price_in_usd)
        /\ forall i, (i < length prices)%nat ->
                     nth i prices 0
                     = fold_left Qmult (map (fun data => nth i data 0) all)
                         (nth i price_in_usd 0)).
Proof.
  revert price_in_usd.
  induction token_pairs as [| tp tps IH]; intros price; cbv zeta.
  - cbn [series map non_increasing price_loop last fold_left].
    split; [discriminate |]. intros _. exists price. auto.
  - cbn [series map non_increasing price_loop]. cbv zeta.
    fold (series search_pool_address get_pool_price_ratios
            start_timestamp end_timestamp tps).
    set (data := get_pool_price_ratios _ start_timestamp end_timestamp 300).
    destruct (Nat.leb_spec (length data) (length price)) as [Hle | Hgt].
    + rewrite (scale_ok _ _ Hle). cbn [bind andb].
      set (price' := map _ (combine price data)).
      assert (Hlen' : length price' = length data).
      { unfold price'. rewrite length_map, length_combine. lia. }
      specialize (IH price'). cbv zeta in IH. rewrite Hlen' in IH.
      destruct IH as [IHerr IHok]. split; [exact IHerr |].
      intros Hfit. destruct (IHok Hfit) as [prices [Hrun [Hlen Hval]]].
      exists prices. split; [exact Hrun |]. split.
      * rewrite Hlen. symmetry. apply last_cons_to_default.
      * intros i Hi. rewrite (Hval i Hi). cbn [fold_left]. f_equal.
        unfold price'. apply nth_scaled; [| exact Hle].
        pose proof (last_non_increasing _ _ Hfit). lia.
    + rewrite (scale_index_error _ _ Hgt). cbn [bind andb].
      split; [reflexivity | discriminate].
Qed.

Lemma price_loop_below (n : nat) (start_timestamp end_timestamp : Z)
    (token_pairs : list (string * string)) (price_in_usd : list Q) :
  price_loop search_pool_address get_pool_price_ratios
    (fun i => (i <? n)%nat) start_timestamp end_timestamp token_pairs
    price_in_usd
  = price_loop search_pool_address
      (fun pool_address s e step =>
         firstn n (get_pool_price_ratios pool_address s e step))
      (fun _ => true) start_timestamp end_timestamp token_pairs price_in_usd.
Proof.
  revert price_in_usd. induction token_pairs as [| tp tps IH]; intros price;
    [reflexivity |].
  cbn [price_loop]. cbv zeta. rewrite scale_below.
  destruct (scale _ price _) as [price' | e]; [| reflexivity].
  cbn [bind]. apply IH.
Qed.

Lemma series_cut (n : nat) (start_timestamp end_timestamp : Z)
    (token_pairs : list (string * string)) :
  series search_pool_address
    (fun pool_address s e step =>
       firstn n (get_pool_price_ratios pool_address s e step))
    start_timestamp end_timestamp token_pairs
  = map (firstn n)
      (series search_pool_address get_pool_price_ratios
         start_timestamp end_timestamp token_pairs).
Proof. unfold series. rewrite map_map. reflexivity. Qed.

End PriceHistoryFacts.

Section Endpoints.

Variable pool : Type.
Variable search_pool_address : string -> string -> pool.
Variable get_pool_price_ratios : pool -> Z -> Z -> Z -> list Q.

Lemma nth_ones (i n : nat) : (i < n)%nat -> nth i (repeat 1 n) 0 = 1.
Proof.
  revert i. induction n as [| n IH]; intros i Hi; [lia |].
  destruct i as [| i]; [reflexivity |]. simpl. apply IH. lia.
Qed.

(** X28 (forwardPredictionSynapse, lines 91-95).  The price history is
    multiplied up along the path of token pairs, starting from 282 ones.
    It is computed exactly when no series of price ratios is longer than
    the one before it, the first being no longer than 282: otherwise the
    comprehension reads past the end of the running list and the endpoint
    fails with [IndexError].  When it is computed, it is as long as the
    last series (282 for an empty path) and its entry [i] is the product
    of the ratios number [i] of all the series. *)
Theorem prediction_price_in_usd_spec
    (token_pairs : list (string * string)) (timestamp : Z) :
  let all := series search_pool_address get_pool_price_ratios
               (timestamp - DAY) (timestamp - 30 * 60) token_pairs in
  let run := prediction_price_in_usd search_pool_address
               get_pool_price_ratios token_pairs timestamp in
  (non_increasing 282 (map (@length Q) all) = false ->
   run = Raise IndexError)
  /\ (non_increasing 282 (map (@length Q) all) = true ->
      exists prices,
        run = Ok prices
        /\ length prices = last (map (@length Q) all) 282%nat
        /\ forall i, (i < length prices)%nat ->
                     nth i prices 0 = path_price i all).
Proof.
  cbv zeta. unfold prediction_price_in_usd.
  pose proof (price_loop_all pool search_pool_address get_pool_price_ratios
                (timestamp - DAY) (timestamp - 30 * 60)
                token_pairs (repeat 1 282)) as H.
  cbv zeta in H. rewrite repeat_length in H. destruct H as [Herr Hok].
  split; [exact Herr |]. intros Hfit.
  destruct (Hok Hfit) as [prices [Hrun [Hlen Hval]]].
  exists prices. split; [exact Hrun |]. split; [exact Hlen |].
  intros i Hi. rewrite (Hval i Hi). unfold path_price.
  rewrite nth_ones; [reflexivity |].
  pose proof (last_non_increasing _ _ Hfit). lia.
Qed.

(** X29 (forwardPredictionAPISynapse, lines 282-286).  Here the
    comprehension skips the indices from 288 on, so every series counts
    with its first 288 ratios and a path of one pair never fails.  The
    filter compares with 288 and not with the length of the running list:
    a series that is longer than the one before it still ends the
    endpoint with [IndexError] when the earlier one has fewer than 288
    ratios.  When the history is computed, its entry [i] is the product of
    the ratios number [i] of all the series. *)
Theorem prediction_api_price_in_usd_spec
    (token_pairs : list (string * string)) (timestamp : Z) :
  let all := series search_pool_address get_pool_price_ratios
               (timestamp - DAY) timestamp token_pairs in
  let cut := map (fun data => Nat.min 288 (length data)) all in
  let run := prediction_api_price_in_usd search_pool_address
               get_pool_price_ratios token_pairs timestamp in
  (non_increasing 288 cut = false -> run = Raise IndexError)
  /\ (non_increasing 288 cut = true ->
      exists prices,
        run = Ok prices
        /\ length prices = last cut 288%nat
        /\ forall i, (i < length prices)%nat ->
                     nth i prices 0 = path_price i all)
  /\ ((length token_pairs <= 1)%nat -> non_increasing 288 cut = true).
Proof.
  cbv zeta. unfold prediction_api_price_in_usd.
  rewrite price_loop_below.
  pose proof (price_loop_all pool search_pool_address
                (fun pool_address s e step =>
                   firstn 288 (get_pool_price_ratios pool_address s e step))
                (timestamp - DAY) timestamp token_pairs (repeat 1 288)) as H.
  cbv zeta in H. rewrite repeat_length, series_cut, map_map in H.
  set (all := series search_pool_address get_pool_price_ratios
                (timestamp - DAY) timestamp token_pairs) in *.
  assert (Hcut : map (fun data => length (firstn 288 data)) all
                 = map (fun data => Nat.min 288 (length data)) all).
  { apply map_ext. intros data. apply length_firstn. }
  rewrite Hcut in H. destruct H as [Herr Hok].
  split; [exact Herr |]. split.
  - intros Hfit. destruct (Hok Hfit) as [prices [Hrun [Hlen Hval]]].
    exists prices. split; [exact Hrun |]. split; [exact Hlen |].
    intros i Hi. rewrite (Hval i Hi).
    pose proof (last_non_increasing _ _ Hfit) as Hlast.
    rewrite nth_ones by lia. unfold path_price. f_equal.
    rewrite map_map. apply map_ext. intros data.
    rewrite <- (firstn_skipn 288 data) at 2.
    destruct (Nat.lt_ge_cases i (length (firstn 288 data))) as [Hin | Hout].
    + rewrite app_nth1 by exact Hin. reflexivity.
    + rewrite length_firstn in Hout.
      rewrite !nth_overflow; [reflexivity | |].
      * rewrite length_app, length_firstn, length_skipn. lia.
      * rewrite length_firstn. lia.
  - unfold all, series. destruct token_pairs as [| tp [| tp' tps]];
      cbn [length map non_increasing]; intros Hone; [reflexivity | | lia].
    rewrite andb_true_r. apply Nat.leb_le. lia.
Qed.

End Endpoints.

Lemma prediction_price_in_usd_spec_witness :
  prediction_price_in_usd demo_pool_of demo_ratios
    [("usd"%string, "weth"%string)] 1700000000
  = Raise IndexError
  /\ exists prices,
       prediction_price_in_usd demo_pool_of demo_ratios
         [("long"%string, "weth"%string); ("short"%string, "usd"%string)]
         1700000000
       = Ok prices
       /\ length prices = 100%nat /\ nth 0 prices 0 = 1 * (3 # 1) * (2 # 1).
Proof.
  split.
  - apply (prediction_price_in_usd_spec string demo_pool_of demo_ratios
             [("usd"%string, "weth"%string)] 1700000000).
    reflexivity.
  - destruct (prediction_price_in_usd_spec string demo_pool_of demo_ratios
                [("long"%string, "weth"%string);
                 ("short"%string, "usd"%string)] 1700000000) as [_ H].
    destruct (H eq_refl) as [prices [Hrun [Hlen Hval]]].
    exists prices. split; [exact Hrun |]. split; [exact Hlen |].
    apply (Hval 0%nat). rewrite Hlen. vm_compute. lia.
Defined.

Lemma prediction_api_price_in_usd_spec_witness :
  prediction_api_price_in_usd demo_pool_of demo_ratios
    [("short"%string, "weth"%string); ("long"%string, "usd"%string)]
    1700000000
  = Raise IndexError
  /\ exists prices,
       prediction_api_price_in_usd demo_pool_of demo_ratios
         [("usd"%string, "weth"%string)] 1700000000
       = Ok prices
       /\ length prices = 288%nat.
Proof.
  split.
  - apply (prediction_api_price_in_usd_spec string demo_pool_of demo_ratios
             [("short"%string, "weth"%string); ("long"%string, "usd"%string)]
             1700000000).
    reflexivity.
  - destruct (prediction_api_price_in_usd_spec string demo_pool_of
                demo_ratios [("usd"%string, "weth"%string)] 1700000000)
      as [_ [H Hone]].
    destruct (H (Hone (le_n 1))) as [prices [Hrun [Hlen _]]].
    exists prices. split; [exact Hrun | exact Hlen].
Defined.

End PredictionFacts.

(** ** The event tables *)

Module PoolEventsFacts.
Import PoolEventsDB.

Lemma between_spec (start_block end_block block_number : Z) :
  between start_block end_block block_number = true
  <-> (start_block <= block_number <= end_block)%Z.
Proof. unfold between. rewrite andb_true_iff, !Z.leb_le. tauto. Qed.

Lemma filter_none (A : Type) (f : A -> bool) (l : list A) :
  (forall x, f x = false) -> filter f l = [].
Proof.
  intros H. induction l as [| x l IH]; [reflexivity |].
  simpl. rewrite H. exact IH.
Qed.

Lemma filter_adjacent (A : Type) (block_number : A -> Z) (rows : list A)
    (start_block middle end_block : Z) :
  (start_block <= middle + 1)%Z -> (middle <= end_block)%Z ->
  Permutation
    (filter (fun row => between start_block end_block (block_number row))
            rows)
    (filter (fun row => between start_block middle (block_number row)) rows
     ++ filter (fun row => between (middle + 1) end_block (block_number row))
          rows).
Proof.
  intros H1 H2. induction rows as [| row rows IH]; [constructor |].
  cbn [filter].
  destruct (between start_block middle (block_number row)) eqn:E1;
    destruct (between (middle + 1) end_block (block_number row)) eqn:E2;
    destruct (between start_block end_block (block_number row)) eqn:E;
    try apply between_spec in E1; try apply between_spec in E2;
    try apply between_spec in E; try lia;
    try (exfalso;
         repeat match goal with
                | H : between _ _ _ = false |- _ =>
                    unfold between in H; apply andb_false_iff in H;
                    rewrite !Z.leb_gt in H
                end; lia).
  - cbn [app]. apply perm_skip. exact IH.
  - apply Permutation_cons_app. exact IH.
  - exact IH.
Qed.

Lemma interleave (A : Type) (p p1 p2 q q1 q2 : list A) :
  Permutation p (p1 ++ p2) -> Permutation q (q1 ++ q2) ->
  Permutation (p ++ q) ((p1 ++ q1) ++ (p2 ++ q2)).
Proof.
  intros Hp Hq. rewrite Hp, Hq, <- !app_assoc.
  apply Permutation_app_head. rewrite !app_assoc.
  apply Permutation_app_tail. apply Permutation_app_comm.
Qed.

Section TablesFacts.

Variables SwapEventTable MintEventTable BurnEventTable CollectEventTable
  : Type.
Variable swap_block_number : SwapEventTable -> Z.
Variable mint_block_number : MintEventTable -> Z.
Variable burn_block_number : BurnEventTable -> Z.
Variable collect_block_number : CollectEventTable -> Z.

Local Abbreviation event :=
  (pool_event SwapEventTable MintEventTable BurnEventTable
     CollectEventTable).
Local Abbreviation block :=
  (block_number_of swap_block_number mint_block_number burn_block_number
     collect_block_number).

Lemma in_fetched (A : Type) (C : A -> event) (block_number : A -> Z)
    (rows : list A) (start_block end_block : Z) (e : event) :
  (forall row, block (C row) = block_number row) ->
  In e (map C (filter (fun row => between start_block end_block
                                    (block_number row)) rows))
  <-> In e (map C rows) /\ (start_block <= block e <= end_block)%Z.
Proof.
  intros Hbn. rewrite !in_map_iff. split.
  - intros [row [<- Hrow]]. apply filter_In in Hrow.
    destruct Hrow as [Hrow Hb]. apply between_spec in Hb.
    rewrite Hbn. split; [exists row; auto | exact Hb].
  - intros [[row [<- Hrow]] Hb]. rewrite Hbn in Hb. exists row.
    split; [reflexivity |]. apply filter_In. split; [exact Hrow |].
    apply between_spec. exact Hb.
Qed.

(** X30 (fetch_pool_events and the four fetch_*_events).  The answer to a
    block range holds exactly the stored swaps, mints, burns and collects
    whose block number lies in the range, bounds included; it is empty for
    a range whose end is before its start; and a range cut in two at any
    block gives the events of the two parts together, none lost and none
    twice. *)
Theorem fetch_pool_events_range (start_block end_block : Z)
    (db : database SwapEventTable MintEventTable BurnEventTable
            CollectEventTable) :
  let fetch := fetch_pool_events swap_block_number mint_block_number
                 burn_block_number collect_block_number in
  (forall e,
      In e (fetch start_block end_block db)
      <-> In e (stored db) /\ (start_block <= block e <= end_block)%Z)
  /\ ((end_block < start_block)%Z -> fetch start_block end_block db = [])
  /\ (forall middle,
        (start_block <= middle + 1)%Z -> (middle <= end_block)%Z ->
        Permutation (fetch start_block end_block db)
          (fetch start_block middle db
           ++ fetch (middle + 1)%Z end_block db)).
Proof.
  cbv zeta. split; [| split].
  - intros e. unfold fetch_pool_events, stored, fetch_swap_events,
      fetch_mint_events, fetch_burn_events, fetch_collect_events.
    cbv zeta. rewrite !in_app_iff.
    rewrite (in_fetched _ (@Swap _ _ _ _) swap_block_number) by reflexivity.
    rewrite (in_fetched _ (@Mint _ _ _ _) mint_block_number) by reflexivity.
    rewrite (in_fetched _ (@Burn _ _ _ _) burn_block_number) by reflexivity.
    rewrite (in_fetched _ (@Collect _ _ _ _) collect_block_number) by reflexivity.
    tauto.
  - intros Hempty. unfold fetch_pool_events, fetch_swap_events,
      fetch_mint_events, fetch_burn_events, fetch_collect_events.
    cbv zeta.
    assert (H : forall b, between start_block end_block b = false).
    { intros b. destruct (between start_block end_block b) eqn:E;
        [| reflexivity].
      apply between_spec in E. lia. }
    rewrite !filter_none by (intros row; apply H). reflexivity.
  - intros middle H1 H2. unfold fetch_pool_events, fetch_swap_events,
      fetch_mint_events, fetch_burn_events, fetch_collect_events.
    cbv zeta.
    repeat apply interleave;
      rewrite <- map_app; apply Permutation_map; apply filter_adjacent;
      assumption.
Qed.

End TablesFacts.

Lemma fetch_pool_events_range_witness :
  fetch_pool_events (fun b => b) (fun b => b) (fun b => b) (fun b => b)
    30 20 demo_database = []
  /\ length (fetch_pool_events (fun b => b) (fun b => b) (fun b => b)
               (fun b => b) 10 30 demo_database)
     = (length (fetch_pool_events (fun b => b) (fun b => b) (fun b => b)
                  (fun b => b) 10 24 demo_database)
        + length (fetch_pool_events (fun b => b) (fun b => b) (fun b => b)
                    (fun b => b) 25 30 demo_database))%nat.
Proof.
  destruct (fetch_pool_events_range Z Z Z Z (fun b => b) (fun b => b)
              (fun b => b) (fun b => b) 30 20 demo_database)
    as [_ [Hempty _]].
  destruct (fetch_pool_events_range Z Z Z Z (fun b => b) (fun b => b)
              (fun b => b) (fun b => b) 10 30 demo_database)
    as [_ [_ Hcut]].
  split.
  - apply Hempty. lia.
  - rewrite <- length_app. apply Permutation_length.
    apply (Hcut 24%Z); lia.
Defined.

End PoolEventsFacts.
